(** * Event storage and image URL helpers of the church website

    A shallow embedding of [src/utils/storage.ts]: the image URL transform
    helper ([getOptimizedImageUrl]), the IndexedDB wrapper ([initDB],
    [getAllEvents], [saveAllEvents], [deleteEvent]), the migration routine
    ([migrateFromLocalStorage]) and the remote sync client
    ([syncEventsWithSupabase], [createEventWithSync], [deleteEventWithSync]).

    Conventions of the embedding.
    - A JavaScript string is a [string] of bytes, read as its UTF-8 encoding.
    - A JavaScript number is an integer [Z]; fractions, NaN and the
      infinities are not represented.
    - An [async] function is a state transformer over the browser's storage
      that either returns a value or throws ([outcome]); the program runs on
      one logical thread, and no two calls are interleaved. *)

From Stdlib Require Import ZArith NArith String Ascii List Bool Lia.
From Stdlib Require Import DecimalString.
From stdpp Require Import base option list gmap strings fin_maps.

Set Warnings "-register-all".
Open Scope string_scope.
Open Scope Z_scope.

(** ** Thrown values *)

Inductive error : Type :=
  | TypeError            (* property of null/undefined, call of a non-function,
                            iteration of a non-iterable *)
  | SyntaxError          (* JSON.parse, Response.json *)
  | URIError             (* decodeURIComponent *)
  | DataError            (* IDBObjectStore.put: no valid key at the key path *)
  | OpenError            (* indexedDB.open: request.onerror *)
  | TransactionError     (* IDBDatabase.transaction throws *)
  | RequestError         (* an IDBRequest fires onerror *)
  | QuotaExceededError   (* localStorage.setItem *)
  | NetworkFailure       (* fetch rejects *)
  | ServerFailure.       (* new Error('Failed to ... on server') *)

Inductive outcome (A : Type) : Type :=
  | Ok (a : A)
  | Throw (e : error).
Arguments Ok {A} a.
Arguments Throw {A} e.

Definition is_ok {A} (r : outcome A) : bool :=
  match r with Ok _ => true | Throw _ => false end.

Definition obind {A B} (r : outcome A) (k : A -> outcome B) : outcome B :=
  match r with Ok a => k a | Throw e => Throw e end.

Fixpoint try_map {A B} (f : A -> outcome B) (l : list A) : outcome (list B) :=
  match l with
  | [] => Ok []
  | x :: l' => obind (f x) (fun y => obind (try_map f l') (fun ys => Ok (y :: ys)))
  end.

(** ** Strings: the [String.prototype] methods the program calls *)

Module Str.

(** [s.startsWith(p)] *)
Definition startsWith (p s : string) : bool := String.prefix p s.

(** [s.includes(needle)] *)
Fixpoint includes (needle s : string) : bool :=
  String.prefix needle s ||
  match s with
  | EmptyString => false
  | String _ s' => includes needle s'
  end.

(** [s.split(sep)] for a non-empty separator: cut at every occurrence of
    [sep], scanning from the left, occurrences never overlapping.  [skip]
    counts the bytes of a matched separator still to be passed over and
    [cur] holds the current piece, last byte first. *)
Fixpoint split_go (sep : string) (skip : nat) (cur : string) (s : string)
  : list string :=
  match s with
  | EmptyString => [String.rev cur]
  | String c s' =>
      match skip with
      | S k => split_go sep k cur s'
      | O =>
          if String.prefix sep s
          then String.rev cur :: split_go sep (String.length sep - 1) "" s'
          else split_go sep 0 (String c cur) s'
      end
  end.

Definition split (sep s : string) : list string := split_go sep 0 "" s.

(** [parts.join(sep)] *)
Definition join (sep : string) (parts : list string) : string :=
  String.concat sep parts.

(** [n.toString()] for a safe integer (below 2^53 in absolute value):
    its decimal digits.  Larger numbers, which JavaScript rounds and from
    1e21 on prints with an exponent, are outside what this function
    describes. *)
Definition ofZ (n : Z) : string := NilZero.string_of_int (Z.to_int n).

End Str.

(** ** Percent-encoding: [decodeURIComponent], [encodeURIComponent] and the
    serialisation of [URLSearchParams] *)

Module Uri.

Definition byte_of (c : ascii) : N := N_of_ascii c.

Definition in_range (lo hi : N) (b : N) : bool :=
  ((lo <=? b) && (b <=? hi))%N.

Definition is_digit (c : ascii) : bool := in_range 48 57 (byte_of c).
Definition is_upper (c : ascii) : bool := in_range 65 90 (byte_of c).
Definition is_lower (c : ascii) : bool := in_range 97 122 (byte_of c).
Definition is_alnum (c : ascii) : bool :=
  is_digit c || is_upper c || is_lower c.

Definition one_of (set : string) (c : ascii) : bool :=
  existsb (Ascii.eqb c) (list_ascii_of_string set).

(** value of a hexadecimal digit, either case *)
Definition hexval (c : ascii) : option N :=
  let b := byte_of c in
  if is_digit c then Some (b - 48)%N
  else if in_range 65 70 b then Some (b - 55)%N
  else if in_range 97 102 b then Some (b - 87)%N
  else None.

Definition hexdigit (n : N) : ascii :=
  if (n <? 10)%N then ascii_of_N (48 + n) else ascii_of_N (55 + n).

(** [%XX], upper case *)
Definition percent (c : ascii) : string :=
  let b := byte_of c in
  String "%" (String (hexdigit (b / 16)) (String (hexdigit (b mod 16)) "")).

(** the bytes [encodeURIComponent] leaves alone *)
Definition unreserved (c : ascii) : bool :=
  is_alnum c || one_of "-_.!~*'()" c.

Fixpoint encodeURIComponent (s : string) : string :=
  match s with
  | EmptyString => ""
  | String c s' =>
      (if unreserved c then String c "" else percent c)
        +:+ encodeURIComponent s'
  end.

(** [decodeURIComponent] works in two passes here.  [lex] reads every
    [%XX] escape (a [%] not followed by two hexadecimal digits is a
    URIError); [assemble] then checks that the escaped bytes from 0x80 up
    form well-formed UTF-8 sequences made of escapes only. *)
Inductive token : Type :=
  | Lit (c : ascii)
  | Esc (b : N).

Fixpoint lex (s : string) : option (list token) :=
  match s with
  | EmptyString => Some []
  | String c s1 =>
      if Ascii.eqb c "%" then
        match s1 with
        | String h (String l s3) =>
            match hexval h, hexval l with
            | Some a, Some b =>
                match lex s3 with
                | Some ts => Some (Esc (16 * a + b) :: ts)
                | None => None
                end
            | _, _ => None
            end
        | _ => None
        end
      else
        match lex s1 with
        | Some ts => Some (Lit c :: ts)
        | None => None
        end
  end.

Definition cont (b : N) : bool := in_range 128 191 b.

(** the range allowed for the second byte after lead byte [b] *)
Definition second_ok (b c : N) : bool :=
  if (b =? 224)%N then in_range 160 191 c
  else if (b =? 237)%N then in_range 128 159 c
  else if (b =? 240)%N then in_range 144 191 c
  else if (b =? 244)%N then in_range 128 143 c
  else cont c.

Fixpoint assemble (ts : list token) : option (list ascii) :=
  match ts with
  | [] => Some []
  | Lit c :: r => cons c <$> assemble r
  | Esc b :: r =>
      if (b <? 128)%N then cons (ascii_of_N b) <$> assemble r
      else if in_range 194 223 b then
        match r with
        | Esc c1 :: r1 =>
            if cont c1
            then (fun l => ascii_of_N b :: ascii_of_N c1 :: l) <$> assemble r1
            else None
        | _ => None
        end
      else if in_range 224 239 b then
        match r with
        | Esc c1 :: Esc c2 :: r2 =>
            if second_ok b c1 && cont c2
            then (fun l => ascii_of_N b :: ascii_of_N c1 :: ascii_of_N c2 :: l)
                   <$> assemble r2
            else None
        | _ => None
        end
      else if in_range 240 244 b then
        match r with
        | Esc c1 :: Esc c2 :: Esc c3 :: r3 =>
            if second_ok b c1 && cont c2 && cont c3
            then (fun l => ascii_of_N b :: ascii_of_N c1 :: ascii_of_N c2
                             :: ascii_of_N c3 :: l) <$> assemble r3
            else None
        | _ => None
        end
      else None
  end.

Definition decodeURIComponent (s : string) : outcome string :=
  match lex s with
  | Some ts =>
      match assemble ts with
      | Some cs => Ok (string_of_list_ascii cs)
      | None => Throw URIError
      end
  | None => Throw URIError
  end.

(** [URLSearchParams]: the list of appended pairs, and [toString()] as
    the application/x-www-form-urlencoded serialisation. *)
Definition form_safe (c : ascii) : bool := is_alnum c || one_of "*-._" c.

Fixpoint form_encode (s : string) : string :=
  match s with
  | EmptyString => ""
  | String c s' =>
      (if Ascii.eqb c " " then "+"
       else if form_safe c then String c "" else percent c)
        +:+ form_encode s'
  end.

Definition URLSearchParams : Type := list (string * string).

Definition append (name value : string) (params : URLSearchParams)
  : URLSearchParams := (params ++ [(name, value)])%list.

Definition toString (params : URLSearchParams) : string :=
  Str.join "&"
    (map (fun p => form_encode p.1 +:+ "=" +:+ form_encode p.2) params).

End Uri.

(** ** The image URL transform helper *)

Inductive image_format : Type := webp | avif | jpg | png.
Inductive resize_mode : Type := cover | contain | fill.

Definition format_name (f : image_format) : string :=
  match f with webp => "webp" | avif => "avif" | jpg => "jpg" | png => "png" end.

Definition resize_name (r : resize_mode) : string :=
  match r with cover => "cover" | contain => "contain" | fill => "fill" end.

(** [interface ImageTransformOptions]; [None] is an absent field. *)
Record ImageTransformOptions : Type := {
  width : option Z;
  height : option Z;
  quality : option Z;
  format : option image_format;
  resize : option resize_mode;
}.

(** the default [options = {}] *)
Definition no_options : ImageTransformOptions :=
  {| width := None; height := None; quality := None;
     format := None; resize := None |}.

(** [if (options.width)]: present and not zero *)
Definition truthy_number (n : option Z) : bool :=
  match n with Some z => negb (z =? 0) | None => false end.

(** [if (options.f) params.append(name, text)] *)
Definition append_if (cond : bool) (name value : string)
    (params : Uri.URLSearchParams) : Uri.URLSearchParams :=
  if cond then Uri.append name value params else params.

Definition number_text (n : option Z) : string :=
  match n with Some z => Str.ofZ z | None => "" end.

Definition build_params (options : ImageTransformOptions)
  : Uri.URLSearchParams :=
  let params := [] in
  let params := append_if (truthy_number (width options)) "width"
                  (number_text (width options)) params in
  let params := append_if (truthy_number (height options)) "height"
                  (number_text (height options)) params in
  let params := append_if (truthy_number (quality options)) "quality"
                  (number_text (quality options)) params in
  let params := append_if (bool_decide (is_Some (format options))) "format"
                  (from_option format_name "" (format options)) params in
  let params := append_if (bool_decide (is_Some (resize options))) "resize"
                  (from_option resize_name "" (resize options)) params in
  params.

Definition supabase_marker : string := ".supabase.co/storage/v1/object/public/".
Definition object_segment : string := "/storage/v1/object/public/".
Definition render_segment : string := "/storage/v1/render/image/public/".

(** decode first, then encode, one path segment *)
Definition reencode (segment : string) : outcome string :=
  obind (Uri.decodeURIComponent segment)
        (fun d => Ok (Uri.encodeURIComponent d)).

(** [getOptimizedImageUrl(url, options)]; [None] is [undefined]. *)
Definition getOptimizedImageUrl (url : option string)
    (options : ImageTransformOptions) : outcome string :=
  match url with
  | None => Ok ""
  | Some url =>
      if String.eqb url "" then Ok ""
      else if Str.startsWith "data:" url then Ok url
      else
        let isSupabaseUrl := Str.includes supabase_marker url in
        if negb isSupabaseUrl then Ok url
        else
          let urlParts := Str.split object_segment url in
          if (length urlParts <? 2)%nat then Ok url
          else
            let baseUrl := nth 0 urlParts "" in
            match Str.split "/" (nth 1 urlParts "") with
            | [] => Ok url (* split never returns an empty list *)
            | bucketRaw :: pathPartsRaw =>
                obind (reencode bucketRaw) (fun bucket =>
                obind (try_map reencode pathPartsRaw) (fun parts =>
                  let path := Str.join "/" parts in
                  let transformUrl :=
                    baseUrl +:+ render_segment +:+ bucket +:+ "/" +:+ path in
                  let queryString := Uri.toString (build_params options) in
                  Ok (if String.eqb queryString "" then transformUrl
                      else transformUrl +:+ "?" +:+ queryString)))
            end
  end.

(** ** JavaScript values

    The storage functions take and return [any]; a value here is what JSON
    can carry, plus [undefined].  An object is the list of its own
    properties in insertion order. *)

Inductive value : Type :=
  | VUndef
  | VNull
  | VBool (b : bool)
  | VNum (n : Z)
  | VStr (s : string)
  | VArr (xs : list value)
  | VObj (ps : list (string * value)).

Module Js.

(** truthiness, as tested by [||], [?:] and [if] *)
Definition truthy (v : value) : bool :=
  match v with
  | VUndef | VNull => false
  | VBool b => b
  | VNum n => negb (n =? 0)
  | VStr s => negb (String.eqb s "")
  | VArr _ | VObj _ => true
  end.

Fixpoint lookup (k : string) (ps : list (string * value)) : option value :=
  match ps with
  | [] => None
  | (k', v) :: ps' => if String.eqb k k' then Some v else lookup k ps'
  end.

(** [v.k] for one of the names the program reads ([id], [media],
    [image], [url], [events], [event]): a TypeError on [null] and
    [undefined], the own property of an object, and [undefined] on
    anything else, since no array, string, number or boolean carries one
    of these names. *)
Definition get (v : value) (k : string) : outcome value :=
  match v with
  | VUndef | VNull => Throw TypeError
  | VObj ps => Ok (default VUndef (lookup k ps))
  | _ => Ok VUndef
  end.

(** [o.k = v] on the property list: an existing property keeps its
    place, a new one goes last. *)
Fixpoint set (k : string) (v : value) (ps : list (string * value))
  : list (string * value) :=
  match ps with
  | [] => [(k, v)]
  | (k', v') :: ps' =>
      if String.eqb k k' then (k, v) :: ps' else (k', v') :: set k v ps'
  end.

Fixpoint chars (s : string) : list value :=
  match s with
  | EmptyString => []
  | String c s' => VStr (String c "") :: chars s'
  end.

Definition indexed (xs : list value) : list (string * value) :=
  imap (fun i x => (Str.ofZ (Z.of_nat i), x)) xs.

(** the own enumerable properties that [...v] copies *)
Definition own_props (v : value) : list (string * value) :=
  match v with
  | VObj ps => ps
  | VArr xs => indexed xs
  | VStr s => indexed (chars s)
  | _ => []
  end.

(** [{ ...target, ...v }] *)
Definition spread (target : list (string * value)) (v : value)
  : list (string * value) :=
  foldl (fun acc kv => set kv.1 kv.2 acc) target (own_props v).

(** the elements [for (const x of v)] and [[...v]] run through *)
Definition iterate (v : value) : outcome (list value) :=
  match v with
  | VArr xs => Ok xs
  | VStr s => Ok (chars s)
  | _ => Throw TypeError
  end.

(** [v.map(f)]: only an array has [map] *)
Definition array_map (f : value -> outcome value) (v : value)
  : outcome (list value) :=
  match v with
  | VArr xs => try_map f xs
  | _ => Throw TypeError
  end.

(** [xs.filter(keep)] with a callback that may throw *)
Fixpoint filter (keep : value -> outcome bool) (xs : list value)
  : outcome (list value) :=
  match xs with
  | [] => Ok []
  | x :: xs' =>
      obind (keep x) (fun b =>
      obind (filter keep xs') (fun ys =>
        Ok (if b then x :: ys else ys)))
  end.

(** What [JSON.parse(JSON.stringify(v))] gives back: a property whose value
    is [undefined] is left out, and [undefined] inside an array becomes
    [null]. *)
Fixpoint to_json (v : value) : value :=
  match v with
  | VArr xs =>
      VArr (map (fun x => match x with VUndef => VNull | _ => to_json x end) xs)
  | VObj ps =>
      VObj ((fix props (ps : list (string * value)) : list (string * value) :=
               match ps with
               | [] => []
               | (k, VUndef) :: ps' => props ps'
               | (k, x) :: ps' => (k, to_json x) :: props ps'
               end) ps)
  | _ => v
  end.

End Js.

(** ** Text kept in [localStorage]

    The program tests the stored text for emptiness and hands it to
    [JSON.parse], nothing else.  A text is therefore represented by what
    [JSON.parse] makes of it: [Json v] is a text that parses to [v], and
    [NotJson s] is any other text [s], the empty text ([NotJson ""])
    included. *)

Inductive text : Type :=
  | Json (v : value)
  | NotJson (s : string).

Definition JSON_stringify (v : value) : text := Json (Js.to_json v).

Definition JSON_parse (t : text) : outcome value :=
  match t with
  | Json v => Ok v
  | NotJson _ => Throw SyntaxError
  end.

(** [stored ? ... : ...] on the result of [getItem] *)
Definition truthy_text (stored : option text) : bool :=
  match stored with
  | None => false
  | Some (Json _) => true
  | Some (NotJson s) => negb (String.eqb s "")
  end.

(** ** The browser: IndexedDB and localStorage *)

(** A key of the object store: a number, a string, or an array of keys.
    Dates and binary keys, the other valid IndexedDB keys, are not
    represented, since [value] has neither. *)
Inductive idb_key : Type :=
  | KNum (n : Z)
  | KStr (s : string)
  | KArr (ks : list idb_key).

(** keys as trees with numbers and strings at the leaves, for the
    equality test and the enumeration that a finite map needs *)
Fixpoint key_tree (k : idb_key) : gen_tree (Z + string) :=
  match k with
  | KNum n => GenLeaf (inl n)
  | KStr s => GenLeaf (inr s)
  | KArr ks => GenNode 0 (map key_tree ks)
  end.

Fixpoint tree_key (t : gen_tree (Z + string)) : idb_key :=
  match t with
  | GenLeaf (inl n) => KNum n
  | GenLeaf (inr s) => KStr s
  | GenNode _ ts => KArr (map tree_key ts)
  end.

#[global] Instance idb_key_eq_dec : EqDecision idb_key.
Proof.
  assert (∀ k, tree_key (key_tree k) = k) as Hinv.
  { fix IH 1. intros [n|s|ks]; cbn [key_tree tree_key];
      [reflexivity | reflexivity |].
    f_equal. induction ks as [|k ks IHks]; cbn [map]; [reflexivity|].
    rewrite (IH k), IHks. reflexivity. }
  intros x y. destruct (decide (key_tree x = key_tree y)) as [H|H].
  - left. rewrite <- (Hinv x), <- (Hinv y), H. reflexivity.
  - right. intros ->. apply H. reflexivity.
Defined.

#[global] Instance idb_key_countable : Countable idb_key.
Proof.
  refine (inj_countable' key_tree tree_key _).
  fix IH 1. intros [n|s|ks]; cbn [key_tree tree_key];
    [reflexivity | reflexivity |].
  f_equal. induction ks as [|k ks IHks]; cbn [map]; [reflexivity|].
  rewrite (IH k), IHks. reflexivity.
Defined.

(** the ways IndexedDB can fail *)
Inductive idb_fault : Type :=
  | OpenFails          (* indexedDB.open ends in onerror *)
  | TransactionFails   (* database.transaction(...) throws *)
  | RequestFails.      (* every request on the store ends in onerror *)

Record browser : Type := Browser {
  db : bool;                          (* [let db]: a handle, or [null] *)
  fault : option idb_fault;           (* how IndexedDB misbehaves, if it does *)
  store : gmap idb_key value;         (* object store 'events', keyPath 'id' *)
  churchEvents : option text;         (* localStorage item 'churchEvents' *)
  quota_exceeded : bool;              (* localStorage is full *)
}.

Definition with_db (b : bool) (st : browser) : browser :=
  Browser b (fault st) (store st) (churchEvents st) (quota_exceeded st).
Definition with_store (m : gmap idb_key value) (st : browser) : browser :=
  Browser (db st) (fault st) m (churchEvents st) (quota_exceeded st).
Definition with_churchEvents (t : option text) (st : browser) : browser :=
  Browser (db st) (fault st) (store st) t (quota_exceeded st).

(** An asynchronous computation: it runs on a browser state and settles
    with a value or a thrown error, leaving a new state. *)
Definition M (A : Type) : Type := browser -> outcome A * browser.

Definition ret {A} (a : A) : M A := fun st => (Ok a, st).
Definition throw {A} (e : error) : M A := fun st => (Throw e, st).
Definition bind {A B} (m : M A) (k : A -> M B) : M B :=
  fun st =>
    match m st with
    | (Ok a, st') => k a st'
    | (Throw e, st') => (Throw e, st')
    end.
(** [try { m } catch (error) { handler }] *)
Definition try_catch {A} (m : M A) (handler : error -> M A) : M A :=
  fun st =>
    match m st with
    | (Ok a, st') => (Ok a, st')
    | (Throw e, st') => handler e st'
    end.
Definition lift {A} (r : outcome A) : M A := fun st => (r, st).

Notation "x <- m ;; k" := (bind m (fun x => k))
  (at level 60, m at next level, right associativity).
Notation "m ;;; k" := (bind m (fun _ => k))
  (at level 60, right associativity).

Fixpoint for_each {A} (f : A -> M unit) (l : list A) : M unit :=
  match l with
  | [] => ret tt
  | x :: l' => f x ;;; for_each f l'
  end.

Module IDB.

(** the key that a value is, if it is a valid one: a number, a string, or
    an array of valid keys *)
Fixpoint valid_key (v : value) : option idb_key :=
  match v with
  | VNum n => Some (KNum n)
  | VStr s => Some (KStr s)
  | VArr xs =>
      KArr <$> (fix keys (xs : list value) : option (list idb_key) :=
                  match xs with
                  | [] => Some []
                  | x :: xs' =>
                      match valid_key x, keys xs' with
                      | Some k, Some ks => Some (k :: ks)
                      | _, _ => None
                      end
                  end) xs
  | _ => None
  end.

(** the keys of the elements of an array key *)
Fixpoint valid_keys (xs : list value) : option (list idb_key) :=
  match xs with
  | [] => Some []
  | x :: xs' =>
      match valid_key x, valid_keys xs' with
      | Some k, Some ks => Some (k :: ks)
      | _, _ => None
      end
  end.

(** the key found at key path ['id'], if the value has a valid one *)
Definition key_of (v : value) : option idb_key :=
  match v with
  | VObj ps =>
      match Js.lookup "id" ps with
      | Some x => valid_key x
      | None => None
      end
  | _ => None
  end.

(** a request on the object store: [onerror] under [RequestFails],
    otherwise [onsuccess] with the effect [op] *)
Definition request {A} (op : gmap idb_key value -> A * gmap idb_key value)
  : M A :=
  fun st =>
    match fault st with
    | Some RequestFails => (Throw RequestError, st)
    | _ => let '(a, m) := op (store st) in (Ok a, with_store m st)
    end.

(** [database.transaction([STORE_NAME], mode).objectStore(STORE_NAME)] *)
Definition transaction : M unit :=
  fun st =>
    match fault st with
    | Some TransactionFails => (Throw TransactionError, st)
    | _ => (Ok tt, st)
    end.

Definition clear : M unit := request (fun _ => (tt, ∅)).

(** [store.put(v)] throws DataError at once when [v] has no valid key *)
Definition put (v : value) : M unit :=
  match key_of v with
  | Some k => request (fun m => (tt, <[k := v]> m))
  | None => throw DataError
  end.

Definition delete (k : idb_key) : M unit :=
  request (fun m => (tt, base.delete k m)).

(** the records of the store, as [store.getAll()] lists them.  IndexedDB
    lists them by ascending key; here the order is the one the map
    enumerates, and no statement below depends on it. *)
Definition records (m : gmap idb_key value) : list value :=
  (map_to_list m).*2.

Definition getAll : M (list value) := request (fun m => (records m, m)).

End IDB.

Module LocalStorage.

Definition getItem : M (option text) := fun st => (Ok (churchEvents st), st).

Definition setItem (t : text) : M unit :=
  fun st =>
    if quota_exceeded st then (Throw QuotaExceededError, st)
    else (Ok tt, with_churchEvents (Some t) st).

End LocalStorage.

(** ** [initDB] *)

Definition initDB : M unit :=
  fun st =>
    if db st then (Ok tt, st)
    else
      match fault st with
      | Some OpenFails => (Throw OpenError, st)
      | _ => (Ok tt, with_db true st)
      end.

(** ** [getAllEvents]

    The [try] block ends in [return new Promise(...)] without [await]: the
    block is left with the request still pending, and the request's outcome
    settles the call outside the [try]. *)

Inductive returned : Type :=
  | Pending                 (* the promise wrapping [store.getAll()] *)
  | Fallback (v : value).   (* the value computed in the [catch] block *)

Definition legacy_events : M value :=
  stored <- LocalStorage.getItem ;;
  if truthy_text stored
  then lift (JSON_parse (default (NotJson "") stored))
  else ret (VArr []).

Definition getAllEvents : M value :=
  r <- try_catch
         (initDB ;;; IDB.transaction ;;; ret Pending)
         (fun _ => v <- legacy_events ;; ret (Fallback v)) ;;
  match r with
  | Pending => result <- IDB.getAll ;; ret (VArr result)
  | Fallback v => ret v
  end.

(** ** [saveAllEvents] *)

(** [!m.url.startsWith('data:')] *)
Definition keep_media (m : value) : outcome bool :=
  obind (Js.get m "url") (fun url =>
    match url with
    | VStr s => Ok (negb (Str.startsWith "data:" s))
    | _ => Throw TypeError
    end).

(** [{ ...e, media: e.media?.filter(...) || [],
       image: e.image?.startsWith('data:') ? '' : e.image }] *)
Definition lightweight (e : value) : outcome value :=
  let copy := Js.spread [] e in
  obind (Js.get e "media") (fun media0 =>
  obind (match media0 with
         | VUndef | VNull => Ok (VArr [])
         | VArr items => obind (Js.filter keep_media items) (fun l => Ok (VArr l))
         | _ => Throw TypeError
         end) (fun media =>
  obind (Js.get e "image") (fun image0 =>
  obind (match image0 with
         | VUndef | VNull => Ok image0
         | VStr s => Ok (if Str.startsWith "data:" s then VStr "" else image0)
         | _ => Throw TypeError
         end) (fun image =>
    Ok (VObj (Js.set "image" image (Js.set "media" media copy))))))).

Definition saveAllEvents (events : value) : M unit :=
  try_catch
    (initDB ;;;
     IDB.transaction ;;;
     IDB.clear ;;;
     items <- lift (Js.iterate events) ;;
     for_each IDB.put items ;;;
     lightweightEvents <- lift (Js.array_map lightweight events) ;;
     LocalStorage.setItem (JSON_stringify (VArr lightweightEvents)))
    (fun e => throw e).

(** ** [deleteEvent] *)

Definition deleteEvent (eventId : string) : M unit :=
  try_catch
    (initDB ;;; IDB.transaction ;;; ret tt)
    (fun e => throw e) ;;;
  IDB.delete (KStr eventId).

(** ** [migrateFromLocalStorage] *)

Definition migrateFromLocalStorage : M unit :=
  try_catch
    (stored <- LocalStorage.getItem ;;
     if truthy_text stored then
       events <- lift (JSON_parse (default (NotJson "") stored)) ;;
       saveAllEvents events
     else ret tt)
    (fun _ => ret tt).

(** ** The remote API, as seen through [fetch] *)

Inductive fetch_result : Type :=
  | NetworkError                            (* [fetch] rejects *)
  | Response (ok : bool) (body : option value).
      (* a response; [body] is what [response.json()] parses, [None] when
         the body is not JSON *)

Definition fetch (r : fetch_result) : M (bool * option value) :=
  match r with
  | NetworkError => throw NetworkFailure
  | Response ok body => ret (ok, body)
  end.

Definition response_json (body : option value) : M value :=
  match body with
  | Some v => ret v
  | None => throw SyntaxError
  end.

(** the remote call did not succeed: no response, or one that is not 2xx *)
Definition remote_failed (r : fetch_result) : Prop :=
  match r with
  | NetworkError => True
  | Response ok _ => ok = false
  end.

(** ** [syncEventsWithSupabase] *)

Definition syncEventsWithSupabase (r : fetch_result) : M value :=
  try_catch
    (response <- fetch r ;;
     if negb response.1 then getAllEvents
     else
       data <- response_json response.2 ;;
       events <- lift (Js.get data "events") ;;
       let supabaseEvents := if Js.truthy events then events else VArr [] in
       saveAllEvents supabaseEvents ;;;
       ret supabaseEvents)
    (fun _ => getAllEvents).

(** ** [createEventWithSync] *)

Module Crypto.

Definition hex_lower (n : N) : ascii :=
  if (n <? 10)%N then ascii_of_N (48 + n) else ascii_of_N (87 + n).

(** the lowest [digits] hexadecimal digits of [n] *)
Fixpoint hex_field (digits : nat) (n : N) : string :=
  match digits with
  | O => ""
  | S d => String (hex_lower ((n / 16 ^ N.of_nat d) mod 16)) (hex_field d n)
  end.

(** [crypto.randomUUID()]: a version 4 UUID printed from the random
    bits [r] *)
Definition randomUUID (r : N) : string :=
  hex_field 8 (r / 16 ^ 24) +:+ "-" +:+
  hex_field 4 (r / 16 ^ 20) +:+ "-4" +:+
  hex_field 3 (r / 16 ^ 17) +:+ "-" +:+
  String (hex_lower (8 + (r / 16 ^ 16) mod 4)) (hex_field 3 (r / 16 ^ 13))
    +:+ "-" +:+
  hex_field 12 r.

End Crypto.

(** what the call reads from its surroundings: the random bits behind
    [crypto.randomUUID()] and the text of [new Date().toISOString()] *)
Record ambient : Type := {
  entropy : N;
  clock : string;
}.

(** [{ id, createdAt: now, updatedAt: now, ...eventData }] *)
Definition local_event (id now : string) (eventData : value) : value :=
  VObj (Js.spread [("id", VStr id); ("createdAt", VStr now);
                   ("updatedAt", VStr now)] eventData).

(** [saveAllEvents([...allEvents, event])] *)
Definition save_appended (allEvents event : value) : M unit :=
  items <- lift (Js.iterate allEvents) ;;
  saveAllEvents (VArr (items ++ [event])%list).

Definition create_fallback (env : ambient) (eventData : value) : M value :=
  let id := Crypto.randomUUID (entropy env) in
  let now := clock env in
  let event := local_event id now eventData in
  allEvents <- getAllEvents ;;
  save_appended allEvents event ;;;
  ret event.

Definition createEventWithSync (env : ambient) (r : fetch_result)
    (eventData : value) : M value :=
  try_catch
    (response <- fetch r ;;
     (if negb response.1 then throw ServerFailure else ret tt) ;;;
     result <- response_json response.2 ;;
     newEvent <- lift (Js.get result "event") ;;
     allEvents <- getAllEvents ;;
     save_appended allEvents newEvent ;;;
     ret newEvent)
    (fun _ => create_fallback env eventData).

(** ** [deleteEventWithSync] *)

Definition deleteEventWithSync (r : fetch_result) (eventId : string)
  : M unit :=
  try_catch
    (response <- fetch r ;;
     (if negb response.1 then throw ServerFailure else ret tt) ;;;
     deleteEvent eventId)
    (fun _ => deleteEvent eventId).

(** * Further functions: the rest of the storage module, and its callers *)

(** ** [getResponsiveImageUrls] and [getImageSrcSet] *)

(** the object [getResponsiveImageUrls] returns; [original] is absent from
    the object returned for a missing url *)
Record responsive_urls : Type := {
  thumbnail : string;
  mobile : string;
  tablet : string;
  desktop : string;
  original : option string;
}.

Definition thumbnail_options : ImageTransformOptions :=
  {| width := Some 150; height := Some 150; quality := Some 75;
     format := Some webp; resize := Some cover |}.
Definition mobile_options : ImageTransformOptions :=
  {| width := Some 640; height := None; quality := Some 80;
     format := Some webp; resize := None |}.
Definition tablet_options : ImageTransformOptions :=
  {| width := Some 1024; height := None; quality := Some 85;
     format := Some webp; resize := None |}.
Definition desktop_options : ImageTransformOptions :=
  {| width := Some 1920; height := None; quality := Some 85;
     format := Some webp; resize := None |}.

(** [!url] on [string | undefined] *)
Definition missing_url (url : option string) : bool :=
  match url with
  | None => true
  | Some u => String.eqb u ""
  end.

Definition getResponsiveImageUrls (url : option string)
  : outcome responsive_urls :=
  if missing_url url then
    Ok {| mobile := ""; tablet := ""; desktop := ""; thumbnail := "";
          original := None |}
  else
    obind (getOptimizedImageUrl url thumbnail_options) (fun t =>
    obind (getOptimizedImageUrl url mobile_options) (fun m =>
    obind (getOptimizedImageUrl url tablet_options) (fun tb =>
    obind (getOptimizedImageUrl url desktop_options) (fun d =>
      Ok {| thumbnail := t; mobile := m; tablet := tb; desktop := d;
            original := url |})))).

Definition getImageSrcSet (url : option string) : outcome string :=
  match url with
  | None => Ok ""
  | Some u =>
      if String.eqb u "" then Ok ""
      else
        let isSupabaseUrl := Str.includes supabase_marker u in
        let isDataUrl := Str.startsWith "data:" u in
        if negb isSupabaseUrl || isDataUrl then Ok ""
        else
          obind (getResponsiveImageUrls url) (fun urls =>
            Ok (mobile urls +:+ " 640w, " +:+ tablet urls +:+ " 1024w, "
                +:+ desktop urls +:+ " 1920w"))
  end.

(** ** [clearEventsBrowserCache] *)

(** [localStorage.removeItem('churchEvents')] *)
Definition localStorage_removeItem : M unit :=
  fun st => (Ok tt, with_churchEvents None st).

(** The transaction is opened inside the executor of the awaited promise:
    what it throws rejects the promise and is caught with the rest. *)
Definition clearEventsBrowserCache : M unit :=
  try_catch
    (initDB ;;; IDB.transaction ;;; IDB.clear)
    (fun _ => ret tt) ;;;
  localStorage_removeItem.

(** ** [updateEventWithSync] *)

(** [e.id === eventId], with [eventId] a string *)
Definition has_id (eventId : string) (e : value) : outcome bool :=
  obind (Js.get e "id") (fun v =>
    Ok (match v with VStr s => String.eqb s eventId | _ => false end)).

(** [allEvents.map(e => e.id === eventId ? replacement(e) : e)] *)
Definition replace_by_id (eventId : string) (replacement : value -> value)
    (allEvents : value) : outcome (list value) :=
  Js.array_map
    (fun e => obind (has_id eventId e)
                (fun b => Ok (if b then replacement e else e)))
    allEvents.

(** [{ ...e, ...eventData, updatedAt: new Date().toISOString() }]; the
    clock is read once per call *)
Definition merged_event (now : string) (eventData e : value) : value :=
  VObj (Js.set "updatedAt" (VStr now)
          (Js.spread (Js.spread [] e) eventData)).

(** [updatedEvents.find(e => e.id === eventId)] *)
Fixpoint find_by_id (eventId : string) (l : list value) : outcome value :=
  match l with
  | [] => Ok VUndef
  | e :: l' =>
      obind (has_id eventId e) (fun b =>
        if b then Ok e else find_by_id eventId l')
  end.

Definition update_fallback (env : ambient) (eventId : string)
    (eventData : value) : M value :=
  allEvents <- getAllEvents ;;
  updatedEvents <-
    lift (replace_by_id eventId (merged_event (clock env) eventData)
            allEvents) ;;
  saveAllEvents (VArr updatedEvents) ;;;
  lift (find_by_id eventId updatedEvents).

Definition updateEventWithSync (env : ambient) (r : fetch_result)
    (eventId : string) (eventData : value) : M value :=
  try_catch
    (response <- fetch r ;;
     (if negb response.1 then throw ServerFailure else ret tt) ;;;
     result <- response_json response.2 ;;
     updatedEvent <- lift (Js.get result "event") ;;
     allEvents <- getAllEvents ;;
     updatedEvents <-
       lift (replace_by_id eventId (fun _ => updatedEvent) allEvents) ;;
     saveAllEvents (VArr updatedEvents) ;;;
     ret updatedEvent)
    (fun _ => update_fallback env eventId eventData).

(** ** [getVideoEmbedUrl] (EventsPage.tsx) *)

(** [`${v}`] for a string that may be [undefined] *)
Definition template_text (v : option string) : string :=
  default "undefined" v.

(** [url.split(sep)[1]?.split(stop)[0]] *)
Definition part_after (sep stop url : string) : option string :=
  match Str.split sep url !! 1%nat with
  | Some p => Str.split stop p !! 0%nat
  | None => None
  end.

Definition getVideoEmbedUrl (url : string) : string :=
  if Str.startsWith "data:video" url then url
  else if Str.includes "youtube.com" url || Str.includes "youtu.be" url then
    let videoId :=
      if Str.includes "youtu.be" url
      then part_after "youtu.be/" "?" url
      else part_after "v=" "&" url in
    "https://www.youtube.com/embed/" +:+ template_text videoId
  else if Str.includes "vimeo.com" url then
    let videoId := part_after "vimeo.com/" "?" url in
    "https://player.vimeo.com/video/" +:+ template_text videoId
  else url.

(** ** The admin page's handlers (AdminEventsPage.tsx)

    What the handlers do to the browser's storage.  The toasts, the
    component state and the [localStorageUpdate] event they dispatch do
    not touch it and are left out; the answer to [window.confirm] is the
    argument [confirmed]. *)

Definition fetchEvents : M unit :=
  try_catch (getAllEvents ;;; ret tt) (fun _ => ret tt).

(** [e.id !== id] *)
Definition other_id (id : string) (e : value) : outcome bool :=
  obind (has_id id e) (fun b => Ok (negb b)).

(** [existingEvents.filter(e => e.id !== id)]: only an array has
    [filter] *)
Definition without_id (id : string) (existingEvents : value)
  : outcome (list value) :=
  match existingEvents with
  | VArr xs => Js.filter (other_id id) xs
  | _ => Throw TypeError
  end.

Definition handleDeleteEvent (confirmed : bool) (id : string) : M unit :=
  if negb confirmed then ret tt
  else
    try_catch
      (existingEvents <- getAllEvents ;;
       updatedEvents <- lift (without_id id existingEvents) ;;
       saveAllEvents (VArr updatedEvents) ;;;
       fetchEvents)
      (fun _ => ret tt).

(** the map of [clearAllMedia] is the one [saveAllEvents] applies for the
    legacy cache: [lightweight] *)
Definition clearAllMedia (confirmed : bool) : M unit :=
  if negb confirmed then ret tt
  else
    try_catch
      (events <- getAllEvents ;;
       cleanedEvents <- lift (Js.array_map lightweight events) ;;
       saveAllEvents (VArr cleanedEvents) ;;;
       fetchEvents)
      (fun _ => ret tt).

(** ** Notions used in the statements *)

(** IndexedDB does what it is asked: no fault is pending. *)
Definition healthy (st : browser) : Prop := fault st = None.

(** the requests of [for (const event of events) store.put(event)] on the
    store alone: they stop at the first value without a valid key *)
Fixpoint put_all (items : list value) (m : gmap idb_key value)
  : outcome unit * gmap idb_key value :=
  match items with
  | [] => (Ok tt, m)
  | v :: items' =>
      match IDB.key_of v with
      | Some k => put_all items' (<[k := v]> m)
      | None => (Throw DataError, m)
      end
  end.

(** IndexedDB serves the next transaction: nothing is broken, or only
    [open] is while the handle is already there. *)
Definition operational (st : browser) : bool :=
  match fault st with
  | None => true
  | Some OpenFails => db st
  | Some _ => false
  end.

(** what [saveAllEvents events] does once the store is open and cleared *)
Definition save_cleared (events : value) (st1 : browser)
  : outcome unit * browser :=
  match Js.iterate events with
  | Throw e => (Throw e, with_store ∅ st1)
  | Ok items =>
      match put_all items ∅ with
      | (Throw e, m) => (Throw e, with_store m st1)
      | (Ok _, m) =>
          match Js.array_map lightweight events with
          | Throw e => (Throw e, with_store m st1)
          | Ok lw =>
              if quota_exceeded st1
              then (Throw QuotaExceededError, with_store m st1)
              else (Ok tt, with_churchEvents
                             (Some (JSON_stringify (VArr lw)))
                             (with_store m st1))
          end
      end
  end.

(** a record [saveAllEvents] accepts: it has a valid key, and its [media]
    and [image] fields let the stripped copy be built *)
Definition storable (v : value) : bool :=
  match IDB.key_of v with
  | Some _ => is_ok (lightweight v)
  | None => false
  end.

(** the fields a locally created record is expected to have: a non-empty
    id, and both timestamps equal to the clock reading of the call *)
Definition required_fields (env : ambient) (ev : value) : Prop :=
  (∃ id, Js.get ev "id" = Ok (VStr id) ∧ id ≠ "")
  ∧ Js.get ev "createdAt" = Ok (VStr (clock env))
  ∧ Js.get ev "updatedAt" = Ok (VStr (clock env)).

(** [eventData] has no own property named [k] *)
Definition lacks (eventData : value) (k : string) : Prop :=
  Js.lookup k (Js.own_props eventData) = None.

(** the cover image of [e] is an embedded ([data:]) image *)
Definition embedded_cover (e : value) : bool :=
  match Js.get e "image" with
  | Ok (VStr s) => Str.startsWith "data:" s
  | _ => false
  end.

(** the url of media item [m] is an embedded ([data:]) one *)
Definition embedded_url (m : value) : bool :=
  match Js.get m "url" with
  | Ok (VStr s) => Str.startsWith "data:" s
  | _ => false
  end.

(** some media item of [e] is embedded *)
Definition embedded_media (e : value) : bool :=
  match Js.get e "media" with
  | Ok (VArr items) => existsb embedded_url items
  | _ => false
  end.

(** an array element as JSON carries it *)
Definition json_elem (x : value) : value :=
  match x with VUndef => VNull | _ => Js.to_json x end.

(** the properties of an object as JSON carries them *)
Fixpoint json_props (ps : list (string * value)) : list (string * value) :=
  match ps with
  | [] => []
  | (k, VUndef) :: ps' => json_props ps'
  | (k, x) :: ps' => (k, Js.to_json x) :: json_props ps'
  end.

(** [e'] is the copy of [e] that the legacy cache may hold: no embedded
    cover, no embedded media item; the cover of [e], when embedded, has
    become the empty string, and the media items are those of [e] that are
    not embedded. *)
Definition stripped_copy (e e' : value) : Prop :=
  embedded_cover e' = false
  ∧ embedded_media e' = false
  ∧ (embedded_cover e = true → Js.get e' "image" = Ok (VStr ""))
  ∧ (∀ items, Js.get e "media" = Ok (VArr items) →
       Js.get e' "media"
       = Ok (VArr (map json_elem
                     (List.filter (fun m => negb (embedded_url m)) items)))).

(** ** Sample data *)

(** a browser on first visit: nothing opened, nothing stored, no fault *)
Definition fresh_browser : browser := Browser false None ∅ None false.

Definition sample_env : ambient :=
  {| entropy := 211204093117; clock := "2026-01-16T09:30:00.000Z" |}.

(** a record with an embedded cover and one embedded media item *)
Definition easter : value :=
  VObj [("id", VStr "event-1"); ("title", VStr "Easter Service");
        ("date", VStr "2026-04-05");
        ("image", VStr "data:image/png;base64,iVBORw0KGgo=");
        ("media",
         VArr [VObj [("id", VStr "m1"); ("type", VStr "image");
                     ("url", VStr "data:image/jpeg;base64,/9j/4AAQ")];
               VObj [("id", VStr "m2"); ("type", VStr "video");
                     ("url", VStr "https://cdn.example.org/clip.mp4")]])].

(** a record without cover and media *)
Definition picnic : value :=
  VObj [("id", VStr "event-2"); ("title", VStr "Parish Picnic");
        ("date", VStr "2026-06-14")].

(** the stripped copy of [easter], as the legacy cache holds it *)
Definition easter_stripped : value :=
  VObj [("id", VStr "event-1"); ("title", VStr "Easter Service");
        ("date", VStr "2026-04-05"); ("image", VStr "");
        ("media",
         VArr [VObj [("id", VStr "m2"); ("type", VStr "video");
                     ("url", VStr "https://cdn.example.org/clip.mp4")]])].

(** what the admin form passes to [createEventWithSync] *)
Definition form_data : value :=
  VObj [("title", VStr "Harvest Thanksgiving"); ("date", VStr "2026-10-04");
        ("media", VArr [])].

(** event data that carries an id and timestamps of its own *)
Definition overriding_data : value :=
  VObj [("id", VStr ""); ("title", VStr "Harvest Thanksgiving");
        ("createdAt", VStr "2020-01-01T00:00:00.000Z");
        ("updatedAt", VStr "2021-06-01T00:00:00.000Z")].

(** a browser whose legacy cache still holds [easter] with its embedded
    cover and media, as written before the stripped mirror existed *)
Definition legacy_browser : browser :=
  Browser false None ∅ (Some (Json (VArr [easter; picnic]))) false.


(** a browser whose legacy cache holds the stripped mirror *)
Definition mirrored_browser : browser :=
  Browser false None ∅ (Some (Json (VArr [easter_stripped]))) false.

(** the store opens, but its requests end in [onerror] *)
Definition failing_request_browser : browser :=
  Browser true (Some RequestFails) {[ KStr "event-2" := picnic ]}
    (Some (Json (VArr [picnic]))) false.

(** the store does not open, and the legacy item is not JSON *)
Definition corrupt_legacy_browser : browser :=
  Browser false (Some OpenFails) ∅ (Some (NotJson "[{")) false.

(** a working browser that holds [easter] and [picnic] *)
Definition populated_browser : browser :=
  Browser true None {[ KStr "event-1" := easter; KStr "event-2" := picnic ]}
    None false.

(** ** Notions used in the further statements *)

(** the record that a run of puts leaves under key [k]: the last one that
    carries this key, or what was there before *)
Definition latest (k : idb_key) (xs : list value) (before : option value)
  : option value :=
  foldl (fun acc e => if bool_decide (IDB.key_of e = Some k) then Some e
                      else acc) before xs.

(** every record of the store sits under the key found at its ['id'] *)
Definition store_wf (m : gmap idb_key value) : Prop :=
  ∀ k e, m !! k = Some e → IDB.key_of e = Some k.

(** the error with which a broken IndexedDB answers *)
Definition fault_error (f : idb_fault) : error :=
  match f with
  | OpenFails => OpenError
  | TransactionFails => TransactionError
  | RequestFails => RequestError
  end.

(** a browser whose IndexedDB does not open and whose legacy cache holds
    the stripped mirror *)
Definition blocked_browser : browser :=
  Browser false (Some OpenFails) ∅ (Some (Json (VArr [easter_stripped])))
    false.

(** every character of [s] passes the test [P] *)
Definition all_chars (P : ascii → bool) (s : string) : bool :=
  forallb P (list_ascii_of_string s).

(** the characters of a path that [encodeURIComponent] leaves alone, and
    the slash between its segments *)
Definition path_char (c : ascii) : bool :=
  Uri.unreserved c || Ascii.eqb c "/".

(** a character of the ASCII range *)
Definition is_ascii (c : ascii) : bool := (Uri.byte_of c <? 128)%N.

(** the tokens of an encoded string: what [encodeURIComponent] writes for
    one character, read back *)
Definition enc_token (c : ascii) : Uri.token :=
  if Uri.unreserved c then Uri.Lit c else Uri.Esc (Uri.byte_of c).

(** a token read from an ASCII string *)
Definition token_ok (t : Uri.token) : bool :=
  match t with
  | Uri.Lit c => is_ascii c
  | Uri.Esc _ => true
  end.

(** the numbers that [toString()] prints in plain decimal digits, as
    [Str.ofZ] does: the safe integers, below 2^53 in absolute value *)
Definition plain_number (n : option Z) : bool :=
  match n with
  | Some z => Z.abs z <? 2 ^ 53
  | None => true
  end.

Definition plain_numbers (options : ImageTransformOptions) : bool :=
  plain_number (width options) && plain_number (height options)
  && plain_number (quality options).

(** [url?query], or [url] alone when there is no query *)
Definition with_query (transformUrl queryString : string) : string :=
  if String.eqb queryString "" then transformUrl
  else transformUrl +:+ "?" +:+ queryString.

(** * Properties *)

(** ** The image URL transform helper *)

Example transform_sample :
  getOptimizedImageUrl
    (Some "https://X.supabase.co/storage/v1/object/public/my%20b/a b/p%C3%A9.jpg")
    {| width := Some 150; height := Some 150; quality := Some 75;
       format := Some webp; resize := Some cover |}
  = Ok "https://X.supabase.co/storage/v1/render/image/public/my%20b/a%20b/p%C3%A9.jpg?width=150&height=150&quality=75&format=webp&resize=cover".
Proof. vm_compute. reflexivity. Qed.

Example transform_bad_escape :
  getOptimizedImageUrl
    (Some "https://X.supabase.co/storage/v1/object/public/b/100%.jpg") no_options
  = Throw URIError.
Proof. vm_compute. reflexivity. Qed.

(** C7: on the storage URL of the specification, with width 640 and format
    webp, the helper returns the render URL followed by exactly the two
    supplied options, in the order width, format. *)
Theorem getOptimizedImageUrl_render_sample :
  getOptimizedImageUrl
    (Some "https://X.supabase.co/storage/v1/object/public/b/p.jpg")
    {| width := Some 640; height := None; quality := None;
       format := Some webp; resize := None |}
  = Ok "https://X.supabase.co/storage/v1/render/image/public/b/p.jpg?width=640&format=webp".
Proof. vm_compute. reflexivity. Qed.

(** *** The length guard after the marker test never fires *)

Lemma prefix_app_includes (a b s : string) :
  String.prefix (a +:+ b) s = true → Str.includes b s = true.
Proof.
  revert s. induction a as [|c a IH]; intros s.
  - change ("" +:+ b) with b. intros Hp.
    destruct s; cbn [Str.includes]; by rewrite Hp.
  - change (String c a +:+ b) with (String c (a +:+ b)).
    destruct s as [|c' s]; [discriminate|].
    cbn [String.prefix]. destruct (ascii_dec c c'); [|discriminate].
    intros Hp. cbn [Str.includes]. rewrite (IH _ Hp). apply orb_true_r.
Qed.

Lemma includes_app (a b s : string) :
  Str.includes (a +:+ b) s = true → Str.includes b s = true.
Proof.
  induction s as [|c s IH].
  - cbn [Str.includes]. rewrite orb_false_r. apply prefix_app_includes.
  - cbn [Str.includes]. intros [Hp|Hi]%orb_true_iff.
    + apply (prefix_app_includes a b (String c s) Hp).
    + rewrite (IH Hi). apply orb_true_r.
Qed.

Lemma split_go_nonempty (sep : string) (skip : nat) (cur s : string) :
  (1 <= length (Str.split_go sep skip cur s))%nat.
Proof.
  revert skip cur. induction s as [|c s IH]; intros skip cur.
  - cbn. lia.
  - cbn [Str.split_go]. destruct skip; [|apply IH].
    destruct (String.prefix sep (String c s)); [cbn [length]; lia | apply IH].
Qed.

Lemma split_go_two_parts (sep cur s : string) :
  sep ≠ "" → Str.includes sep s = true →
  (2 <= length (Str.split_go sep 0 cur s))%nat.
Proof.
  intros Hsep. revert cur. induction s as [|c s IH]; intros cur.
  - destruct sep; [done | discriminate].
  - cbn [Str.includes Str.split_go].
    destruct (String.prefix sep (String c s)).
    + intros _. cbn [length].
      pose proof (split_go_nonempty sep (String.length sep - 1) "" s). lia.
    + cbn [orb]. apply IH.
Qed.

(** a URL that passes the marker test always splits into at least two
    parts: the length guard that follows the test never fires *)
Lemma marker_splits (url : string) :
  Str.includes supabase_marker url = true →
  (2 <= length (Str.split object_segment url))%nat.
Proof.
  intros Hm. apply split_go_two_parts; [discriminate|].
  apply (includes_app ".supabase.co" object_segment). exact Hm.
Qed.

(** the parameters appended are the supplied options, in the order width,
    height, quality, format, resize *)
Lemma build_params_names (options : ImageTransformOptions) :
  (build_params options).*1
  = List.filter
      (fun name =>
         if String.eqb name "width" then truthy_number (width options)
         else if String.eqb name "height" then truthy_number (height options)
         else if String.eqb name "quality" then truthy_number (quality options)
         else if String.eqb name "format"
              then bool_decide (is_Some (format options))
         else bool_decide (is_Some (resize options)))
      ["width"; "height"; "quality"; "format"; "resize"].
Proof.
  destruct options as [w h q f r]. unfold build_params.
  cbn [width height quality format resize List.filter String.eqb Ascii.eqb
       Bool.eqb].
  destruct (truthy_number w), (truthy_number h), (truthy_number q),
    (bool_decide (is_Some f)), (bool_decide (is_Some r)); reflexivity.
Qed.

(** ** Running the storage primitives *)

(** unfolds one layer of the storage functions and the record
    projections under them *)
Ltac run :=
  unfold getAllEvents, legacy_events, saveAllEvents, deleteEvent,
    migrateFromLocalStorage, try_catch, bind, ret, throw, lift, initDB,
    IDB.transaction, IDB.clear, IDB.delete, IDB.getAll, IDB.request,
    LocalStorage.getItem, LocalStorage.setItem;
  cbn [db fault store churchEvents quota_exceeded
       with_db with_store with_churchEvents fst snd].

Lemma for_each_put (items : list value) (st : browser) :
  fault st ≠ Some RequestFails →
  for_each IDB.put items st
  = ((put_all items (store st)).1, with_store (put_all items (store st)).2 st).
Proof.
  revert st. induction items as [|v items IH]; intros [d f m t q] Hf.
  - reflexivity.
  - cbn [for_each put_all store]. unfold bind, IDB.put.
    destruct (IDB.key_of v) as [k|]; [|reflexivity].
    unfold IDB.request at 1. cbn [fault store] in *.
    assert (for_each IDB.put items (with_store (<[k:=v]> m) (Browser d f m t q))
            = ((put_all items (<[k:=v]> m)).1,
               with_store (put_all items (<[k:=v]> m)).2 (Browser d f m t q)))
      as Hrest by (rewrite IH; [reflexivity | exact Hf]).
    destruct f as [[]|]; try congruence; exact Hrest.
Qed.

Lemma getAllEvents_healthy (st : browser) :
  healthy st →
  getAllEvents st = (Ok (VArr (IDB.records (store st))), with_db true st).
Proof.
  unfold healthy. destruct st as [d f m t q]; cbn [fault]; intros ->.
  run. destruct d; reflexivity.
Qed.

Lemma deleteEvent_healthy (eventId : string) (st : browser) :
  healthy st →
  deleteEvent eventId st
  = (Ok tt, with_store (delete (KStr eventId) (store st)) (with_db true st)).
Proof.
  unfold healthy. destruct st as [d f m t q]; cbn [fault]; intros ->.
  run. destruct d; reflexivity.
Qed.

Lemma saveAllEvents_operational (events : value) (st : browser) :
  operational st = true →
  saveAllEvents events st = save_cleared events (with_db true st).
Proof.
  destruct st as [d f m t q]. unfold operational, save_cleared.
  cbn [fault db quota_exceeded with_db]. intros Hop.
  assert (f ≠ Some RequestFails) as Hf by (destruct f as [[]|]; discriminate).
  assert (initDB (Browser d f m t q) = (Ok tt, Browser true f m t q)) as Hinit.
  { unfold initDB. cbn [db fault with_db store churchEvents quota_exceeded].
    destruct d; [reflexivity|]. destruct f as [[]|]; try reflexivity; discriminate. }
  unfold saveAllEvents, try_catch, bind at 1. rewrite Hinit.
  unfold bind, IDB.transaction, IDB.clear, IDB.request, lift, throw,
    LocalStorage.setItem.
  cbn [fault store with_store db churchEvents quota_exceeded].
  destruct f as [[]|]; try discriminate;
    (cbn [fault store with_store db churchEvents quota_exceeded];
     destruct (Js.iterate events) as [items|e]; [|reflexivity];
     rewrite for_each_put by (cbn [fault]; discriminate);
     cbn [store with_store fst snd db fault churchEvents quota_exceeded];
     destruct (put_all items ∅) as [[[]|e] m']; cbn [fst snd]; [|reflexivity];
     destruct (Js.array_map lightweight events) as [lw|e]; [|reflexivity];
     cbn [quota_exceeded]; destruct q; reflexivity).
Qed.

Lemma saveAllEvents_broken (events : value) (st : browser) :
  operational st = false →
  ∃ e st', saveAllEvents events st = (Throw e, st')
           ∧ store st' = store st
           ∧ churchEvents st' = churchEvents st
           ∧ fault st' = fault st
           ∧ quota_exceeded st' = quota_exceeded st
           ∧ operational st' = false.
Proof.
  destruct st as [d f m t q]. unfold operational. cbn [fault db]. intros Hop.
  destruct f as [[]|]; try discriminate; [subst d| |]; try destruct d;
    run; eauto 10.
Qed.

Lemma save_cleared_frame (events : value) (st1 : browser) :
  let st' := (save_cleared events st1).2 in
  fault st' = fault st1 ∧ quota_exceeded st' = quota_exceeded st1
  ∧ db st' = db st1.
Proof.
  unfold save_cleared. destruct st1 as [d f m t q].
  destruct (Js.iterate events) as [items|e]; [|done].
  destruct (put_all items ∅) as [[[]|e] m']; [|done].
  destruct (Js.array_map lightweight events) as [lw|e]; [|done].
  cbn [quota_exceeded]. destruct q; done.
Qed.

(** ** The Local Structured Store *)

Lemma records_insert (m : gmap idb_key value) (k : idb_key) (v : value) :
  m !! k = None → IDB.records (<[k := v]> m) ≡ₚ v :: IDB.records m.
Proof.
  intros Hk. unfold IDB.records.
  rewrite (map_to_list_insert m k v Hk). reflexivity.
Qed.

Lemma put_all_fresh (S : list value) (m : gmap idb_key value) :
  Forall (fun e => is_Some (IDB.key_of e)) S →
  NoDup (IDB.key_of <$> S) →
  (∀ e k, e ∈ S → IDB.key_of e = Some k → m !! k = None) →
  ∃ m', put_all S m = (Ok tt, m') ∧ IDB.records m' ≡ₚ IDB.records m ++ S.
Proof.
  revert m. induction S as [|e S IH]; intros m Hkeys Hnodup Hfresh.
  - exists m. split; [reflexivity|]. by rewrite app_nil_r.
  - apply Forall_cons in Hkeys as [[k Hk] Hkeys].
    rewrite fmap_cons in Hnodup. apply NoDup_cons in Hnodup as [Hnotin Hnodup].
    cbn [put_all]. rewrite Hk.
    destruct (IH (<[k := e]> m) Hkeys Hnodup) as (m' & Hput & Hperm).
    + intros e' k' Hin Hk'. rewrite lookup_insert_ne.
      * apply (Hfresh e' k'); [by right | exact Hk'].
      * intros ->. apply Hnotin. rewrite Hk, <- Hk'.
        by apply list_elem_of_fmap_2.
    + exists m'. split; [exact Hput|].
      rewrite Hperm, records_insert.
      * cbn [app]. apply Permutation_middle.
      * apply (Hfresh e k); [by left | exact Hk].
Qed.

(** C1: on a working store, after [saveAllEvents(S)] for records [S] with
    valid and pairwise distinct ids, [getAllEvents()] returns the records of
    [S], each once, in some order. *)
Theorem saveAllEvents_then_getAllEvents (S : list value) (st : browser) :
  healthy st →
  Forall (fun e => is_Some (IDB.key_of e)) S →
  NoDup (IDB.key_of <$> S) →
  ∃ l, (getAllEvents (saveAllEvents (VArr S) st).2).1 = Ok (VArr l)
       ∧ l ≡ₚ S.
Proof.
  intros Hst Hkeys Hnodup.
  destruct (put_all_fresh S ∅ Hkeys Hnodup) as (m' & Hput & Hperm).
  { intros. apply lookup_empty. }
  assert (operational st = true) as Hop by (unfold operational; by rewrite Hst).
  rewrite (saveAllEvents_operational _ _ Hop).
  pose proof (save_cleared_frame (VArr S) (with_db true st)) as (Hf & _ & _).
  assert (store (save_cleared (VArr S) (with_db true st)).2 = m') as Hstore.
  { unfold save_cleared. cbn [Js.iterate]. rewrite Hput.
    destruct (Js.array_map lightweight (VArr S)); [|by destruct st].
    destruct st as [d f m t q]; cbn [quota_exceeded with_db]. by destruct q. }
  rewrite getAllEvents_healthy.
  - exists (IDB.records m'). cbn [fst]. rewrite Hstore. split; [reflexivity|].
    rewrite Hperm. unfold IDB.records. by rewrite map_to_list_empty.
  - unfold healthy. rewrite Hf. by destruct st.
Qed.

Lemma saveAllEvents_then_getAllEvents_witness :
  ∃ l, (getAllEvents (saveAllEvents (VArr [easter; picnic]) fresh_browser).2).1
       = Ok (VArr l)
       ∧ l ≡ₚ [easter; picnic].
Proof.
  apply saveAllEvents_then_getAllEvents.
  - reflexivity.
  - repeat constructor; by eexists.
  - refine (bool_decide_unpack _ _). vm_compute. exact I.
Defined.

(** ** Objects and their JSON form *)

Lemma to_json_obj (ps : list (string * value)) :
  Js.to_json (VObj ps) = VObj (json_props ps).
Proof.
  induction ps as [|[k v] ps IH]; reflexivity.
Qed.

Lemma to_json_arr (xs : list value) :
  Js.to_json (VArr xs) = VArr (map json_elem xs).
Proof. reflexivity. Qed.

Lemma lookup_json_props (k : string) (v : value) (ps : list (string * value)) :
  Js.lookup k ps = Some v → v ≠ VUndef →
  Js.lookup k (json_props ps) = Some (Js.to_json v).
Proof.
  intros Hk Hv. induction ps as [|[k' v'] ps IH]; [discriminate|].
  cbn [Js.lookup] in Hk. destruct (String.eqb k k') eqn:Heq.
  - injection Hk as ->.
    destruct v; try congruence; cbn [json_props Js.lookup]; by rewrite Heq.
  - destruct v'; cbn [json_props Js.lookup]; rewrite ?Heq; by apply IH.
Qed.

Lemma lookup_json_props_None (k : string) (ps : list (string * value)) :
  Js.lookup k ps = None → Js.lookup k (json_props ps) = None.
Proof.
  induction ps as [|[k' v'] ps IH]; [reflexivity|].
  cbn [Js.lookup]. destruct (String.eqb k k') eqn:Heq; [discriminate|].
  intros Hk. destruct v'; cbn [json_props Js.lookup]; rewrite ?Heq; by apply IH.
Qed.

Lemma lookup_None_keys (k : string) (ps : list (string * value)) :
  k ∉ ps.*1 → Js.lookup k ps = None.
Proof.
  induction ps as [|[k' v'] ps IH]; [reflexivity|].
  rewrite fmap_cons, not_elem_of_cons. cbn [fst Js.lookup]. intros [Hne Hnotin].
  destruct (String.eqb_spec k k'); [done | by apply IH].
Qed.

Lemma lookup_json_props_undef (k : string) (ps : list (string * value)) :
  NoDup ps.*1 → Js.lookup k ps = Some VUndef →
  Js.lookup k (json_props ps) = None.
Proof.
  induction ps as [|[k' v'] ps IH]; [discriminate|].
  rewrite fmap_cons, NoDup_cons. cbn [fst Js.lookup]. intros [Hnotin Hnodup].
  destruct (String.eqb_spec k k') as [->|Hne].
  - intros [= ->]. cbn [json_props].
    by apply lookup_json_props_None, lookup_None_keys.
  - intros Hk. apply String.eqb_neq in Hne.
    destruct v'; cbn [json_props Js.lookup]; rewrite ?Hne; by apply IH.
Qed.

Lemma lookup_set_eq (k : string) (v : value) (ps : list (string * value)) :
  Js.lookup k (Js.set k v ps) = Some v.
Proof.
  induction ps as [|[k' v'] ps IH]; cbn [Js.set Js.lookup].
  - by rewrite String.eqb_refl.
  - destruct (String.eqb k k') eqn:Heq; cbn [Js.lookup].
    + by rewrite String.eqb_refl.
    + by rewrite Heq.
Qed.

Lemma lookup_set_ne (k k' : string) (v : value) (ps : list (string * value)) :
  k ≠ k' → Js.lookup k' (Js.set k v ps) = Js.lookup k' ps.
Proof.
  intros Hne. induction ps as [|[k0 v0] ps IH]; cbn [Js.set Js.lookup].
  - destruct (String.eqb_spec k' k); [congruence | reflexivity].
  - destruct (String.eqb_spec k k0) as [->|Hk0]; cbn [Js.lookup].
    + destruct (String.eqb_spec k' k0); [congruence | reflexivity].
    + by rewrite IH.
Qed.

Lemma set_keys (k : string) (v : value) (ps : list (string * value)) :
  (Js.set k v ps).*1 = if bool_decide (k ∈ ps.*1) then ps.*1 else (ps.*1 ++ [k])%list.
Proof.
  induction ps as [|[k' v'] ps IH]; [reflexivity|].
  cbn [Js.set]. destruct (String.eqb_spec k k') as [->|Hne].
  - rewrite bool_decide_eq_true_2; [reflexivity | by left].
  - rewrite !fmap_cons, IH. cbn [fst].
    destruct (decide (k ∈ ps.*1)) as [Hin|Hin].
    + rewrite !bool_decide_eq_true_2; [reflexivity | by right | done].
    + rewrite !bool_decide_eq_false_2; [reflexivity | | done].
      rewrite not_elem_of_cons. done.
Qed.

Lemma set_NoDup (k : string) (v : value) (ps : list (string * value)) :
  NoDup ps.*1 → NoDup (Js.set k v ps).*1.
Proof.
  intros Hnodup. rewrite set_keys. case_bool_decide as Hin; [done|].
  apply NoDup_app. split_and!; [done | | apply NoDup_singleton].
  intros x Hx ->%list_elem_of_singleton. done.
Qed.

Lemma spread_NoDup (target : list (string * value)) (v : value) :
  NoDup target.*1 → NoDup (Js.spread target v).*1.
Proof.
  unfold Js.spread. generalize (Js.own_props v) as ps.
  intros ps. revert target.
  induction ps as [|[k x] ps IH]; intros target Hnodup; [done|].
  cbn [foldl]. by apply IH, set_NoDup.
Qed.

(** ** The stripped copy written to the Legacy Flat Cache *)

Lemma keep_media_spec (m : value) (b : bool) :
  keep_media m = Ok b →
  b = negb (embedded_url m)
  ∧ (b = true → ∃ ps s, m = VObj ps ∧ Js.lookup "url" ps = Some (VStr s)
                        ∧ Str.startsWith "data:" s = false).
Proof.
  unfold keep_media, embedded_url.
  destruct m as [| | | | |xs|ps]; cbn [Js.get obind]; try discriminate.
  destruct (Js.lookup "url" ps) as [[| | | |s| |]|] eqn:Hurl;
    cbn [default]; try discriminate.
  intros [= <-]. split; [reflexivity|].
  intros Hb. exists ps, s. split_and!; [reflexivity | exact Hurl |].
  by apply negb_true_iff.
Qed.

Lemma filter_keep_media (items kept : list value) :
  Js.filter keep_media items = Ok kept →
  kept = List.filter (fun m => negb (embedded_url m)) items
  ∧ Forall (fun m => embedded_url (json_elem m) = false) kept.
Proof.
  revert kept. induction items as [|m items IH]; intros kept.
  - intros [= <-]. split; [reflexivity | constructor].
  - cbn [Js.filter List.filter].
    destruct (keep_media m) as [b|] eqn:Hm; cbn [obind]; [|discriminate].
    destruct (Js.filter keep_media items) as [ys|]; cbn [obind]; [|discriminate].
    intros [= <-]. destruct (IH ys eq_refl) as [-> Hall].
    apply keep_media_spec in Hm as [-> Hkept].
    destruct (negb (embedded_url m)) eqn:Hb; [|done].
    split; [reflexivity|]. constructor; [|exact Hall].
    destruct (Hkept eq_refl) as (ps & s & -> & Hurl & Hs).
    unfold embedded_url, json_elem. rewrite to_json_obj. cbn [Js.get].
    rewrite (lookup_json_props _ _ _ Hurl); [|done]. exact Hs.
Qed.

Lemma lightweight_stripped (e e' : value) :
  lightweight e = Ok e' → stripped_copy e (json_elem e').
Proof.
  unfold lightweight.
  pose proof (spread_NoDup [] e (NoDup_nil_2)) as Hcopy.
  set (copy := Js.spread [] e) in *.
  destruct (Js.get e "media") as [media0|] eqn:Hmedia0; cbn [obind];
    [|discriminate].
  destruct (match media0 with
            | VUndef | VNull => Ok (VArr [])
            | VArr items =>
                obind (Js.filter keep_media items) (fun l => Ok (VArr l))
            | _ => Throw TypeError
            end) as [media|] eqn:Hmedia; cbn [obind]; [|discriminate].
  destruct (Js.get e "image") as [image0|] eqn:Himage0; cbn [obind];
    [|discriminate].
  destruct (match image0 with
            | VUndef | VNull => Ok image0
            | VStr s => Ok (if Str.startsWith "data:" s then VStr "" else image0)
            | _ => Throw TypeError
            end) as [image|] eqn:Himage; cbn [obind]; [|discriminate].
  intros [= <-]. unfold json_elem. rewrite to_json_obj.
  set (ps := Js.set "image" image (Js.set "media" media copy)).
  assert (NoDup ps.*1) as Hps by (by apply set_NoDup, set_NoDup).
  assert (Js.lookup "image" ps = Some image) as Hi by apply lookup_set_eq.
  assert (Js.lookup "media" ps = Some media) as Hm.
  { unfold ps. rewrite lookup_set_ne by done. apply lookup_set_eq. }
  (* the media property of the copy *)
  assert (∃ kept, media = VArr kept
            ∧ Forall (fun m => embedded_url (json_elem m) = false) kept
            ∧ ∀ items, media0 = VArr items →
                kept = List.filter (fun m => negb (embedded_url m)) items)
    as (kept & -> & Hkept & Hitems).
  { destruct media0 as [| | | | |items|]; try discriminate.
    - injection Hmedia as <-. exists []. split_and!; [done | constructor | done].
    - injection Hmedia as <-. exists []. split_and!; [done | constructor | done].
    - destruct (Js.filter keep_media items) as [l|] eqn:Hl; [|discriminate].
      injection Hmedia as <-. apply filter_keep_media in Hl as [-> Hall].
      eexists. split_and!; [done | exact Hall |].
      by intros ? [= <-]. }
  assert (Js.lookup "media" (json_props ps) = Some (VArr (map json_elem kept)))
    as Hm'.
  { rewrite (lookup_json_props _ _ _ Hm); done. }
  unfold stripped_copy, embedded_cover, embedded_media. cbn [Js.get].
  rewrite Hm'. cbn [default from_option id]. split_and!.
  - destruct image0 as [| | | |s| |]; try discriminate; injection Himage as <-.
    + by rewrite (lookup_json_props_undef _ _ Hps Hi).
    + by rewrite (lookup_json_props _ _ _ Hi).
    + destruct (Str.startsWith "data:" s) eqn:Hs;
        rewrite (lookup_json_props _ _ _ Hi) by done;
        cbn [Js.to_json default from_option id];
        [reflexivity | exact Hs].
  - clear -Hkept. induction Hkept as [|m kept Hmk _ IH]; [reflexivity|].
    cbn [map existsb]. by rewrite Hmk, IH.
  - rewrite Himage0. destruct image0 as [| | | |s| |]; try discriminate.
    intros Hs. rewrite Hs in Himage. injection Himage as <-.
    by rewrite (lookup_json_props _ _ _ Hi).
  - intros items. rewrite Hmedia0. intros [= ->].
    by rewrite (Hitems items eq_refl).
Qed.


Lemma saveAllEvents_cache (events : value) (st : browser) :
  match saveAllEvents events st with
  | (Ok _, st') =>
      ∃ xs lw,
        events = VArr xs
        ∧ try_map lightweight xs = Ok lw
        ∧ churchEvents st' = Some (Json (VArr (map json_elem lw)))
  | (Throw _, st') => churchEvents st' = churchEvents st
  end.
Proof.
  destruct (operational st) eqn:Hop.
  - rewrite (saveAllEvents_operational _ _ Hop). unfold save_cleared.
    destruct (Js.iterate events) as [items|]; [|by destruct st].
    destruct (put_all items ∅) as [[[]|] m]; [|by destruct st].
    destruct (Js.array_map lightweight events) as [lw|] eqn:Hlw;
      [|by destruct st].
    destruct (quota_exceeded (with_db true st)); [by destruct st|].
    destruct events as [| | | | |xs|]; try discriminate.
    exists xs, lw. split_and!; [done | exact Hlw | by destruct st].
  - destruct (saveAllEvents_broken events st Hop) as (e & st' & -> & _ & Ht & _).
    exact Ht.
Qed.

Lemma put_all_keys (xs : list value) (m : gmap idb_key value) :
  Forall (fun v => is_Some (IDB.key_of v)) xs →
  ∃ m', put_all xs m = (Ok tt, m').
Proof.
  revert m. induction xs as [|x xs IH]; intros m Hall; [by eexists|].
  apply Forall_cons in Hall as [[k Hk] Hall].
  cbn [put_all]. rewrite Hk. by apply IH.
Qed.

Lemma try_map_total {A B} (f : A → outcome B) (xs : list A) :
  Forall (fun x => is_ok (f x) = true) xs → ∃ l, try_map f xs = Ok l.
Proof.
  induction 1 as [|x xs Hx _ [l IH]]; [by eexists|].
  cbn [try_map]. destruct (f x); [|discriminate]. rewrite IH.
  cbn [obind]. by eexists.
Qed.

Lemma saveAllEvents_succeeds (xs : list value) (st : browser) :
  healthy st →
  quota_exceeded st = false →
  Forall (fun v => storable v = true) xs →
  ∃ m lw, put_all xs ∅ = (Ok tt, m)
          ∧ try_map lightweight xs = Ok lw
          ∧ saveAllEvents (VArr xs) st
            = (Ok tt, with_churchEvents (Some (JSON_stringify (VArr lw)))
                        (with_store m (with_db true st))).
Proof.
  intros Hst Hq Hxs.
  destruct (put_all_keys xs ∅) as [m Hput].
  { eapply Forall_impl; [exact Hxs|]. intros v Hv. unfold storable in Hv.
    destruct (IDB.key_of v); [by eexists | discriminate]. }
  destruct (try_map_total lightweight xs) as [lw Hlw].
  { eapply Forall_impl; [exact Hxs|]. intros v Hv. unfold storable in Hv.
    destruct (IDB.key_of v); [exact Hv | discriminate]. }
  exists m, lw. split_and!; [exact Hput | exact Hlw |].
  rewrite saveAllEvents_operational by (unfold operational; by rewrite Hst).
  unfold save_cleared. cbn [Js.iterate Js.array_map]. rewrite Hput, Hlw.
  destruct st as [d f m0 t q]. cbn in Hq. subst q. reflexivity.
Qed.




Example legacy_cache_sample :
  churchEvents (saveAllEvents (VArr [easter]) fresh_browser).2
  = Some (Json (VArr [easter_stripped])).
Proof. vm_compute. reflexivity. Qed.

(** ** The Remote Sync Client *)

(** C3: with a working local store and a remote GET that fails (no
    response, or a response that is not ok), [syncEventsWithSupabase]
    returns what [getAllEvents] returns, namely the records of the store,
    throws nothing and leaves the store as it is. *)
Theorem syncEventsWithSupabase_falls_back (r : fetch_result) (st : browser) :
  healthy st →
  remote_failed r →
  syncEventsWithSupabase r st = getAllEvents st
  ∧ syncEventsWithSupabase r st
    = (Ok (VArr (IDB.records (store st))), with_db true st).
Proof.
  intros Hst Hr.
  assert (syncEventsWithSupabase r st = getAllEvents st) as Heq.
  { unfold syncEventsWithSupabase, try_catch, bind, fetch.
    destruct r as [|ok body]; [reflexivity|].
    cbn in Hr. subst ok. unfold ret. cbn [fst negb].
    rewrite (getAllEvents_healthy st Hst). reflexivity. }
  split; [exact Heq|]. rewrite Heq. by apply getAllEvents_healthy.
Qed.

Lemma syncEventsWithSupabase_falls_back_witness :
  syncEventsWithSupabase (Response false None) populated_browser
  = getAllEvents populated_browser
  ∧ syncEventsWithSupabase (Response false None) populated_browser
    = (Ok (VArr (IDB.records (store populated_browser))),
       with_db true populated_browser).
Proof.
  apply syncEventsWithSupabase_falls_back; reflexivity.
Defined.

(** C4: with a working local store, [deleteEventWithSync(id)] returns and
    the store no longer holds a record under [id], whatever the remote
    DELETE did; every other record stays. *)
Theorem deleteEventWithSync_removes_locally (r : fetch_result)
    (eventId : string) (e : value) (st : browser) :
  healthy st →
  store st !! KStr eventId = Some e →
  ∃ st', deleteEventWithSync r eventId st = (Ok tt, st')
         ∧ store st' !! KStr eventId = None
         ∧ ∀ k, k ≠ KStr eventId → store st' !! k = store st !! k.
Proof.
  intros Hst _.
  exists (with_store (delete (KStr eventId) (store st)) (with_db true st)).
  split_and!.
  - unfold deleteEventWithSync, try_catch, bind, fetch.
    destruct r as [|[] body]; unfold throw, ret; cbn [fst negb];
      by rewrite (deleteEvent_healthy eventId st Hst).
  - destruct st; cbn [store with_store with_db]. apply lookup_delete_eq.
  - intros k Hk. destruct st; cbn [store with_store with_db].
    by apply lookup_delete_ne.
Qed.

Lemma deleteEventWithSync_removes_locally_witness :
  ∃ st', deleteEventWithSync (Response false None) "event-1" populated_browser
         = (Ok tt, st')
         ∧ store st' !! KStr "event-1" = None
         ∧ ∀ k, k ≠ KStr "event-1" →
             store st' !! k = store populated_browser !! k.
Proof.
  apply (deleteEventWithSync_removes_locally _ _ easter).
  - reflexivity.
  - vm_compute. reflexivity.
Defined.

(** ** Local creation *)

Lemma put_all_app (xs ys : list value) (m : gmap idb_key value) :
  put_all (xs ++ ys) m
  = match put_all xs m with
    | (Ok _, m') => put_all ys m'
    | (Throw e, m') => (Throw e, m')
    end.
Proof.
  revert m. induction xs as [|x xs IH]; intros m; [reflexivity|].
  cbn [app put_all]. destruct (IDB.key_of x); [apply IH | reflexivity].
Qed.

Lemma try_map_app {A B} (f : A → outcome B) (xs ys : list A) :
  try_map f (xs ++ ys)
  = obind (try_map f xs) (fun l1 =>
    obind (try_map f ys) (fun l2 => Ok (l1 ++ l2)%list)).
Proof.
  induction xs as [|x xs IH]; cbn [app try_map obind].
  - by destruct (try_map f ys).
  - destruct (f x); cbn [obind]; [|reflexivity].
    rewrite IH. destruct (try_map f xs); cbn [obind]; [|reflexivity].
    by destruct (try_map f ys).
Qed.

Lemma saveAllEvents_Ok_inv (events : value) (st st' : browser) (u : unit) :
  saveAllEvents events st = (Ok u, st') →
  ∃ items, Js.iterate events = Ok items
           ∧ put_all items ∅ = (Ok tt, store st').
Proof.
  destruct (operational st) eqn:Hop.
  - rewrite (saveAllEvents_operational _ _ Hop). unfold save_cleared.
    destruct (Js.iterate events) as [items|]; [|discriminate].
    destruct (put_all items ∅) as [[[]|] m] eqn:Hput; [|discriminate].
    destruct (Js.array_map lightweight events); [|discriminate].
    destruct (quota_exceeded (with_db true st)); [discriminate|].
    destruct u. intros [= <-]. exists items. split; [reflexivity|].
    by destruct st.
  - destruct (saveAllEvents_broken events st Hop) as (e & st1 & -> & _).
    discriminate.
Qed.

Lemma createEventWithSync_remote_failed (env : ambient) (r : fetch_result)
    (eventData : value) (st : browser) :
  remote_failed r →
  createEventWithSync env r eventData st = create_fallback env eventData st.
Proof.
  intros Hr. unfold createEventWithSync, try_catch, bind, fetch.
  destruct r as [|ok body]; [reflexivity|]. cbn in Hr. subst ok. reflexivity.
Qed.

Lemma create_fallback_Ok_inv (env : ambient) (eventData ev : value)
    (st st' : browser) :
  create_fallback env eventData st = (Ok ev, st') →
  ev = local_event (Crypto.randomUUID (entropy env)) (clock env) eventData
  ∧ ∃ key, IDB.key_of ev = Some key ∧ store st' !! key = Some ev.
Proof.
  unfold create_fallback, save_appended, bind, lift, ret.
  destruct (getAllEvents st) as [[allEvents|] st1]; [|discriminate].
  destruct (Js.iterate allEvents) as [items|]; [|discriminate].
  set (event := local_event _ _ _).
  destruct (saveAllEvents _ st1) as [[u|] st2] eqn:Hsave; [|discriminate].
  intros [= <- <-]. split; [reflexivity|].
  apply saveAllEvents_Ok_inv in Hsave as (items' & [= <-] & Hput).
  rewrite put_all_app in Hput.
  destruct (put_all items ∅) as [[[]|] m1]; [|discriminate].
  cbn [put_all] in Hput. destruct (IDB.key_of event) as [k|]; [|discriminate].
  injection Hput as <-. exists k. split; [reflexivity|]. apply lookup_insert_eq.
Qed.

Lemma create_fallback_returns (env : ambient) (eventData : value)
    (st : browser) :
  healthy st →
  quota_exceeded st = false →
  Forall (fun v => storable v = true) (IDB.records (store st)) →
  storable (local_event (Crypto.randomUUID (entropy env)) (clock env)
              eventData) = true →
  ∃ st', create_fallback env eventData st
         = (Ok (local_event (Crypto.randomUUID (entropy env)) (clock env)
                  eventData), st').
Proof.
  intros Hst Hq Hrecords Hevent.
  unfold create_fallback, save_appended, bind, lift, ret.
  rewrite (getAllEvents_healthy st Hst). cbn [Js.iterate].
  set (event := local_event _ _ _) in *.
  set (items := (IDB.records (store st) ++ [event])%list).
  assert (Forall (fun v => storable v = true) items) as Hitems.
  { apply Forall_app. split; [exact Hrecords | by constructor]. }
  destruct (put_all_keys items ∅) as [m Hput].
  { eapply Forall_impl; [exact Hitems|]. intros v Hv. unfold storable in Hv.
    destruct (IDB.key_of v); [by eexists | discriminate]. }
  destruct (try_map_total lightweight items) as [lw Hlw].
  { eapply Forall_impl; [exact Hitems|]. intros v Hv. unfold storable in Hv.
    destruct (IDB.key_of v); [exact Hv | discriminate]. }
  rewrite saveAllEvents_operational
    by (unfold operational; destruct st; cbn in *; by rewrite Hst).
  unfold save_cleared. cbn [Js.iterate Js.array_map]. rewrite Hput, Hlw.
  destruct st as [d f m0 t q]. cbn in Hq. subst q.
  cbn [quota_exceeded with_db]. by eexists.
Qed.

Lemma spread_lookup_absent (target : list (string * value)) (v : value)
    (k : string) :
  lacks v k → Js.lookup k (Js.spread target v) = Js.lookup k target.
Proof.
  unfold lacks, Js.spread. generalize (Js.own_props v) as ps. intros ps.
  revert target. induction ps as [|[k' x] ps IH]; intros target; [done|].
  cbn [Js.lookup foldl fst snd].
  destruct (String.eqb_spec k k') as [->|Hne]; [discriminate|].
  intros Hk. rewrite IH by exact Hk. by apply lookup_set_ne.
Qed.

Lemma spread_lookup (target : list (string * value)) (v : value)
    (k : string) :
  NoDup (Js.own_props v).*1 →
  Js.lookup k (Js.spread target v)
  = match Js.lookup k (Js.own_props v) with
    | Some x => Some x
    | None => Js.lookup k target
    end.
Proof.
  unfold Js.spread. generalize (Js.own_props v) as ps. intros ps.
  revert target. induction ps as [|[k' x] ps IH]; intros target; [done|].
  rewrite fmap_cons, NoDup_cons. cbn [Js.lookup foldl fst snd].
  intros [Hnotin Hnodup]. rewrite IH by exact Hnodup.
  destruct (String.eqb_spec k k') as [->|Hne].
  - rewrite (lookup_None_keys _ _ Hnotin). apply lookup_set_eq.
  - destruct (Js.lookup k ps); [reflexivity|]. by apply lookup_set_ne.
Qed.

Lemma append_length (s1 s2 : string) :
  String.length (s1 +:+ s2) = (String.length s1 + String.length s2)%nat.
Proof.
  induction s1 as [|c s1 IH]; [reflexivity|].
  change (String c s1 +:+ s2) with (String c (s1 +:+ s2)).
  cbn [String.length]. by rewrite IH.
Qed.

Lemma hex_field_length (digits : nat) (n : N) :
  String.length (Crypto.hex_field digits n) = digits.
Proof.
  induction digits as [|d IH]; cbn [Crypto.hex_field String.length];
    congruence.
Qed.

(** the generated id has the 36 characters of a printed UUID *)
Lemma randomUUID_length (r : N) :
  String.length (Crypto.randomUUID r) = 36%nat.
Proof.
  unfold Crypto.randomUUID. rewrite !append_length. cbn [String.length].
  rewrite !hex_field_length. reflexivity.
Qed.

Lemma randomUUID_nonempty (r : N) : Crypto.randomUUID r ≠ "".
Proof. unfold Crypto.randomUUID. discriminate. Qed.

Lemma local_event_absent (id now : string) (eventData : value) (k : string) :
  lacks eventData k →
  Js.get (local_event id now eventData) k
  = Ok (default VUndef
          (Js.lookup k [("id", VStr id); ("createdAt", VStr now);
                        ("updatedAt", VStr now)])).
Proof.
  intros Hk. unfold local_event. cbn [Js.get].
  by rewrite (spread_lookup_absent _ _ _ Hk).
Qed.

Lemma local_event_key (id now : string) (eventData : value) :
  lacks eventData "id" →
  IDB.key_of (local_event id now eventData) = Some (KStr id).
Proof.
  intros Hk. unfold local_event. cbn [IDB.key_of].
  by rewrite (spread_lookup_absent _ _ _ Hk).
Qed.

(** C5, amended: when the remote create fails, the local store works and
    accepts the record, and [eventData] has no property [id], [createdAt]
    or [updatedAt] of its own, [createEventWithSync] returns a record whose
    id is the one [crypto.randomUUID()] generated, which is not empty, and
    whose two timestamps are the clock reading of the call. *)
Theorem createEventWithSync_local_record (env : ambient) (r : fetch_result)
    (eventData : value) (st : browser) :
  remote_failed r →
  healthy st →
  quota_exceeded st = false →
  Forall (fun v => storable v = true) (IDB.records (store st)) →
  is_ok (lightweight (local_event (Crypto.randomUUID (entropy env))
                        (clock env) eventData)) = true →
  lacks eventData "id" →
  lacks eventData "createdAt" →
  lacks eventData "updatedAt" →
  ∃ ev st', createEventWithSync env r eventData st = (Ok ev, st')
            ∧ Js.get ev "id" = Ok (VStr (Crypto.randomUUID (entropy env)))
            ∧ required_fields env ev.
Proof.
  intros Hr Hst Hq Hrecords Hlw Hid Hc Hu.
  rewrite (createEventWithSync_remote_failed _ _ _ _ Hr).
  pose proof (local_event_absent (Crypto.randomUUID (entropy env))
                (clock env) eventData) as Hget.
  destruct (create_fallback_returns env eventData st Hst Hq Hrecords)
    as [st' Hrun].
  { unfold storable. rewrite local_event_key by exact Hid. exact Hlw. }
  eexists _, st'. split; [exact Hrun|].
  split; [by rewrite (Hget _ Hid)|].
  unfold required_fields.
  rewrite (Hget _ Hid), (Hget _ Hc), (Hget _ Hu).
  split_and!; [|reflexivity|reflexivity].
  eexists. split; [reflexivity | apply randomUUID_nonempty].
Qed.

Lemma createEventWithSync_local_record_witness :
  ∃ ev st', createEventWithSync sample_env (Response false None) form_data
              fresh_browser = (Ok ev, st')
            ∧ Js.get ev "id"
              = Ok (VStr (Crypto.randomUUID (entropy sample_env)))
            ∧ required_fields sample_env ev.
Proof.
  apply createEventWithSync_local_record; try reflexivity.
  unfold IDB.records, fresh_browser; cbn [store].
  rewrite map_to_list_empty. constructor.
Defined.

(** C5 as stated fails: with event data that carries an empty [id] and
    timestamps of its own, the record returned after a failed remote create
    has the empty id. *)
Lemma createEventWithSync_local_record_counterexample :
  remote_failed NetworkError
  ∧ ∃ ev st', createEventWithSync sample_env NetworkError overriding_data
                fresh_browser = (Ok ev, st')
              ∧ Js.get ev "id" = Ok (VStr "")
              ∧ Js.get ev "createdAt" ≠ Js.get ev "updatedAt"
              ∧ ¬ required_fields sample_env ev.
Proof.
  split; [exact I|]. eexists _, _. split; [vm_compute; reflexivity|].
  split_and!; [reflexivity | discriminate |].
  intros [(id & Hid & Hne) _]. apply Hne. by injection Hid as <-.
Qed.

(** C10: in the local fallback of [createEventWithSync] the event data is
    spread over the generated fields.  The record returned after a failed
    remote create is that spread: each of [id], [createdAt], [updatedAt] is
    the value [eventData] carries for it and the generated value only when
    [eventData] has no such property; and it is the record the store then
    holds under its key. *)
Theorem createEventWithSync_fallback_spread (env : ambient)
    (r : fetch_result) (eventData ev : value) (st st' : browser) :
  remote_failed r →
  NoDup (Js.own_props eventData).*1 →
  createEventWithSync env r eventData st = (Ok ev, st') →
  ev = local_event (Crypto.randomUUID (entropy env)) (clock env) eventData
  ∧ Js.get ev "id"
    = Ok (default (VStr (Crypto.randomUUID (entropy env)))
            (Js.lookup "id" (Js.own_props eventData)))
  ∧ Js.get ev "createdAt"
    = Ok (default (VStr (clock env))
            (Js.lookup "createdAt" (Js.own_props eventData)))
  ∧ Js.get ev "updatedAt"
    = Ok (default (VStr (clock env))
            (Js.lookup "updatedAt" (Js.own_props eventData)))
  ∧ ∃ key, IDB.key_of ev = Some key ∧ store st' !! key = Some ev.
Proof.
  intros Hr Hnodup Hrun.
  rewrite (createEventWithSync_remote_failed _ _ _ _ Hr) in Hrun.
  apply create_fallback_Ok_inv in Hrun as [-> Hstored].
  split_and!; [reflexivity | | | | exact Hstored];
    unfold local_event; cbn [Js.get]; rewrite (spread_lookup _ _ _ Hnodup);
    cbn [Js.lookup String.eqb Ascii.eqb Bool.eqb];
    by destruct (Js.lookup _ (Js.own_props eventData)).
Qed.

Lemma createEventWithSync_fallback_spread_witness :
  let ev := local_event (Crypto.randomUUID (entropy sample_env))
              (clock sample_env) overriding_data in
  Js.get ev "id" = Ok (VStr "")
  ∧ Js.get ev "createdAt" = Ok (VStr "2020-01-01T00:00:00.000Z")
  ∧ Js.get ev "updatedAt" = Ok (VStr "2021-06-01T00:00:00.000Z")
  ∧ ∃ key, IDB.key_of ev = Some key
           ∧ store (createEventWithSync sample_env NetworkError
                      overriding_data fresh_browser).2 !! key = Some ev.
Proof.
  intros ev.
  destruct (createEventWithSync_fallback_spread sample_env NetworkError
              overriding_data ev
              fresh_browser
              (createEventWithSync sample_env NetworkError overriding_data
                 fresh_browser).2)
    as (_ & Hid & Hc & Hu & Hstored).
  - exact I.
  - refine (bool_decide_unpack _ _). vm_compute. exact I.
  - vm_compute. reflexivity.
  - split_and!; [exact Hid | exact Hc | exact Hu | exact Hstored].
Defined.

(** ** The Migration Routine *)

Lemma migrateFromLocalStorage_run (st : browser) :
  migrateFromLocalStorage st
  = (Ok tt, match churchEvents st with
            | Some (Json events) => (saveAllEvents events st).2
            | _ => st
            end).
Proof.
  unfold migrateFromLocalStorage, try_catch, bind at 1, LocalStorage.getItem.
  destruct (churchEvents st) as [[events|s]|]; cbn [truthy_text default].
  - unfold bind, lift, ret. cbn [from_option id JSON_parse].
    by destruct (saveAllEvents events st) as [[[]|] st'].
  - destruct (String.eqb s ""); reflexivity.
  - reflexivity.
Qed.

Lemma save_cleared_store (events : value) (s1 s2 : browser) :
  store (save_cleared events s1).2 = store (save_cleared events s2).2.
Proof.
  unfold save_cleared.
  destruct (Js.iterate events) as [items|]; [|by destruct s1, s2].
  destruct (put_all items ∅) as [[[]|] m]; [|by destruct s1, s2].
  destruct (Js.array_map lightweight events); [|by destruct s1, s2].
  destruct s1 as [? ? ? ? []], s2 as [? ? ? ? []]; reflexivity.
Qed.

(** saving the same collection again leaves the store as the first save
    left it *)
Lemma saveAllEvents_twice_store (events : value) (st : browser) :
  store (saveAllEvents events (saveAllEvents events st).2).2
  = store (saveAllEvents events st).2.
Proof.
  destruct (operational st) eqn:Hop.
  - rewrite (saveAllEvents_operational _ _ Hop).
    pose proof (save_cleared_frame events (with_db true st)) as (Hf & _ & Hd).
    rewrite saveAllEvents_operational.
    + apply save_cleared_store.
    + unfold operational in *. rewrite Hf, Hd.
      destruct st as [d [[]|] ? ? ?]; done.
  - destruct (saveAllEvents_broken events st Hop)
      as (e & st1 & -> & Hs & _ & _ & _ & Hop1).
    destruct (saveAllEvents_broken events st1 Hop1) as (e' & st2 & H2 & Hs2 & _).
    cbn [snd]. by rewrite H2.
Qed.

(** C6, amended: when the first run of the Migration Routine leaves the
    legacy cache as it found it, a second run leaves the Local Structured
    Store with the contents the first run gave it. *)
Theorem migrateFromLocalStorage_twice (st : browser) :
  churchEvents (migrateFromLocalStorage st).2 = churchEvents st →
  store (migrateFromLocalStorage (migrateFromLocalStorage st).2).2
  = store (migrateFromLocalStorage st).2.
Proof.
  rewrite (migrateFromLocalStorage_run st). cbn [snd]. intros Hcache.
  rewrite migrateFromLocalStorage_run. cbn [snd]. rewrite Hcache.
  destruct (churchEvents st) as [[events|s]|]; try reflexivity.
  apply saveAllEvents_twice_store.
Qed.

Lemma migrateFromLocalStorage_twice_witness :
  store (migrateFromLocalStorage
           (migrateFromLocalStorage mirrored_browser).2).2
  = store (migrateFromLocalStorage mirrored_browser).2.
Proof.
  apply migrateFromLocalStorage_twice. vm_compute. reflexivity.
Defined.

(** C6 as stated fails: from a legacy cache that holds a record with an
    embedded cover, the first run stores the record as it is and the second
    run replaces it by its stripped copy. *)
Lemma migrateFromLocalStorage_twice_counterexample :
  let once := (migrateFromLocalStorage legacy_browser).2 in
  let twice := (migrateFromLocalStorage once).2 in
  store once !! KStr "event-1" = Some easter
  ∧ store twice !! KStr "event-1" = Some easter_stripped
  ∧ store twice ≠ store once.
Proof.
  assert (store (migrateFromLocalStorage legacy_browser).2 !! KStr "event-1"
          = Some easter) as Honce by (vm_compute; reflexivity).
  assert (store (migrateFromLocalStorage
                   (migrateFromLocalStorage legacy_browser).2).2
            !! KStr "event-1" = Some easter_stripped) as Htwice
    by (vm_compute; reflexivity).
  cbv zeta. split_and!; [exact Honce | exact Htwice |].
  intros Heq. rewrite Heq, Honce in Htwice. discriminate.
Qed.


(** *** A cache written by [saveAllEvents] survives migration *)

(** induction over values that reaches inside arrays and objects *)
Lemma value_nested_ind (P : value → Prop) :
  P VUndef → P VNull → (∀ b, P (VBool b)) → (∀ n, P (VNum n)) →
  (∀ s, P (VStr s)) →
  (∀ xs, Forall P xs → P (VArr xs)) →
  (∀ ps, Forall (fun kv => P kv.2) ps → P (VObj ps)) →
  ∀ v, P v.
Proof.
  intros Hundef Hnull Hbool Hnum Hstr Harr Hobj.
  fix IH 1. intros [| |b|n|s|xs|ps].
  - exact Hundef.
  - exact Hnull.
  - apply Hbool.
  - apply Hnum.
  - apply Hstr.
  - apply Harr. induction xs as [|x xs IHxs]; constructor; [apply IH | exact IHxs].
  - apply Hobj. induction ps as [|[k x] ps IHps]; constructor;
      [apply IH | exact IHps].
Qed.

Lemma to_json_defined (v : value) : v ≠ VUndef → Js.to_json v ≠ VUndef.
Proof. by destruct v. Qed.

Lemma undefined_or_not (v : value) : v = VUndef ∨ v ≠ VUndef.
Proof. destruct v; (by left) || (by right). Qed.

Lemma json_props_cons (k : string) (v : value) (ps : list (string * value)) :
  v ≠ VUndef → json_props ((k, v) :: ps) = (k, Js.to_json v) :: json_props ps.
Proof. by destruct v. Qed.

Lemma json_elem_defined (v : value) : v ≠ VUndef → json_elem v = Js.to_json v.
Proof. by destruct v. Qed.

Lemma to_json_idempotent (v : value) : Js.to_json (Js.to_json v) = Js.to_json v.
Proof.
  induction v as [| | | | |xs IH|ps IH] using value_nested_ind; try reflexivity.
  - rewrite !to_json_arr. f_equal.
    induction IH as [|x xs Hx _ IHxs]; [reflexivity|].
    cbn [map]. rewrite IHxs. f_equal.
    destruct (undefined_or_not x) as [->|Hdef]; [reflexivity|].
    rewrite (json_elem_defined x Hdef).
    rewrite json_elem_defined by (by apply to_json_defined). exact Hx.
  - rewrite !to_json_obj. f_equal.
    induction IH as [|[k x] ps Hx _ IHps]; [reflexivity|].
    cbn [snd] in Hx.
    destruct (undefined_or_not x) as [->|Hdef]; [exact IHps|].
    rewrite (json_props_cons k x ps Hdef).
    rewrite json_props_cons by (by apply to_json_defined).
    by rewrite Hx, IHps.
Qed.

Lemma json_props_idempotent (ps : list (string * value)) :
  json_props (json_props ps) = json_props ps.
Proof.
  pose proof (to_json_idempotent (VObj ps)) as H.
  rewrite !to_json_obj in H. by injection H.
Qed.

Lemma json_elem_idempotent (v : value) : json_elem (json_elem v) = json_elem v.
Proof. destruct v; try reflexivity; apply to_json_idempotent. Qed.

Lemma json_props_app (ps qs : list (string * value)) :
  json_props (ps ++ qs) = (json_props ps ++ json_props qs)%list.
Proof.
  induction ps as [|[k x] ps IH]; [reflexivity|].
  destruct x; cbn [app json_props]; by rewrite IH.
Qed.

Lemma json_props_keys (ps : list (string * value)) :
  (json_props ps).*1 `sublist_of` ps.*1.
Proof.
  induction ps as [|[k x] ps IH]; [constructor|].
  destruct x; cbn [json_props]; rewrite !fmap_cons;
    (by apply sublist_skip) || (by apply sublist_cons).
Qed.

Lemma set_same (k : string) (v : value) (ps : list (string * value)) :
  Js.lookup k ps = Some v → Js.set k v ps = ps.
Proof.
  induction ps as [|[k' v'] ps IH]; [discriminate|].
  cbn [Js.lookup Js.set]. destruct (String.eqb_spec k k') as [->|Hne].
  - by intros [= ->].
  - intros Hk. by rewrite IH.
Qed.

Lemma set_fresh (k : string) (v : value) (ps : list (string * value)) :
  Js.lookup k ps = None → Js.set k v ps = (ps ++ [(k, v)])%list.
Proof.
  induction ps as [|[k' v'] ps IH]; [reflexivity|].
  cbn [Js.lookup Js.set app]. destruct (String.eqb k k'); [discriminate|].
  intros Hk. by rewrite IH.
Qed.

Lemma foldl_set_NoDup (acc ps : list (string * value)) :
  NoDup ((acc ++ ps)%list).*1 →
  foldl (fun acc kv => Js.set kv.1 kv.2 acc) acc ps = (acc ++ ps)%list.
Proof.
  revert acc. induction ps as [|[k x] ps IH]; intros acc Hnodup.
  - by rewrite app_nil_r.
  - cbn [foldl fst snd]. rewrite set_fresh.
    + rewrite IH; rewrite <- app_assoc; [reflexivity | exact Hnodup].
    + apply lookup_None_keys. rewrite fmap_app, fmap_cons in Hnodup.
      apply NoDup_app in Hnodup as (_ & Hdisj & _).
      intros Hin. apply (Hdisj k Hin). by left.
Qed.

Lemma spread_object (ps : list (string * value)) :
  NoDup ps.*1 → Js.spread [] (VObj ps) = ps.
Proof. intros Hnodup. unfold Js.spread. cbn [Js.own_props]. by apply foldl_set_NoDup. Qed.

Lemma filter_keep_media_json (items kept : list value) :
  Js.filter keep_media items = Ok kept →
  Js.filter keep_media (map json_elem kept) = Ok (map json_elem kept).
Proof.
  revert kept. induction items as [|m items IH]; intros kept.
  - by intros [= <-].
  - cbn [Js.filter].
    destruct (keep_media m) as [b|] eqn:Hm; cbn [obind]; [|discriminate].
    destruct (Js.filter keep_media items) as [ys|]; cbn [obind]; [|discriminate].
    intros [= <-]. specialize (IH ys eq_refl).
    destruct b; [|exact IH].
    apply keep_media_spec in Hm as [_ Hkept].
    destruct (Hkept eq_refl) as (ps & s & -> & Hurl & Hs).
    cbn [map Js.filter]. rewrite IH.
    unfold keep_media at 1, json_elem at 1. rewrite to_json_obj. cbn [Js.get obind].
    rewrite (lookup_json_props _ _ _ Hurl) by done.
    cbn [default from_option id Js.to_json obind]. by rewrite Hs.
Qed.

(** the stripped copy of a stripped copy is that copy again *)
Lemma lightweight_stable (e e' e2 : value) :
  lightweight e = Ok e' →
  lightweight (json_elem e') = Ok e2 →
  json_elem e2 = json_elem e'.
Proof.
  unfold lightweight at 1.
  pose proof (spread_NoDup [] e (NoDup_nil_2)) as Hcopy.
  set (copy := Js.spread [] e) in *.
  destruct (Js.get e "media") as [media0|]; cbn [obind]; [|discriminate].
  destruct (match media0 with
            | VUndef | VNull => Ok (VArr [])
            | VArr items =>
                obind (Js.filter keep_media items) (fun l => Ok (VArr l))
            | _ => Throw TypeError
            end) as [media|] eqn:Hmedia; cbn [obind]; [|discriminate].
  destruct (Js.get e "image") as [image0|]; cbn [obind]; [|discriminate].
  destruct (match image0 with
            | VUndef | VNull => Ok image0
            | VStr s => Ok (if Str.startsWith "data:" s then VStr "" else image0)
            | _ => Throw TypeError
            end) as [image|] eqn:Himage; cbn [obind]; [|discriminate].
  intros [= <-]. unfold json_elem at 1 3. rewrite to_json_obj.
  set (ps := Js.set "image" image (Js.set "media" media copy)).
  assert (NoDup ps.*1) as Hps by (by apply set_NoDup, set_NoDup).
  assert (Js.lookup "image" ps = Some image) as Hi by apply lookup_set_eq.
  assert (Js.lookup "media" ps = Some media) as Hm.
  { unfold ps. rewrite lookup_set_ne by done. apply lookup_set_eq. }
  set (qs := json_props ps).
  assert (NoDup qs.*1) as Hqs.
  { eapply sublist_NoDup; [exact Hps | apply json_props_keys]. }
  (* the media of the copy: an array that the filter leaves alone *)
  assert (∃ kept, media = VArr kept
            ∧ Js.filter keep_media (map json_elem kept)
              = Ok (map json_elem kept)) as (kept & -> & Hkept).
  { destruct media0 as [| | | | |items|]; try discriminate.
    - injection Hmedia as <-. by exists [].
    - injection Hmedia as <-. by exists [].
    - destruct (Js.filter keep_media items) as [l|] eqn:Hl; [|discriminate].
      injection Hmedia as <-. exists l. split; [reflexivity|].
      by apply (filter_keep_media_json items). }
  assert (Js.lookup "media" qs = Some (VArr (map json_elem kept))) as Hm'.
  { unfold qs. rewrite (lookup_json_props _ _ _ Hm); done. }
  (* the image of the copy: absent, null, or a string that is not embedded *)
  assert (image = VUndef ∧ Js.lookup "image" qs = None
          ∨ image = VNull ∧ Js.lookup "image" qs = Some VNull
          ∨ ∃ s, image = VStr s ∧ Js.lookup "image" qs = Some (VStr s)
                 ∧ Str.startsWith "data:" s = false) as Himg.
  { destruct image0 as [| | | |s| |]; try discriminate; injection Himage as <-.
    - left. split; [reflexivity|]. by apply lookup_json_props_undef.
    - right; left. split; [reflexivity|].
      unfold qs. by rewrite (lookup_json_props _ _ _ Hi).
    - right; right. destruct (Str.startsWith "data:" s) eqn:Hs.
      + exists "". split_and!; [reflexivity | | reflexivity].
        unfold qs. by rewrite (lookup_json_props _ _ _ Hi).
      + exists s. split_and!; [reflexivity | | exact Hs].
        unfold qs. by rewrite (lookup_json_props _ _ _ Hi). }
  unfold lightweight. rewrite (spread_object qs Hqs). cbn [Js.get obind].
  rewrite Hm'. cbn [default from_option id]. rewrite Hkept. cbn [obind].
  rewrite (set_same _ _ _ Hm').
  destruct Himg as [[-> Hnone]|[[-> Hnull]|(s & -> & Hsome & Hs)]].
  - rewrite Hnone. cbn [default from_option id obind]. intros [= <-].
    unfold json_elem. rewrite to_json_obj. f_equal.
    rewrite (set_fresh _ _ _ Hnone), json_props_app. cbn [json_props].
    rewrite app_nil_r. apply json_props_idempotent.
  - rewrite Hnull. cbn [default from_option id obind]. intros [= <-].
    unfold json_elem. rewrite to_json_obj. f_equal.
    rewrite (set_same _ _ _ Hnull). apply json_props_idempotent.
  - rewrite Hsome. cbn [default from_option id obind]. rewrite Hs.
    intros [= <-]. unfold json_elem. rewrite to_json_obj. f_equal.
    rewrite (set_same _ _ _ Hsome). apply json_props_idempotent.
Qed.

Lemma try_map_lightweight_stable (xs lw lw2 : list value) :
  try_map lightweight xs = Ok lw →
  try_map lightweight (map json_elem lw) = Ok lw2 →
  map json_elem lw2 = map json_elem lw.
Proof.
  revert lw lw2. induction xs as [|e xs IH]; intros lw lw2.
  - intros [= <-] [= <-]. reflexivity.
  - cbn [try_map].
    destruct (lightweight e) as [e'|] eqn:He; cbn [obind]; [|discriminate].
    destruct (try_map lightweight xs) as [ys|]; cbn [obind]; [|discriminate].
    intros [= <-]. cbn [map try_map].
    destruct (lightweight (json_elem e')) as [e2|] eqn:He2; cbn [obind];
      [|discriminate].
    destruct (try_map lightweight (map json_elem ys)) as [ys2|] eqn:Hys2;
      cbn [obind]; [|discriminate].
    intros [= <-]. cbn [map].
    by rewrite (lightweight_stable e e' e2 He He2), (IH ys ys2 eq_refl Hys2).
Qed.

(** without a legacy item that parses, the Migration Routine changes
    nothing *)
Lemma migration_without_cache (st : browser) :
  JSON_parse (default (NotJson "") (churchEvents st)) = Throw SyntaxError →
  (migrateFromLocalStorage st).2 = st.
Proof.
  rewrite migrateFromLocalStorage_run. cbn [snd].
  by destruct (churchEvents st) as [[v|s]|].
Qed.

(** X18: once [saveAllEvents] has returned, [migrateFromLocalStorage]
    leaves the legacy cache as it is: the stripped copy of a stripped copy
    is that copy again. *)
Lemma saved_cache_survives_migration (events : value) (st st1 : browser)
    (u : unit) :
  saveAllEvents events st = (Ok u, st1) →
  churchEvents (migrateFromLocalStorage st1).2 = churchEvents st1.
Proof.
  intros Hsave. pose proof (saveAllEvents_cache events st) as Hcache.
  rewrite Hsave in Hcache. destruct Hcache as (xs & lw & -> & Hlw & Hstored).
  rewrite migrateFromLocalStorage_run. cbn [snd]. rewrite Hstored.
  pose proof (saveAllEvents_cache (VArr (map json_elem lw)) st1) as Hagain.
  destruct (saveAllEvents (VArr (map json_elem lw)) st1) as [[u'|e] st2];
    cbn [snd].
  - destruct Hagain as (xs' & lw2 & [= <-] & Hlw2 & ->).
    by rewrite (try_map_lightweight_stable xs lw lw2 Hlw Hlw2).
  - by rewrite Hagain.
Qed.

Lemma saved_cache_survives_migration_witness :
  churchEvents (migrateFromLocalStorage
                  (saveAllEvents (VArr [easter; picnic]) fresh_browser).2).2
  = churchEvents (saveAllEvents (VArr [easter; picnic]) fresh_browser).2.
Proof.
  apply (saved_cache_survives_migration (VArr [easter; picnic]) fresh_browser
           _ tt).
  vm_compute. reflexivity.
Defined.

(** ** [getAllEvents] under a store fault *)

(** X8: when the store cannot be opened, or the transaction cannot be
    started, [getAllEvents] answers from the legacy cache: what the item
    parses to, the empty list when the item is absent or empty, and a
    SyntaxError when the item is not JSON. *)
Lemma getAllEvents_legacy_fallback (st : browser) :
  operational st = false →
  fault st ≠ Some RequestFails →
  (getAllEvents st).1
  = match churchEvents st with
    | Some (Json v) => Ok v
    | Some (NotJson s) => if String.eqb s "" then Ok (VArr []) else Throw SyntaxError
    | None => Ok (VArr [])
    end.
Proof.
  destruct st as [d f m t q]. unfold operational. cbn [fault db].
  intros Hop Hf. destruct f as [[]|]; try done; [subst d|]; try destruct d;
    run; destruct t as [[v|s]|]; cbn [truthy_text default from_option id JSON_parse];
    try reflexivity; by destruct (String.eqb s "").
Qed.

Lemma getAllEvents_legacy_fallback_witness :
  (getAllEvents blocked_browser).1 = Ok (VArr [easter_stripped]).
Proof.
  apply (getAllEvents_legacy_fallback blocked_browser); [reflexivity | discriminate].
Defined.

(** a failing request is not caught: the call rejects with the request's
    error, whatever the legacy cache holds *)
Lemma getAllEvents_request_fault (st : browser) :
  fault st = Some RequestFails →
  (getAllEvents st).1 = Throw RequestError.
Proof.
  destruct st as [d f m t q]. cbn [fault]. intros ->. run. by destruct d.
Qed.

(** C9 fails on the code at two kinds of storage state: a request on the
    opened store that ends in [onerror] rejects the call, since the promise
    is returned from the [try] block without [await]; and a legacy item that
    is not JSON makes [JSON.parse] throw inside the [catch] block. *)
Theorem getAllEvents_throws :
  (getAllEvents failing_request_browser).1 = Throw RequestError
  ∧ (getAllEvents corrupt_legacy_browser).1 = Throw SyntaxError.
Proof. split; vm_compute; reflexivity. Qed.

(** * Further properties *)

(** ** What a run of puts leaves in the store *)

Lemma put_all_lookup (xs : list value) (m m' : gmap idb_key value)
    (k : idb_key) :
  put_all xs m = (Ok tt, m') → m' !! k = latest k xs (m !! k).
Proof.
  revert m. induction xs as [|e xs IH]; intros m.
  - by intros [= <-].
  - cbn [put_all]. destruct (IDB.key_of e) as [k0|] eqn:Hk0; [|discriminate].
    intros Hput. rewrite (IH _ Hput). unfold latest. cbn [foldl]. f_equal.
    case_bool_decide as Hk; rewrite Hk0 in Hk.
    + injection Hk as ->. apply lookup_insert_eq.
    + rewrite lookup_insert_ne; [reflexivity | congruence].
Qed.

Lemma latest_app (k : idb_key) (xs ys : list value) (d : option value) :
  latest k (xs ++ ys) d = latest k ys (latest k xs d).
Proof. unfold latest. apply foldl_app. Qed.

Lemma latest_absent (k : idb_key) (xs : list value) (d : option value) :
  (∀ e, e ∈ xs → IDB.key_of e ≠ Some k) → latest k xs d = d.
Proof.
  revert d. induction xs as [|e xs IH]; intros d Hno; [reflexivity|].
  unfold latest. cbn [foldl]. rewrite bool_decide_eq_false_2.
  - apply IH. intros e' He'. apply Hno. by right.
  - apply Hno. by left.
Qed.

Lemma latest_last (k : idb_key) (xs1 xs2 : list value) (e : value)
    (d : option value) :
  IDB.key_of e = Some k →
  (∀ e', e' ∈ xs2 → IDB.key_of e' ≠ Some k) →
  latest k (xs1 ++ e :: xs2) d = Some e.
Proof.
  intros Hk Hno. rewrite latest_app. unfold latest at 1. cbn [foldl].
  rewrite bool_decide_eq_true_2 by exact Hk. by apply latest_absent.
Qed.

Lemma latest_NoDup (k : idb_key) (xs : list value) (e : value)
    (d : option value) :
  NoDup (IDB.key_of <$> xs) → e ∈ xs → IDB.key_of e = Some k →
  latest k xs d = Some e.
Proof.
  intros Hnodup Hin Hk.
  apply list_elem_of_split in Hin as (xs1 & xs2 & ->).
  apply latest_last; [exact Hk|].
  intros e' He' Hk'. rewrite fmap_app, fmap_cons in Hnodup.
  apply NoDup_app in Hnodup as (_ & _ & Hnodup).
  apply NoDup_cons in Hnodup as [Hnotin _]. apply Hnotin.
  rewrite Hk, <- Hk'. by apply list_elem_of_fmap_2.
Qed.

Lemma put_all_stops (good rest : list value) (bad : value)
    (m : gmap idb_key value) :
  Forall (fun e => is_Some (IDB.key_of e)) good →
  IDB.key_of bad = None →
  ∃ m', put_all good m = (Ok tt, m')
        ∧ put_all (good ++ bad :: rest) m = (Throw DataError, m').
Proof.
  intros Hgood Hbad. destruct (put_all_keys good m Hgood) as [m' Hput].
  exists m'. split; [exact Hput|].
  rewrite put_all_app, Hput. cbn [put_all]. by rewrite Hbad.
Qed.

(** ** [saveAllEvents]: replacement, duplicates, bad records, faults *)

(** X1: on a working store, [saveAllEvents] replaces the collection: when
    every given record has a valid id, each key afterwards holds the last
    record given with that key, and a key that no given record carries
    holds nothing, whatever the store held before. *)
Theorem saveAllEvents_replaces (xs : list value) (st : browser) :
  healthy st →
  Forall (fun e => is_Some (IDB.key_of e)) xs →
  let st' := (saveAllEvents (VArr xs) st).2 in
  (∀ xs1 e xs2 k,
      xs = (xs1 ++ e :: xs2)%list → IDB.key_of e = Some k →
      (∀ e', e' ∈ xs2 → IDB.key_of e' ≠ Some k) →
      store st' !! k = Some e)
  ∧ (∀ k, (∀ e, e ∈ xs → IDB.key_of e ≠ Some k) → store st' !! k = None).
Proof.
  intros Hst Hkeys st'.
  destruct (put_all_keys xs ∅ Hkeys) as [m Hput].
  assert (store st' = m) as Hstore.
  { unfold st'. rewrite saveAllEvents_operational
      by (unfold operational; by rewrite Hst).
    unfold save_cleared. cbn [Js.iterate]. rewrite Hput.
    destruct (Js.array_map lightweight (VArr xs)); [|by destruct st].
    destruct st as [d f m0 t q]; cbn [quota_exceeded with_db]. by destruct q. }
  rewrite Hstore. split.
  - intros xs1 e xs2 k -> Hk Hno.
    rewrite (put_all_lookup _ _ _ k Hput). by apply latest_last.
  - intros k Hno. rewrite (put_all_lookup _ _ _ k Hput).
    rewrite latest_absent by exact Hno. apply lookup_empty.
Qed.

Lemma saveAllEvents_replaces_witness :
  let st' := (saveAllEvents (VArr [picnic; easter; easter_stripped])
                populated_browser).2 in
  (∀ xs1 e xs2 k,
      [picnic; easter; easter_stripped] = (xs1 ++ e :: xs2)%list →
      IDB.key_of e = Some k →
      (∀ e', e' ∈ xs2 → IDB.key_of e' ≠ Some k) →
      store st' !! k = Some e)
  ∧ (∀ k, (∀ e, e ∈ [picnic; easter; easter_stripped] →
             IDB.key_of e ≠ Some k) → store st' !! k = None).
Proof.
  apply saveAllEvents_replaces.
  - reflexivity.
  - repeat constructor; by eexists.
Defined.

(** a record whose id is an array of numbers and strings has a valid key,
    and is stored under it *)
Example array_id_is_stored :
  let e := VObj [("id", VArr [VNum 2026; VStr "easter"]);
                 ("title", VStr "Easter Service")] in
  ∃ st', saveAllEvents (VArr [e]) fresh_browser = (Ok tt, st')
         ∧ store st' !! KArr [KNum 2026; KStr "easter"] = Some e.
Proof. eexists. split; [vm_compute; reflexivity | reflexivity]. Qed.

(** X2: on a working store, [saveAllEvents] stops at the first record
    without a valid id, that is, a record that has no id or whose id is
    not a number, a string or an array of valid ids: it throws DataError,
    the store then holds exactly the records given before that one (its
    earlier contents are gone), and the legacy cache is not written. *)
Theorem saveAllEvents_stops_at_bad_record (good rest : list value)
    (bad : value) (st : browser) :
  healthy st →
  Forall (fun e => is_Some (IDB.key_of e)) good →
  IDB.key_of bad = None →
  ∃ st', saveAllEvents (VArr (good ++ bad :: rest)) st = (Throw DataError, st')
         ∧ put_all good ∅ = (Ok tt, store st')
         ∧ churchEvents st' = churchEvents st.
Proof.
  intros Hst Hgood Hbad.
  destruct (put_all_stops good rest bad ∅ Hgood Hbad) as (m & Hput & Hstop).
  rewrite saveAllEvents_operational by (unfold operational; by rewrite Hst).
  unfold save_cleared. cbn [Js.iterate]. rewrite Hstop.
  eexists. split; [reflexivity|]. destruct st; cbn. by rewrite Hput.
Qed.

Lemma saveAllEvents_stops_at_bad_record_witness :
  ∃ st', saveAllEvents (VArr ([picnic] ++ VObj [("title", VStr "No id")]
                                :: [easter])) populated_browser
         = (Throw DataError, st')
         ∧ put_all [picnic] ∅ = (Ok tt, store st')
         ∧ churchEvents st' = churchEvents populated_browser.
Proof.
  apply saveAllEvents_stops_at_bad_record.
  - reflexivity.
  - repeat constructor; by eexists.
  - reflexivity.
Defined.

(** X3: when IndexedDB is broken (it does not open, the transaction does
    not start, or the request fails), [saveAllEvents] throws the error of
    that fault and changes neither the store nor the legacy cache. *)
Theorem saveAllEvents_fault (events : value) (st : browser) (f : idb_fault) :
  fault st = Some f →
  operational st = false →
  ∃ st', saveAllEvents events st = (Throw (fault_error f), st')
         ∧ store st' = store st
         ∧ churchEvents st' = churchEvents st.
Proof.
  destruct st as [d f' m t q]. unfold operational. cbn [fault db].
  intros -> Hop. destruct f; [subst d| |]; try destruct d; run; eauto.
Qed.

Lemma saveAllEvents_fault_witness :
  ∃ st', saveAllEvents (VArr [picnic]) blocked_browser
         = (Throw (fault_error OpenFails), st')
         ∧ store st' = store blocked_browser
         ∧ churchEvents st' = churchEvents blocked_browser.
Proof. apply saveAllEvents_fault; reflexivity. Defined.

(** ** Shared facts about saving *)

Lemma saveAllEvents_keeps_fault (events : value) (st : browser) :
  fault (saveAllEvents events st).2 = fault st
  ∧ quota_exceeded (saveAllEvents events st).2 = quota_exceeded st.
Proof.
  destruct (operational st) eqn:Hop.
  - rewrite (saveAllEvents_operational _ _ Hop).
    pose proof (save_cleared_frame events (with_db true st)) as (Hf & Hq & _).
    rewrite Hf, Hq. by destruct st.
  - by destruct (saveAllEvents_broken events st Hop)
      as (e & st' & -> & _ & _ & Hf & Hq & _).
Qed.

Lemma saveAllEvents_store_healthy (xs : list value) (st : browser)
    (m : gmap idb_key value) :
  healthy st → put_all xs ∅ = (Ok tt, m) →
  store (saveAllEvents (VArr xs) st).2 = m.
Proof.
  intros Hst Hput.
  rewrite saveAllEvents_operational by (unfold operational; by rewrite Hst).
  unfold save_cleared. cbn [Js.iterate]. rewrite Hput.
  destruct (Js.array_map lightweight (VArr xs)); [|by destruct st].
  destruct st as [d f m0 t q]; cbn [quota_exceeded with_db]. by destruct q.
Qed.

Lemma records_empty : IDB.records ∅ = [].
Proof. unfold IDB.records. by rewrite map_to_list_empty. Qed.

(** ** [clearEventsBrowserCache] *)

Ltac run_clear :=
  unfold clearEventsBrowserCache, localStorage_removeItem; run.

(** X4: [clearEventsBrowserCache] never throws.  Afterwards the legacy
    cache item is gone; the store is empty when IndexedDB served the
    request, and is left as it was when IndexedDB is broken. *)
Theorem clearEventsBrowserCache_result (st : browser) :
  ∃ st', clearEventsBrowserCache st = (Ok tt, st')
         ∧ churchEvents st' = None
         ∧ store st' = (if operational st then ∅ else store st)
         ∧ fault st' = fault st.
Proof.
  destruct st as [d f m t q]. unfold operational. cbn [fault db store].
  destruct f as [[]|], d; run_clear; eauto 10.
Qed.

(** X5: after [clearEventsBrowserCache], [getAllEvents] returns the empty
    list, from the emptied store or from the removed legacy item; only a
    store whose requests fail makes it throw. *)
Theorem getAllEvents_after_clear (st : browser) :
  (getAllEvents (clearEventsBrowserCache st).2).1
  = match fault st with
    | Some RequestFails => Throw RequestError
    | _ => Ok (VArr [])
    end.
Proof.
  destruct st as [d f m t q]. cbn [fault].
  destruct f as [[]|], d; run_clear; run; rewrite ?records_empty;
    reflexivity.
Qed.

(** ** [deleteEventWithSync] and the legacy cache *)

Lemma deleteEventWithSync_healthy (r : fetch_result) (eventId : string)
    (st : browser) :
  healthy st →
  deleteEventWithSync r eventId st
  = (Ok tt, with_store (delete (KStr eventId) (store st)) (with_db true st)).
Proof.
  intros Hst. unfold deleteEventWithSync, try_catch, bind, fetch.
  destruct r as [|[] body]; unfold throw, ret; cbn [fst negb];
    by rewrite (deleteEvent_healthy eventId st Hst).
Qed.

(** X6: when IndexedDB is broken, [deleteEventWithSync] throws the error of
    that fault whatever the remote DELETE answered, and the store and the
    legacy cache keep what they held. *)
Theorem deleteEventWithSync_fault (r : fetch_result) (eventId : string)
    (st : browser) (f : idb_fault) :
  fault st = Some f →
  operational st = false →
  ∃ st', deleteEventWithSync r eventId st = (Throw (fault_error f), st')
         ∧ store st' = store st
         ∧ churchEvents st' = churchEvents st.
Proof.
  destruct st as [d f' m t q]. unfold operational. cbn [fault db].
  intros -> Hop. unfold deleteEventWithSync, fetch.
  destruct f; [subst d| |]; try destruct d;
    destruct r as [|[] body]; run; eauto.
Qed.

Lemma deleteEventWithSync_fault_witness :
  ∃ st', deleteEventWithSync (Response true None) "event-1" blocked_browser
         = (Throw (fault_error OpenFails), st')
         ∧ store st' = store blocked_browser
         ∧ churchEvents st' = churchEvents blocked_browser.
Proof. apply deleteEventWithSync_fault; reflexivity. Defined.

(** X7: [deleteEventWithSync] removes the record from the store but leaves
    the legacy cache as it is, so a record that the cache still lists comes
    back with the next [migrateFromLocalStorage]. *)
Theorem deleted_record_returns_with_migration (r : fetch_result)
    (eventId : string) (xs : list value) (e : value) (st : browser) :
  healthy st →
  churchEvents st = Some (Json (VArr xs)) →
  Forall (fun x => is_Some (IDB.key_of x)) xs →
  NoDup (IDB.key_of <$> xs) →
  e ∈ xs →
  IDB.key_of e = Some (KStr eventId) →
  let st1 := (deleteEventWithSync r eventId st).2 in
  store st1 !! KStr eventId = None
  ∧ churchEvents st1 = churchEvents st
  ∧ store (migrateFromLocalStorage st1).2 !! KStr eventId = Some e.
Proof.
  intros Hst Hcache Hkeys Hnodup Hin Hk st1.
  unfold st1. rewrite (deleteEventWithSync_healthy r eventId st Hst).
  cbn [snd]. split_and!.
  - destruct st; cbn. apply lookup_delete_eq.
  - by destruct st.
  - rewrite migrateFromLocalStorage_run. cbn [snd].
    replace (churchEvents (with_store (delete (KStr eventId) (store st))
                             (with_db true st)))
      with (Some (Json (VArr xs))) by (by destruct st).
    destruct (put_all_keys xs ∅ Hkeys) as [m Hput].
    rewrite (saveAllEvents_store_healthy xs _ m); [| by destruct st | exact Hput].
    rewrite (put_all_lookup _ _ _ (KStr eventId) Hput).
    by apply latest_NoDup.
Qed.

Lemma deleted_record_returns_with_migration_witness :
  let st := (saveAllEvents (VArr [easter_stripped; picnic]) fresh_browser).2 in
  let st1 := (deleteEventWithSync NetworkError "event-2" st).2 in
  store st1 !! KStr "event-2" = None
  ∧ churchEvents st1 = churchEvents st
  ∧ store (migrateFromLocalStorage st1).2 !! KStr "event-2"
    = Some (VObj [("id", VStr "event-2"); ("title", VStr "Parish Picnic");
                  ("date", VStr "2026-06-14"); ("media", VArr [])]).
Proof.
  intros st.
  apply (deleted_record_returns_with_migration NetworkError "event-2"
           [easter_stripped;
            VObj [("id", VStr "event-2"); ("title", VStr "Parish Picnic");
                  ("date", VStr "2026-06-14"); ("media", VArr [])]]).
  - reflexivity.
  - vm_compute. reflexivity.
  - repeat constructor; by eexists.
  - refine (bool_decide_unpack _ _). vm_compute. exact I.
  - apply list_elem_of_In. right. left. reflexivity.
  - reflexivity.
Defined.

(** ** [syncEventsWithSupabase] on every response *)

(** X9: with a working store [syncEventsWithSupabase] never throws,
    whatever [fetch] does: a missing or malformed response, and a failure
    to save the remote events, all end in the fallback to the local
    store. *)
Theorem syncEventsWithSupabase_returns (r : fetch_result) (st : browser) :
  healthy st →
  ∃ v st', syncEventsWithSupabase r st = (Ok v, st').
Proof.
  intros Hst.
  pose proof (getAllEvents_healthy st Hst) as Hlocal.
  unfold syncEventsWithSupabase, try_catch, fetch.
  destruct r as [|[] body].
  - unfold bind, throw. rewrite Hlocal. eauto.
  - unfold response_json, bind, ret, lift, throw. cbn [fst snd negb].
    destruct body as [data|]; [|rewrite Hlocal; eauto].
    destruct (Js.get data "events") as [events|]; [|rewrite Hlocal; eauto].
    set (remote := if Js.truthy events then events else VArr []).
    pose proof (saveAllEvents_keeps_fault remote st) as [Hf _].
    destruct (saveAllEvents remote st) as [[[]|e] st1]; [eauto|].
    cbn [snd] in Hf. rewrite (getAllEvents_healthy st1); [eauto|].
    unfold healthy. by rewrite Hf.
  - unfold bind, ret. cbn [fst snd negb]. rewrite Hlocal. eauto.
Qed.

Lemma syncEventsWithSupabase_returns_witness :
  ∃ v st', syncEventsWithSupabase
             (Response true (Some (VObj [("events", VArr [VNum 7])])))
             populated_browser = (Ok v, st').
Proof. apply syncEventsWithSupabase_returns. reflexivity. Defined.

(** X10: when the GET succeeds and every remote record can be stored,
    [syncEventsWithSupabase] returns the remote list and the local store
    holds the remote records and nothing else: each key holds the last
    remote record with that key, and the records cached before are gone. *)
Theorem syncEventsWithSupabase_remote_wins (data : value) (xs : list value)
    (st : browser) :
  healthy st →
  quota_exceeded st = false →
  Js.get data "events" = Ok (VArr xs) →
  Forall (fun v => storable v = true) xs →
  ∃ st', syncEventsWithSupabase (Response true (Some data)) st
         = (Ok (VArr xs), st')
         ∧ ∀ k, store st' !! k = latest k xs None.
Proof.
  intros Hst Hq Hdata Hxs.
  destruct (saveAllEvents_succeeds xs st Hst Hq Hxs) as (m & lw & Hput & _ & Hsave).
  unfold syncEventsWithSupabase, response_json, try_catch, bind, fetch, ret,
    lift. cbn [fst snd negb]. rewrite Hdata. cbn [Js.truthy]. rewrite Hsave.
  eexists. split; [reflexivity|].
  intros k. destruct st; cbn. rewrite (put_all_lookup _ _ _ k Hput).
  by rewrite lookup_empty.
Qed.

Lemma syncEventsWithSupabase_remote_wins_witness :
  ∃ st', syncEventsWithSupabase
           (Response true (Some (VObj [("events", VArr [picnic])])))
           populated_browser
         = (Ok (VArr [picnic]), st')
         ∧ ∀ k, store st' !! k = latest k [picnic] None.
Proof.
  apply syncEventsWithSupabase_remote_wins; try reflexivity.
  repeat constructor.
Defined.

(** X11: a successful response whose body has no usable [events] field
    (absent, null, false, 0 or the empty string) counts as an empty remote
    collection: the call returns the empty list, the local store is emptied
    and the legacy cache is overwritten with the empty list. *)
Theorem syncEventsWithSupabase_without_events (data events : value)
    (st : browser) :
  healthy st →
  quota_exceeded st = false →
  Js.get data "events" = Ok events →
  Js.truthy events = false →
  ∃ st', syncEventsWithSupabase (Response true (Some data)) st
         = (Ok (VArr []), st')
         ∧ store st' = ∅
         ∧ churchEvents st' = Some (Json (VArr [])).
Proof.
  intros Hst Hq Hdata Hfalsy.
  destruct (saveAllEvents_succeeds [] st Hst Hq) as (m & lw & Hput & Hlw & Hsave);
    [constructor|].
  injection Hput as <-. injection Hlw as <-.
  unfold syncEventsWithSupabase, response_json, try_catch, bind, fetch, ret,
    lift. cbn [fst snd negb]. rewrite Hdata, Hfalsy, Hsave.
  eexists. split; [reflexivity|]. by destruct st.
Qed.

Lemma syncEventsWithSupabase_without_events_witness :
  ∃ st', syncEventsWithSupabase
           (Response true (Some (VObj [("message", VStr "ok")])))
           populated_browser
         = (Ok (VArr []), st')
         ∧ store st' = ∅
         ∧ churchEvents st' = Some (Json (VArr [])).
Proof.
  apply (syncEventsWithSupabase_without_events _ VUndef); reflexivity.
Defined.

(** ** Records and their keys *)

Lemma store_wf_empty : store_wf ∅.
Proof. intros k e. by rewrite lookup_empty. Qed.

Lemma store_wf_insert (m : gmap idb_key value) (k : idb_key) (e : value) :
  store_wf m → IDB.key_of e = Some k → store_wf (<[k := e]> m).
Proof.
  intros Hm Hk k' e'. destruct (decide (k = k')) as [<-|Hne].
  - rewrite lookup_insert_eq. by intros [= <-].
  - rewrite lookup_insert_ne by done. apply Hm.
Qed.

Lemma store_wf_delete (m : gmap idb_key value) (k : idb_key) :
  store_wf m → store_wf (delete k m).
Proof.
  intros Hm k' e'. destruct (decide (k = k')) as [<-|Hne].
  - by rewrite lookup_delete_eq.
  - rewrite lookup_delete_ne by done. apply Hm.
Qed.

Lemma put_all_wf (xs : list value) (m : gmap idb_key value) :
  store_wf m → store_wf (put_all xs m).2.
Proof.
  revert m. induction xs as [|e xs IH]; intros m Hm; [exact Hm|].
  cbn [put_all]. destruct (IDB.key_of e) as [k|] eqn:Hk; [|exact Hm].
  apply IH. by apply store_wf_insert.
Qed.

Lemma records_elem (m : gmap idb_key value) (e : value) :
  e ∈ IDB.records m ↔ ∃ k, m !! k = Some e.
Proof.
  unfold IDB.records. rewrite list_elem_of_fmap. split.
  - intros ([k e'] & -> & Hin). exists k. by apply elem_of_map_to_list.
  - intros [k Hk]. exists (k, e). split; [reflexivity|].
    by apply elem_of_map_to_list.
Qed.

Lemma records_keys (m : gmap idb_key value) :
  store_wf m → IDB.key_of <$> IDB.records m = Some <$> (map_to_list m).*1.
Proof.
  intros Hm. unfold IDB.records.
  assert (Forall (fun kv => IDB.key_of kv.2 = Some kv.1) (map_to_list m))
    as Hall.
  { apply Forall_forall. intros [k e] Hin. apply Hm.
    by apply elem_of_map_to_list. }
  induction Hall as [|[k e] l Hke _ IH]; [reflexivity|].
  rewrite !fmap_cons. cbn [fst snd] in *. by rewrite Hke, IH.
Qed.

Lemma records_NoDup (m : gmap idb_key value) :
  store_wf m → NoDup (IDB.key_of <$> IDB.records m).
Proof.
  intros Hm. rewrite (records_keys m Hm).
  apply NoDup_fmap_2; [apply _ | apply NoDup_fst_map_to_list].
Qed.

Lemma records_have_keys (m : gmap idb_key value) :
  store_wf m → Forall (fun e => is_Some (IDB.key_of e)) (IDB.records m).
Proof.
  intros Hm. apply Forall_forall. intros e [k Hk]%records_elem.
  exists k. by apply Hm.
Qed.

Lemma latest_records (m : gmap idb_key value) (k : idb_key) :
  store_wf m → latest k (IDB.records m) None = m !! k.
Proof.
  intros Hm. destruct (m !! k) as [e|] eqn:Hk.
  - apply latest_NoDup; [by apply records_NoDup | | by apply Hm].
    apply records_elem. by exists k.
  - apply latest_absent. intros e [k' Hk']%records_elem Hkey.
    rewrite (Hm _ _ Hk') in Hkey. injection Hkey as ->. congruence.
Qed.

(** putting the records of a store into an empty store gives the store
    back *)
Lemma put_all_records (m : gmap idb_key value) :
  store_wf m → put_all (IDB.records m) ∅ = (Ok tt, m).
Proof.
  intros Hm.
  destruct (put_all_keys (IDB.records m) ∅ (records_have_keys m Hm))
    as [m' Hput].
  rewrite Hput. f_equal. apply map_eq. intros k.
  rewrite (put_all_lookup _ _ _ k Hput), lookup_empty.
  by apply latest_records.
Qed.

(** ** [createEventWithSync] on every response *)

Lemma save_appended_Ok_inv (allEvents ev : value) (st st' : browser)
    (u : unit) :
  save_appended allEvents ev st = (Ok u, st') →
  ∃ key, IDB.key_of ev = Some key ∧ store st' !! key = Some ev.
Proof.
  unfold save_appended, bind, lift.
  destruct (Js.iterate allEvents) as [items|]; [|discriminate].
  intros Hsave.
  apply saveAllEvents_Ok_inv in Hsave as (items' & [= <-] & Hput).
  rewrite put_all_app in Hput.
  destruct (put_all items ∅) as [[[]|] m1]; [|discriminate].
  cbn [put_all] in Hput. destruct (IDB.key_of ev) as [k|]; [|discriminate].
  injection Hput as <-. exists k. split; [reflexivity|]. apply lookup_insert_eq.
Qed.

(** X12: whatever [createEventWithSync] returns, be it the record of the
    server or the one made locally, has a valid id and is the record the
    local store then holds under that id. *)
Theorem createEventWithSync_result_is_stored (env : ambient)
    (r : fetch_result) (eventData ev : value) (st st' : browser) :
  createEventWithSync env r eventData st = (Ok ev, st') →
  ∃ key, IDB.key_of ev = Some key ∧ store st' !! key = Some ev.
Proof.
  unfold createEventWithSync, try_catch.
  destruct (bind (fetch r) _ st) as [[ev0|e] st0] eqn:Htry.
  - intros [= <- <-]. revert Htry.
    unfold fetch, response_json, bind, ret, throw, lift.
    destruct r as [|[] [result|]]; cbn [fst snd negb]; try discriminate.
    destruct (Js.get result "event") as [newEvent|]; [|discriminate].
    destruct (getAllEvents st) as [[allEvents|] st1]; [|discriminate].
    destruct (save_appended allEvents newEvent st1) as [[u|] st2] eqn:Hsave;
      [|discriminate].
    intros [= <- <-]. by apply (save_appended_Ok_inv allEvents _ st1 _ u).
  - intros Hfallback. by apply create_fallback_Ok_inv in Hfallback as [_ ?].
Qed.

Lemma createEventWithSync_result_is_stored_witness :
  ∃ key, IDB.key_of picnic = Some key
         ∧ store (createEventWithSync sample_env
                    (Response true (Some (VObj [("event", picnic)])))
                    form_data fresh_browser).2 !! key = Some picnic.
Proof.
  apply (createEventWithSync_result_is_stored sample_env
           (Response true (Some (VObj [("event", picnic)]))) form_data
           picnic fresh_browser).
  vm_compute. reflexivity.
Defined.

(** X13: when the POST succeeds and the returned record can be stored,
    [createEventWithSync] returns the server's record and adds it to the
    local store under its id; every other cached record stays. *)
Theorem createEventWithSync_remote_success (env : ambient)
    (result newEvent eventData : value) (key : idb_key) (st : browser) :
  healthy st →
  quota_exceeded st = false →
  store_wf (store st) →
  Forall (fun v => storable v = true) (IDB.records (store st)) →
  Js.get result "event" = Ok newEvent →
  IDB.key_of newEvent = Some key →
  storable newEvent = true →
  ∃ st', createEventWithSync env (Response true (Some result)) eventData st
         = (Ok newEvent, st')
         ∧ store st' = <[key := newEvent]> (store st).
Proof.
  intros Hst Hq Hwf Hrecords Hresult Hkey Hnew.
  set (items := (IDB.records (store st) ++ [newEvent])%list).
  assert (Forall (fun v => storable v = true) items) as Hitems.
  { apply Forall_app. split; [exact Hrecords | by constructor]. }
  destruct (saveAllEvents_succeeds items (with_db true st))
    as (m & lw & Hput & _ & Hsave);
    [by destruct st | by destruct st | exact Hitems |].
  unfold items in Hput. rewrite put_all_app, (put_all_records _ Hwf) in Hput.
  cbn [put_all] in Hput. rewrite Hkey in Hput. injection Hput as <-.
  unfold createEventWithSync, response_json, save_appended, try_catch, bind,
    fetch, ret, throw, lift. cbn [fst snd negb].
  rewrite Hresult, (getAllEvents_healthy st Hst). cbn [Js.iterate].
  fold items. rewrite Hsave. eexists. split; [reflexivity|]. by destruct st.
Qed.

Lemma createEventWithSync_remote_success_witness :
  ∃ st', createEventWithSync sample_env
           (Response true (Some (VObj [("event", easter)])))
           form_data fresh_browser
         = (Ok easter, st')
         ∧ store st' = <[KStr "event-1" := easter]> (store fresh_browser).
Proof.
  apply createEventWithSync_remote_success; try reflexivity.
  - apply store_wf_empty.
  - unfold fresh_browser. cbn [store]. rewrite records_empty. constructor.
Defined.

(** ** [updateEventWithSync] *)

Lemma has_id_key (eventId : string) (e : value) (k : idb_key) :
  IDB.key_of e = Some k →
  has_id eventId e = Ok (bool_decide (k = KStr eventId)).
Proof.
  unfold IDB.key_of, has_id.
  destruct e as [| | | | | |ps]; try discriminate. cbn [Js.get].
  destruct (Js.lookup "id" ps) as [x|]; [|discriminate].
  cbn [obind default from_option id].
  destruct x as [| | |n|s|xs|]; try discriminate; intros Hk; f_equal.
  - injection Hk as <-. by rewrite bool_decide_eq_false_2.
  - injection Hk as <-. destruct (String.eqb_spec s eventId) as [->|Hne].
    + by rewrite bool_decide_eq_true_2.
    + rewrite bool_decide_eq_false_2; [reflexivity | congruence].
  - cbn [IDB.valid_key] in Hk.
    match type of Hk with
    | KArr <$> ?ks = _ => destruct ks; [|discriminate]
    end.
    injection Hk as <-. by rewrite bool_decide_eq_false_2.
Qed.

(** the map that [replace_by_id] applies to records with valid keys *)
Lemma replace_by_id_records (eventId : string) (f : value → value)
    (xs : list value) :
  Forall (fun e => is_Some (IDB.key_of e)) xs →
  replace_by_id eventId f (VArr xs)
  = Ok (map (fun e => if bool_decide (IDB.key_of e = Some (KStr eventId))
                      then f e else e) xs).
Proof.
  unfold replace_by_id. cbn [Js.array_map].
  induction 1 as [|e xs [k Hk] _ IH]; [reflexivity|].
  cbn [try_map map]. rewrite (has_id_key _ _ _ Hk), IH. cbn [obind].
  do 3 f_equal. rewrite Hk.
  destruct (decide (k = KStr eventId)) as [->|Hne].
  - by rewrite !bool_decide_eq_true_2.
  - rewrite !bool_decide_eq_false_2; [reflexivity | congruence | done].
Qed.

Lemma find_by_id_found (eventId : string) (ys : list value) (x : value) :
  Forall (fun e => is_Some (IDB.key_of e)) ys →
  NoDup (IDB.key_of <$> ys) →
  x ∈ ys → IDB.key_of x = Some (KStr eventId) →
  find_by_id eventId ys = Ok x.
Proof.
  intros Hkeys. induction Hkeys as [|e ys [k Hk] _ IH]; intros Hnodup Hin Hx.
  - by apply elem_of_nil in Hin.
  - rewrite fmap_cons in Hnodup. apply NoDup_cons in Hnodup as [Hnotin Hnodup].
    cbn [find_by_id]. rewrite (has_id_key _ _ _ Hk). cbn [obind].
    apply elem_of_cons in Hin as [->|Hin].
    + rewrite Hx in Hk. injection Hk as <-. by rewrite bool_decide_eq_true_2.
    + case_bool_decide as Hke; [|by apply IH]. subst k.
      exfalso. apply Hnotin. rewrite Hk, <- Hx. by apply list_elem_of_fmap_2.
Qed.

Lemma find_by_id_absent (eventId : string) (ys : list value) :
  Forall (fun e => is_Some (IDB.key_of e)) ys →
  (∀ e, e ∈ ys → IDB.key_of e ≠ Some (KStr eventId)) →
  find_by_id eventId ys = Ok VUndef.
Proof.
  induction 1 as [|e ys [k Hk] _ IH]; intros Hno; [reflexivity|].
  cbn [find_by_id]. rewrite (has_id_key _ _ _ Hk). cbn [obind].
  rewrite bool_decide_eq_false_2.
  - apply IH. intros e' He'. apply Hno. by right.
  - intros ->. apply (Hno e); [by left | exact Hk].
Qed.

Lemma latest_map (k : idb_key) (g : value → value) (xs : list value)
    (d : option value) :
  (∀ e, e ∈ xs → IDB.key_of (g e) = IDB.key_of e) →
  latest k (map g xs) (g <$> d) = g <$> latest k xs d.
Proof.
  revert d. induction xs as [|e xs IH]; intros d Hg; [reflexivity|].
  unfold latest. cbn [map foldl]. rewrite (Hg e) by (by left).
  assert (∀ e', e' ∈ xs → IDB.key_of (g e') = IDB.key_of e') as Hg'
    by (intros e' He'; apply Hg; by right).
  case_bool_decide.
  - apply (IH (Some e) Hg').
  - apply (IH d Hg').
Qed.

(** saving the records of the store with the one under [eventId] replaced
    by [f] of it, where [f] keeps the id *)
Lemma save_replaced (eventId : string) (f : value → value) (st : browser) :
  healthy st →
  quota_exceeded st = false →
  store_wf (store st) →
  let g := fun e => if bool_decide (IDB.key_of e = Some (KStr eventId))
                    then f e else e in
  let ys := map g (IDB.records (store st)) in
  (∀ e, store st !! KStr eventId = Some e →
        IDB.key_of (f e) = Some (KStr eventId)) →
  Forall (fun v => storable v = true) ys →
  ∃ st', saveAllEvents (VArr ys) (with_db true st) = (Ok tt, st')
         ∧ store st' = g <$> store st
         ∧ find_by_id eventId ys
           = Ok (default VUndef (f <$> store st !! KStr eventId)).
Proof.
  intros Hst Hq Hwf g ys Hf Hys.
  assert (∀ e, e ∈ IDB.records (store st) → IDB.key_of (g e) = IDB.key_of e)
    as Hg.
  { intros e [k Hk]%records_elem. unfold g. case_bool_decide as Hke; [|done].
    rewrite Hke. apply Hf. rewrite (Hwf _ _ Hk) in Hke.
    injection Hke as ->. exact Hk. }
  assert (IDB.key_of <$> ys = IDB.key_of <$> IDB.records (store st)) as Hkeys.
  { unfold ys. rewrite <- list_fmap_compose. apply list_fmap_ext.
    intros i e Hi. apply Hg. by eapply list_elem_of_lookup_2. }
  assert (Forall (fun e => is_Some (IDB.key_of e)) ys) as Hys_keys.
  { eapply Forall_impl; [exact Hys|]. intros v Hv. unfold storable in Hv.
    destruct (IDB.key_of v); [by eexists | discriminate]. }
  destruct (saveAllEvents_succeeds ys (with_db true st))
    as (m & lw & Hput & _ & Hsave);
    [by destruct st | by destruct st | exact Hys |].
  rewrite Hsave. eexists. split; [reflexivity|]. split.
  - replace (store _) with m by (by destruct st).
    apply map_eq. intros k.
    rewrite (put_all_lookup _ _ _ k Hput), lookup_empty, lookup_fmap.
    unfold ys. etrans; [apply (latest_map k g _ None Hg)|].
    by rewrite (latest_records _ k Hwf).
  - destruct (store st !! KStr eventId) as [e|] eqn:He; cbn.
    + apply find_by_id_found; [exact Hys_keys | | |].
      * rewrite Hkeys. by apply records_NoDup.
      * unfold ys. replace (f e) with (g e).
        { apply list_elem_of_fmap_2. apply records_elem. by eexists. }
        unfold g. rewrite bool_decide_eq_true_2; [reflexivity | by apply Hwf].
      * by apply Hf.
    + apply find_by_id_absent; [exact Hys_keys|].
      intros e' He' Hk'. unfold ys in He'.
      apply list_elem_of_fmap in He' as (e0 & -> & He0).
      rewrite (Hg e0 He0) in Hk'. apply records_elem in He0 as [k0 Hk0].
      rewrite (Hwf _ _ Hk0) in Hk'. injection Hk' as ->. congruence.
Qed.

Lemma updateEventWithSync_remote_failed (env : ambient) (r : fetch_result)
    (eventId : string) (eventData : value) (st : browser) :
  remote_failed r →
  updateEventWithSync env r eventId eventData st
  = update_fallback env eventId eventData st.
Proof.
  intros Hr. unfold updateEventWithSync, try_catch, bind, fetch.
  destruct r as [|ok body]; [reflexivity|]. cbn in Hr. subst ok. reflexivity.
Qed.

Lemma merged_event_key (now eventId : string) (eventData e : value) :
  NoDup (Js.own_props e).*1 →
  lacks eventData "id" →
  IDB.key_of e = Some (KStr eventId) →
  IDB.key_of (merged_event now eventData e) = Some (KStr eventId).
Proof.
  intros Hwf Hlacks Hk. unfold merged_event. cbn [IDB.key_of].
  rewrite lookup_set_ne by done.
  rewrite (spread_lookup_absent _ _ _ Hlacks), (spread_lookup _ _ _ Hwf).
  unfold IDB.key_of in Hk. destruct e as [| | | | | |ps]; try discriminate.
  cbn [Js.own_props]. by destruct (Js.lookup "id" ps) as [[]|].
Qed.

Lemma fmap_replace_at (m : gmap idb_key value) (eventId : string)
    (f : value → value) (e : value) :
  store_wf m → m !! KStr eventId = Some e →
  (fun x => if bool_decide (IDB.key_of x = Some (KStr eventId))
            then f x else x) <$> m
  = <[KStr eventId := f e]> m.
Proof.
  intros Hwf He. apply map_eq. intros k. rewrite lookup_fmap.
  destruct (decide (k = KStr eventId)) as [->|Hne].
  - rewrite lookup_insert_eq, He. cbn.
    rewrite bool_decide_eq_true_2; [reflexivity | by apply Hwf].
  - rewrite lookup_insert_ne by done.
    destruct (m !! k) as [x|] eqn:Hx; [|reflexivity]. cbn.
    rewrite bool_decide_eq_false_2; [reflexivity|].
    rewrite (Hwf _ _ Hx). congruence.
Qed.

Lemma fmap_replace_none (m : gmap idb_key value) (eventId : string)
    (f : value → value) :
  store_wf m → m !! KStr eventId = None →
  (fun x => if bool_decide (IDB.key_of x = Some (KStr eventId))
            then f x else x) <$> m
  = m.
Proof.
  intros Hwf He. apply map_eq. intros k. rewrite lookup_fmap.
  destruct (m !! k) as [x|] eqn:Hx; [|reflexivity]. cbn.
  rewrite bool_decide_eq_false_2; [reflexivity|].
  rewrite (Hwf _ _ Hx). intros [= ->]. congruence.
Qed.

Lemma map_replace_none (m : gmap idb_key value) (eventId : string)
    (f : value → value) :
  store_wf m → m !! KStr eventId = None →
  map (fun x => if bool_decide (IDB.key_of x = Some (KStr eventId))
                then f x else x) (IDB.records m)
  = IDB.records m.
Proof.
  intros Hwf He. rewrite <- (map_id (IDB.records m)) at 2.
  apply map_ext_in. intros x [k Hk]%list_elem_of_In%records_elem.
  rewrite bool_decide_eq_false_2; [reflexivity|].
  rewrite (Hwf _ _ Hk). intros [= ->]. congruence.
Qed.

(** X14: when the PUT fails, the store works and the event data carries
    no [id] of its own, [updateEventWithSync] merges the event data into
    the cached record with that id, stamps it with the clock reading,
    stores it under the same id, and returns it; every other record
    stays. *)
Theorem updateEventWithSync_local_merge (env : ambient) (r : fetch_result)
    (eventId : string) (eventData e : value) (st : browser) :
  remote_failed r →
  healthy st →
  quota_exceeded st = false →
  store_wf (store st) →
  Forall (fun v => storable v = true) (IDB.records (store st)) →
  store st !! KStr eventId = Some e →
  NoDup (Js.own_props e).*1 →
  lacks eventData "id" →
  is_ok (lightweight (merged_event (clock env) eventData e)) = true →
  ∃ st', updateEventWithSync env r eventId eventData st
         = (Ok (merged_event (clock env) eventData e), st')
         ∧ store st'
           = <[KStr eventId := merged_event (clock env) eventData e]> (store st).
Proof.
  intros Hr Hst Hq Hwf Hrecords He Hobj Hlacks Hlw.
  rewrite (updateEventWithSync_remote_failed _ _ _ _ _ Hr).
  set (f := merged_event (clock env) eventData).
  assert (IDB.key_of (f e) = Some (KStr eventId)) as Hkey
    by (apply merged_event_key; [exact Hobj | exact Hlacks | by apply Hwf]).
  destruct (save_replaced eventId f st Hst Hq Hwf) as (st' & Hsave & Hstore & Hfind).
  { intros e' He'. rewrite He in He'. by injection He' as <-. }
  { apply Forall_forall. intros y Hy.
    apply list_elem_of_fmap in Hy as (x & -> & Hx).
    case_bool_decide as Hkx.
    - apply records_elem in Hx as [k Hk]. rewrite (Hwf _ _ Hk) in Hkx.
      injection Hkx as ->. rewrite He in Hk. injection Hk as <-.
      unfold storable. by rewrite Hkey.
    - by apply (proj1 (Forall_forall _ _) Hrecords). }
  unfold update_fallback, bind, lift.
  rewrite (getAllEvents_healthy st Hst).
  rewrite (replace_by_id_records _ _ _ (records_have_keys _ Hwf)).
  fold f. rewrite Hsave, Hfind, He. cbn. eexists. split; [reflexivity|].
  rewrite Hstore. by apply fmap_replace_at.
Qed.

Lemma updateEventWithSync_local_merge_witness :
  ∃ st', updateEventWithSync sample_env NetworkError "event-2"
           (VObj [("title", VStr "Picnic, moved")]) populated_browser
         = (Ok (merged_event (clock sample_env)
                  (VObj [("title", VStr "Picnic, moved")]) picnic), st')
         ∧ store st'
           = <[KStr "event-2" :=
                 merged_event (clock sample_env)
                   (VObj [("title", VStr "Picnic, moved")]) picnic]>
               (store populated_browser).
Proof.
  apply updateEventWithSync_local_merge; try reflexivity.
  - change (map_Forall (fun k e => IDB.key_of e = Some k)
              (store populated_browser)).
    refine (bool_decide_unpack _ _). vm_compute. exact I.
  - refine (bool_decide_unpack _ _). vm_compute. exact I.
  - refine (bool_decide_unpack _ _). vm_compute. exact I.
Defined.

(** X15: when the store holds no record with the id, [updateEventWithSync]
    leaves the store as it is.  After a failed PUT it returns [undefined];
    after a successful PUT it returns the server's record, which the local
    store still does not hold. *)
Theorem updateEventWithSync_unknown_id (env : ambient) (eventId : string)
    (eventData : value) (st : browser) :
  healthy st →
  quota_exceeded st = false →
  store_wf (store st) →
  Forall (fun v => storable v = true) (IDB.records (store st)) →
  store st !! KStr eventId = None →
  (∀ r, remote_failed r →
     ∃ st', updateEventWithSync env r eventId eventData st = (Ok VUndef, st')
            ∧ store st' = store st)
  ∧ (∀ result updatedEvent,
       Js.get result "event" = Ok updatedEvent →
       ∃ st', updateEventWithSync env (Response true (Some result)) eventId
                eventData st = (Ok updatedEvent, st')
              ∧ store st' = store st).
Proof.
  intros Hst Hq Hwf Hrecords Hnone.
  assert (∀ f, ∃ st',
             saveAllEvents
               (VArr (map (fun x =>
                             if bool_decide (IDB.key_of x = Some (KStr eventId))
                             then f x else x) (IDB.records (store st))))
               (with_db true st) = (Ok tt, st')
             ∧ store st' = store st) as Hsave.
  { intros f. destruct (save_replaced eventId f st Hst Hq Hwf)
      as (st' & Hsave & Hstore & _).
    - intros e He. congruence.
    - by rewrite (map_replace_none _ _ _ Hwf Hnone).
    - exists st'. split; [exact Hsave|].
      rewrite Hstore. by apply fmap_replace_none. }
  split.
  - intros r Hr. rewrite (updateEventWithSync_remote_failed _ _ _ _ _ Hr).
    destruct (Hsave (merged_event (clock env) eventData)) as (st' & Hs & Hstore).
    unfold update_fallback, bind, lift.
    rewrite (getAllEvents_healthy st Hst).
    rewrite (replace_by_id_records _ _ _ (records_have_keys _ Hwf)).
    rewrite Hs. exists st'. split; [|exact Hstore].
    rewrite (map_replace_none _ _ _ Hwf Hnone).
    rewrite find_by_id_absent; [reflexivity | by apply records_have_keys |].
    intros e [k Hk]%records_elem Hke. rewrite (Hwf _ _ Hk) in Hke.
    injection Hke as ->. congruence.
  - intros result updatedEvent Hresult.
    destruct (Hsave (fun _ => updatedEvent)) as (st' & Hs & Hstore).
    unfold updateEventWithSync, response_json, try_catch, bind, fetch, ret,
      throw, lift. cbn [fst snd negb].
    rewrite Hresult, (getAllEvents_healthy st Hst).
    rewrite (replace_by_id_records _ _ _ (records_have_keys _ Hwf)).
    rewrite Hs. by exists st'.
Qed.

Lemma updateEventWithSync_unknown_id_witness :
  (∀ r, remote_failed r →
     ∃ st', updateEventWithSync sample_env r "event-9" form_data
              fresh_browser = (Ok VUndef, st')
            ∧ store st' = store fresh_browser)
  ∧ (∀ result updatedEvent,
       Js.get result "event" = Ok updatedEvent →
       ∃ st', updateEventWithSync sample_env (Response true (Some result))
                "event-9" form_data fresh_browser = (Ok updatedEvent, st')
              ∧ store st' = store fresh_browser).
Proof.
  apply updateEventWithSync_unknown_id; try reflexivity.
  - apply store_wf_empty.
  - unfold fresh_browser. cbn [store]. rewrite records_empty. constructor.
Defined.

(** X16: the local merge of [updateEventWithSync] is shallow and ordered:
    [updatedAt] is always the clock reading, even when the event data
    carries one; every other field is the event data's when it has the
    field, and the cached record's otherwise. *)
Theorem merged_event_fields (now : string) (eventData e : value)
    (k : string) :
  NoDup (Js.own_props e).*1 →
  NoDup (Js.own_props eventData).*1 →
  Js.get (merged_event now eventData e) "updatedAt" = Ok (VStr now)
  ∧ (k ≠ "updatedAt" →
     Js.get (merged_event now eventData e) k
     = Ok (default (default VUndef (Js.lookup k (Js.own_props e)))
             (Js.lookup k (Js.own_props eventData)))).
Proof.
  intros He Hdata. unfold merged_event. cbn [Js.get]. split.
  - by rewrite lookup_set_eq.
  - intros Hk. rewrite lookup_set_ne by done.
    rewrite (spread_lookup _ _ _ Hdata), (spread_lookup _ _ _ He).
    destruct (Js.lookup k (Js.own_props eventData)); [reflexivity|].
    by destruct (Js.lookup k (Js.own_props e)).
Qed.

Lemma merged_event_fields_witness :
  Js.get (merged_event "2026-02-01T00:00:00.000Z"
            (VObj [("title", VStr "New title");
                   ("updatedAt", VStr "1999-01-01T00:00:00.000Z")]) picnic)
    "updatedAt" = Ok (VStr "2026-02-01T00:00:00.000Z")
  ∧ ("title" ≠ "updatedAt" →
     Js.get (merged_event "2026-02-01T00:00:00.000Z"
               (VObj [("title", VStr "New title");
                      ("updatedAt", VStr "1999-01-01T00:00:00.000Z")]) picnic)
       "title" = Ok (VStr "New title")).
Proof.
  apply (merged_event_fields "2026-02-01T00:00:00.000Z"
           (VObj [("title", VStr "New title");
                  ("updatedAt", VStr "1999-01-01T00:00:00.000Z")])
           picnic "title");
    refine (bool_decide_unpack _ _); vm_compute; exact I.
Defined.

(** ** Saving, then migrating *)

Lemma try_map_Forall2 {A B} (f : A → outcome B) (xs : list A) (ys : list B) :
  try_map f xs = Ok ys → Forall2 (fun x y => f x = Ok y) xs ys.
Proof.
  revert ys. induction xs as [|x xs IH]; intros ys.
  - intros [= <-]. constructor.
  - cbn [try_map]. destruct (f x) as [y|] eqn:Hx; cbn [obind]; [|discriminate].
    destruct (try_map f xs) as [ys'|]; cbn [obind]; [|discriminate].
    intros [= <-]. constructor; [exact Hx | by apply IH].
Qed.

Lemma put_all_Ok_keys (xs : list value) (m m' : gmap idb_key value) :
  put_all xs m = (Ok tt, m') → Forall (fun e => is_Some (IDB.key_of e)) xs.
Proof.
  revert m. induction xs as [|e xs IH]; intros m; [constructor|].
  cbn [put_all]. destruct (IDB.key_of e) as [k|] eqn:Hk; [|discriminate].
  intros Hput. constructor; [by rewrite Hk | by eapply IH].
Qed.

Lemma keys_transfer (l1 l2 : list value) :
  IDB.key_of <$> l1 = IDB.key_of <$> l2 →
  Forall (fun e => is_Some (IDB.key_of e)) l2 →
  Forall (fun e => is_Some (IDB.key_of e)) l1.
Proof.
  intros Heq H2.
  apply (proj1 (Forall_fmap IDB.key_of is_Some l1)).
  rewrite Heq. by apply (proj2 (Forall_fmap IDB.key_of is_Some l2)).
Qed.

(** the stripped copy of a record keeps the record's id *)
Lemma valid_key_arr (xs : list value) :
  IDB.valid_key (VArr xs) = KArr <$> IDB.valid_keys xs.
Proof. reflexivity. Qed.

(** a valid key is its own JSON form *)
Lemma valid_key_json (v : value) (k : idb_key) :
  IDB.valid_key v = Some k → Js.to_json v = v.
Proof.
  revert k. induction v as [| | | | |xs IH|ps _] using value_nested_ind;
    intros k; try discriminate; try reflexivity.
  rewrite valid_key_arr, to_json_arr. intros Hk. f_equal.
  destruct (IDB.valid_keys xs) as [ks|] eqn:Hks; [|discriminate].
  clear Hk k. revert ks Hks.
  induction IH as [|x xs Hx _ IHxs]; intros ks; [reflexivity|].
  cbn [IDB.valid_keys map].
  destruct (IDB.valid_key x) as [kx|] eqn:Hkx; [|discriminate].
  destruct (IDB.valid_keys xs) as [ks'|]; [|discriminate].
  intros _. rewrite (IHxs ks' eq_refl). f_equal.
  unfold json_elem. rewrite (Hx kx eq_refl). by destruct x.
Qed.

Lemma lightweight_key (e e' : value) (k : idb_key) :
  NoDup (Js.own_props e).*1 →
  IDB.key_of e = Some k →
  lightweight e = Ok e' →
  IDB.key_of (json_elem e') = Some k.
Proof.
  intros Hwf Hk. unfold lightweight.
  destruct (Js.get e "media") as [media0|]; cbn [obind]; [|discriminate].
  destruct (match media0 with
            | VUndef | VNull => Ok (VArr [])
            | VArr items =>
                obind (Js.filter keep_media items) (fun l => Ok (VArr l))
            | _ => Throw TypeError
            end) as [media|]; cbn [obind]; [|discriminate].
  destruct (Js.get e "image") as [image0|]; cbn [obind]; [|discriminate].
  destruct (match image0 with
            | VUndef | VNull => Ok image0
            | VStr s => Ok (if Str.startsWith "data:" s then VStr "" else image0)
            | _ => Throw TypeError
            end) as [image|]; cbn [obind]; [|discriminate].
  intros [= <-]. unfold json_elem. rewrite to_json_obj. cbn [IDB.key_of].
  assert (Js.lookup "id" (Js.set "image" image
                            (Js.set "media" media (Js.spread [] e)))
          = Js.lookup "id" (Js.own_props e)) as Hid.
  { rewrite !lookup_set_ne by done. rewrite (spread_lookup _ _ _ Hwf).
    by destruct (Js.lookup "id" (Js.own_props e)). }
  unfold IDB.key_of in Hk. destruct e as [| | | | | |ps]; try discriminate.
  cbn [Js.own_props] in Hid.
  destruct (Js.lookup "id" ps) as [x|] eqn:Hps; [|discriminate].
  rewrite (lookup_json_props _ _ _ Hid) by (by destruct x).
  by rewrite (valid_key_json x k Hk).
Qed.

(** X17: saving and then migrating loses the embedded media.  After
    [saveAllEvents] has returned for well-formed records with distinct ids,
    the store holds each record as given; after the next
    [migrateFromLocalStorage] it holds, under the same id, the stripped
    copy that the legacy cache had of it. *)
Theorem migration_after_save_strips (xs : list value) (e : value)
    (k : idb_key) (st st1 : browser) :
  healthy st →
  saveAllEvents (VArr xs) st = (Ok tt, st1) →
  Forall (fun x => NoDup (Js.own_props x).*1) xs →
  NoDup (IDB.key_of <$> xs) →
  e ∈ xs →
  IDB.key_of e = Some k →
  store st1 !! k = Some e
  ∧ ∃ e', store (migrateFromLocalStorage st1).2 !! k = Some e'
          ∧ stripped_copy e e'.
Proof.
  intros Hst Hsave Hobjs Hnodup Hin Hk.
  pose proof (saveAllEvents_cache (VArr xs) st) as Hcache.
  pose proof (saveAllEvents_keeps_fault (VArr xs) st) as [Hfault _].
  pose proof (saveAllEvents_Ok_inv _ _ _ _ Hsave) as (items & [= <-] & Hput).
  rewrite Hsave in Hcache, Hfault. cbn [snd] in Hfault.
  destruct Hcache as (xs' & lw & [= <-] & Hlw & Hstored).
  split.
  { rewrite (put_all_lookup _ _ _ k Hput). by apply latest_NoDup. }
  apply try_map_Forall2 in Hlw.
  assert (IDB.key_of <$> map json_elem lw = IDB.key_of <$> xs) as Hkeys.
  { clear -Hlw Hobjs Hput. apply put_all_Ok_keys in Hput.
    induction Hlw as [|x y xs lw Hxy _ IH]; [reflexivity|].
    apply Forall_cons in Hobjs as [Hx Hobjs].
    apply Forall_cons in Hput as [[kx Hkx] Hput].
    cbn [map]. rewrite !fmap_cons, (IH Hobjs Hput).
    by rewrite (lightweight_key x y kx Hx Hkx Hxy), Hkx. }
  assert (∃ e0, lightweight e = Ok e0 ∧ json_elem e0 ∈ map json_elem lw)
    as (e0 & He0 & Hin0).
  { clear -Hlw Hin. induction Hlw as [|x y xs lw Hxy _ IH].
    - by apply elem_of_nil in Hin.
    - apply elem_of_cons in Hin as [->|Hin].
      + exists y. split; [exact Hxy | by left].
      + destruct (IH Hin) as (e0 & ? & ?). exists e0. split; [done | by right]. }
  exists (json_elem e0). split; [|by apply lightweight_stripped].
  rewrite migrateFromLocalStorage_run. cbn [snd]. rewrite Hstored.
  destruct (put_all_keys (map json_elem lw) ∅) as [m Hm].
  { apply (keys_transfer _ xs Hkeys). by apply put_all_Ok_keys in Hput. }
  rewrite (saveAllEvents_store_healthy _ st1 m); [| | exact Hm].
  - rewrite (put_all_lookup _ _ _ k Hm).
    apply latest_NoDup; [by rewrite Hkeys | exact Hin0 |].
    apply (lightweight_key e e0 k); [|exact Hk | exact He0].
    by apply (proj1 (Forall_forall _ _) Hobjs).
  - unfold healthy. by rewrite Hfault.
Qed.

Lemma migration_after_save_strips_witness :
  let st1 := (saveAllEvents (VArr [easter; picnic]) fresh_browser).2 in
  store st1 !! KStr "event-1" = Some easter
  ∧ ∃ e', store (migrateFromLocalStorage st1).2 !! KStr "event-1" = Some e'
          ∧ stripped_copy easter e'.
Proof.
  intros st1.
  apply (migration_after_save_strips [easter; picnic] easter (KStr "event-1")
           fresh_browser st1).
  - reflexivity.
  - vm_compute. reflexivity.
  - refine (bool_decide_unpack _ _). vm_compute. exact I.
  - refine (bool_decide_unpack _ _). vm_compute. exact I.
  - apply list_elem_of_In. left. reflexivity.
  - reflexivity.
Defined.

(** ** Strings: appending, splitting and joining *)

Lemma app_cons (c : ascii) (s t : string) :
  String c s +:+ t = String c (s +:+ t).
Proof. reflexivity. Qed.

Lemma app_nil_l (t : string) : "" +:+ t = t.
Proof. reflexivity. Qed.

Lemma app_nil_r (s : string) : s +:+ "" = s.
Proof. induction s as [|c s IH]; [reflexivity|]. by rewrite app_cons, IH. Qed.

Lemma app_assoc (s t u : string) : (s +:+ t) +:+ u = s +:+ (t +:+ u).
Proof.
  induction s as [|c s IH]; [reflexivity|]. by rewrite !app_cons, IH.
Qed.

Lemma rev_app_append (cur acc s : string) :
  String.rev_app cur acc +:+ s = String.rev_app cur (acc +:+ s).
Proof.
  revert acc. induction cur as [|c cur IH]; intros acc; [reflexivity|].
  cbn [String.rev_app]. by rewrite IH, app_cons.
Qed.

Lemma rev_cons_append (c : ascii) (cur s : string) :
  String.rev (String c cur) +:+ s = String.rev cur +:+ String c s.
Proof.
  unfold String.rev. cbn [String.rev_app]. by rewrite !rev_app_append.
Qed.

Lemma prefix_nil (s : string) : String.prefix "" s = true.
Proof. by destruct s. Qed.

Lemma prefix_app (sep r : string) : String.prefix sep (sep +:+ r) = true.
Proof.
  induction sep as [|c sep IH]; [by destruct r|].
  rewrite app_cons. cbn [String.prefix]. by destruct (ascii_dec c c).
Qed.

Lemma prefix_inv (sep s : string) :
  String.prefix sep s = true → ∃ r, s = sep +:+ r.
Proof.
  revert s. induction sep as [|c sep IH]; intros s; [by exists s|].
  destruct s as [|c' s]; [discriminate|]. cbn [String.prefix].
  destruct (ascii_dec c c') as [<-|]; [|discriminate].
  intros [r ->]%IH. exists r. by rewrite app_cons.
Qed.

Lemma append_length_eq (s1 s2 : string) :
  String.length (s1 +:+ s2) = (String.length s1 + String.length s2)%nat.
Proof.
  induction s1 as [|c s1 IH]; [reflexivity|].
  rewrite app_cons. cbn [String.length]. by rewrite IH.
Qed.

(** passing over the rest of a matched separator *)
Lemma split_go_skip (sep t cur s : string) :
  Str.split_go sep (String.length t) cur (t +:+ s) = Str.split_go sep 0 cur s.
Proof.
  induction t as [|c t IH]; [reflexivity|].
  rewrite app_cons. cbn [String.length Str.split_go]. exact IH.
Qed.

Lemma split_go_match (sep' cur r : string) (c : ascii) :
  Str.split_go (String c sep') 0 cur (String c sep' +:+ r)
  = String.rev cur :: Str.split_go (String c sep') 0 "" r.
Proof.
  rewrite app_cons. cbn [Str.split_go].
  rewrite <- app_cons, prefix_app.
  replace (String.length (String c sep') - 1)%nat with (String.length sep')
    by (cbn [String.length]; lia).
  by rewrite split_go_skip.
Qed.

Lemma split_go_pass (sep cur s : string) (c : ascii) :
  String.prefix sep (String c s) = false →
  Str.split_go sep 0 cur (String c s) = Str.split_go sep 0 (String c cur) s.
Proof. intros Hp. cbn [Str.split_go]. by rewrite Hp. Qed.

Lemma includes_pass (needle s : string) (c : ascii) :
  String.prefix needle (String c s) = false →
  Str.includes needle (String c s) = Str.includes needle s.
Proof. intros Hp. cbn [Str.includes]. by rewrite Hp. Qed.

Lemma includes_here (needle s : string) :
  String.prefix needle s = true → Str.includes needle s = true.
Proof. intros Hp. destruct s; cbn [Str.includes]; by rewrite Hp. Qed.

(** a string without the separator is one piece *)
Lemma split_go_absent (sep cur s : string) :
  Str.includes sep s = false →
  Str.split_go sep 0 cur s = [String.rev cur +:+ s].
Proof.
  revert cur. induction s as [|c s IH]; intros cur.
  - intros _. cbn [Str.split_go]. by rewrite app_nil_r.
  - cbn [Str.includes]. intros [Hp Hi]%orb_false_iff.
    rewrite (split_go_pass _ _ _ _ Hp), (IH _ Hi). by rewrite rev_cons_append.
Qed.

Lemma split_absent (sep s : string) :
  Str.includes sep s = false → Str.split sep s = [s].
Proof. intros H. unfold Str.split. by rewrite (split_go_absent _ _ _ H). Qed.

(** the first piece, for a separator of one character *)
Lemma split_go_first (c : ascii) (cur a r : string) :
  Str.includes (String c "") a = false →
  Str.split_go (String c "") 0 cur (a +:+ String c r)
  = (String.rev cur +:+ a) :: Str.split_go (String c "") 0 "" r.
Proof.
  revert cur. induction a as [|c' a IH]; intros cur.
  - intros _. rewrite app_nil_l, app_nil_r.
    apply (split_go_match "" cur r c).
  - cbn [Str.includes]. intros [Hp Hi]%orb_false_iff. rewrite app_cons.
    rewrite split_go_pass.
    + rewrite (IH _ Hi). by rewrite rev_cons_append.
    + cbn [String.prefix] in *. rewrite prefix_nil in *.
      destruct (ascii_dec c c'); [discriminate|reflexivity].
Qed.

Lemma concat_cons (sep x : string) (l : list string) :
  (1 <= length l)%nat →
  String.concat sep (x :: l) = x +:+ sep +:+ String.concat sep l.
Proof. destruct l; [cbn; lia | reflexivity]. Qed.

(** joining the pieces of a split with the separator gives the string
    back *)
Lemma join_split_go (sep : string) (n : nat) (cur s : string) :
  sep ≠ "" → (String.length s <= n)%nat →
  Str.join sep (Str.split_go sep 0 cur s) = String.rev cur +:+ s.
Proof.
  intros Hsep. revert cur s. induction n as [|n IH]; intros cur s Hn.
  - destruct s; [|cbn in Hn; lia]. cbn. by rewrite app_nil_r.
  - destruct s as [|c s]; [cbn; by rewrite app_nil_r|].
    destruct (String.prefix sep (String c s)) eqn:Hp.
    + destruct (prefix_inv _ _ Hp) as [r Hr]. rewrite Hr.
      destruct sep as [|c0 sep']; [done|].
      rewrite split_go_match. unfold Str.join.
      rewrite concat_cons by apply split_go_nonempty.
      fold (Str.join (String c0 sep') (Str.split_go (String c0 sep') 0 "" r)).
      rewrite IH.
      * reflexivity.
      * assert (String.length (String c s)
                = String.length (String c0 sep' +:+ r)) as Hlen by (by rewrite Hr).
        rewrite append_length_eq in Hlen. cbn [String.length] in *. lia.
    + rewrite (split_go_pass _ _ _ _ Hp), IH by (cbn in Hn; lia).
      by rewrite rev_cons_append.
Qed.

Lemma join_split (sep s : string) :
  sep ≠ "" → Str.join sep (Str.split sep s) = s.
Proof.
  intros Hsep. unfold Str.split.
  by rewrite (join_split_go sep (String.length s) "" s Hsep).
Qed.

(** ** [getVideoEmbedUrl] *)

(** the first piece of a split at one character *)
Lemma split_head (c : ascii) (a tail : string) :
  Str.includes (String c "") a = false →
  tail = "" ∨ (∃ more, tail = String c more) →
  Str.split (String c "") (a +:+ tail) !! 0%nat = Some a.
Proof.
  intros Ha [->|[more ->]]; unfold Str.split.
  - by rewrite app_nil_r, (split_go_absent _ _ _ Ha).
  - by rewrite (split_go_first _ _ _ _ Ha).
Qed.

(** X19: a YouTube watch link is turned into the embed link of its video:
    the id is what stands between [v=] and the next [&]. *)
Theorem getVideoEmbedUrl_watch (id tail : string) :
  Str.includes "&" id = false →
  Str.includes "v=" (id +:+ tail) = false →
  Str.includes "youtu.be" (id +:+ tail) = false →
  tail = "" ∨ (∃ more, tail = String "&" more) →
  getVideoEmbedUrl ("https://www.youtube.com/watch?v=" +:+ id +:+ tail)
  = "https://www.youtube.com/embed/" +:+ id.
Proof.
  intros Hamp Hv Hbe Htail. unfold getVideoEmbedUrl.
  assert (Str.startsWith "data:video"
            ("https://www.youtube.com/watch?v=" +:+ id +:+ tail) = false)
    as -> by reflexivity.
  assert (Str.includes "youtube.com"
            ("https://www.youtube.com/watch?v=" +:+ id +:+ tail) = true)
    as -> by reflexivity.
  assert (Str.includes "youtu.be"
            ("https://www.youtube.com/watch?v=" +:+ id +:+ tail) = false)
    as -> by exact Hbe.
  cbn [orb]. unfold part_after.
  assert (Str.split "v=" ("https://www.youtube.com/watch?v=" +:+ id +:+ tail)
          = ["https://www.youtube.com/watch?"; id +:+ tail]) as ->.
  { unfold Str.split. rewrite !app_cons, app_nil_l. cbn.
    by rewrite prefix_nil, (split_go_absent _ _ _ Hv). }
  cbn [lookup list_lookup]. by rewrite (split_head _ _ _ Hamp Htail).
Qed.

Lemma getVideoEmbedUrl_watch_witness :
  getVideoEmbedUrl "https://www.youtube.com/watch?v=dQw4w9WgXcQ&t=42s"
  = "https://www.youtube.com/embed/dQw4w9WgXcQ".
Proof.
  apply (getVideoEmbedUrl_watch "dQw4w9WgXcQ" "&t=42s").
  - reflexivity.
  - reflexivity.
  - reflexivity.
  - right. exists "t=42s". reflexivity.
Defined.

(** X20: a [youtu.be] short link is turned into the embed link of its
    video: the id is what stands between [youtu.be/] and the next [?]. *)
Theorem getVideoEmbedUrl_short_link (id tail : string) :
  Str.includes "?" id = false →
  Str.includes "youtu.be/" (id +:+ tail) = false →
  tail = "" ∨ (∃ more, tail = String "?" more) →
  getVideoEmbedUrl ("https://youtu.be/" +:+ id +:+ tail)
  = "https://www.youtube.com/embed/" +:+ id.
Proof.
  intros Hq Hbe Htail. unfold getVideoEmbedUrl.
  assert (Str.startsWith "data:video"
            ("https://youtu.be/" +:+ id +:+ tail) = false)
    as -> by reflexivity.
  assert (Str.includes "youtu.be" ("https://youtu.be/" +:+ id +:+ tail) = true)
    as -> by reflexivity.
  rewrite orb_true_r. unfold part_after.
  assert (Str.split "youtu.be/" ("https://youtu.be/" +:+ id +:+ tail)
          = ["https://"; id +:+ tail]) as ->.
  { unfold Str.split. rewrite !app_cons, app_nil_l. cbn.
    by rewrite prefix_nil, (split_go_absent _ _ _ Hbe). }
  cbn [lookup list_lookup]. by rewrite (split_head _ _ _ Hq Htail).
Qed.

Lemma getVideoEmbedUrl_short_link_witness :
  getVideoEmbedUrl "https://youtu.be/dQw4w9WgXcQ?si=abc"
  = "https://www.youtube.com/embed/dQw4w9WgXcQ".
Proof.
  apply (getVideoEmbedUrl_short_link "dQw4w9WgXcQ" "?si=abc").
  - reflexivity.
  - reflexivity.
  - right. exists "si=abc". reflexivity.
Defined.

(** X21: a Vimeo link is turned into the player link of its video: the id
    is what stands between [vimeo.com/] and the next [?]. *)
Theorem getVideoEmbedUrl_vimeo (id tail : string) :
  Str.includes "?" id = false →
  Str.includes "vimeo.com/" (id +:+ tail) = false →
  Str.includes "youtube.com" (id +:+ tail) = false →
  Str.includes "youtu.be" (id +:+ tail) = false →
  tail = "" ∨ (∃ more, tail = String "?" more) →
  getVideoEmbedUrl ("https://vimeo.com/" +:+ id +:+ tail)
  = "https://player.vimeo.com/video/" +:+ id.
Proof.
  intros Hq Hvi Hyt Hbe Htail. unfold getVideoEmbedUrl.
  assert (Str.startsWith "data:video"
            ("https://vimeo.com/" +:+ id +:+ tail) = false)
    as -> by reflexivity.
  assert (Str.includes "youtube.com" ("https://vimeo.com/" +:+ id +:+ tail)
          = false) as -> by exact Hyt.
  assert (Str.includes "youtu.be" ("https://vimeo.com/" +:+ id +:+ tail)
          = false) as -> by exact Hbe.
  assert (Str.includes "vimeo.com" ("https://vimeo.com/" +:+ id +:+ tail)
          = true) as -> by reflexivity.
  cbn [orb]. unfold part_after.
  assert (Str.split "vimeo.com/" ("https://vimeo.com/" +:+ id +:+ tail)
          = ["https://"; id +:+ tail]) as ->.
  { unfold Str.split. rewrite !app_cons, app_nil_l. cbn.
    by rewrite prefix_nil, (split_go_absent _ _ _ Hvi). }
  cbn [lookup list_lookup]. by rewrite (split_head _ _ _ Hq Htail).
Qed.

Lemma getVideoEmbedUrl_vimeo_witness :
  getVideoEmbedUrl "https://vimeo.com/76979871?share=copy"
  = "https://player.vimeo.com/video/76979871".
Proof.
  apply (getVideoEmbedUrl_vimeo "76979871" "?share=copy").
  - reflexivity.
  - reflexivity.
  - reflexivity.
  - reflexivity.
  - right. exists "share=copy". reflexivity.
Defined.

(** X22: a YouTube link that carries no [v=] parameter (an embed link, a
    shorts link, a channel page) gets the text [undefined] for its id. *)
Theorem getVideoEmbedUrl_without_id (url : string) :
  Str.startsWith "data:video" url = false →
  Str.includes "youtube.com" url = true →
  Str.includes "youtu.be" url = false →
  Str.includes "v=" url = false →
  getVideoEmbedUrl url = "https://www.youtube.com/embed/undefined".
Proof.
  intros Hdata Hyt Hbe Hv. unfold getVideoEmbedUrl, part_after.
  by rewrite Hdata, Hyt, Hbe, (split_absent _ _ Hv).
Qed.

Lemma getVideoEmbedUrl_without_id_witness :
  getVideoEmbedUrl "https://www.youtube.com/embed/dQw4w9WgXcQ"
  = "https://www.youtube.com/embed/undefined".
Proof.
  apply getVideoEmbedUrl_without_id; reflexivity.
Defined.

(** ** The image helpers on plain paths *)

Lemma all_chars_cons (P : ascii → bool) (c : ascii) (s : string) :
  all_chars P (String c s) = P c && all_chars P s.
Proof. reflexivity. Qed.

Lemma all_chars_impl (P Q : ascii → bool) (s : string) :
  (∀ c, P c = true → Q c = true) →
  all_chars P s = true → all_chars Q s = true.
Proof.
  intros HPQ. induction s as [|c s IH]; [done|].
  rewrite !all_chars_cons. intros [Hc Hs]%andb_true_iff.
  by rewrite (HPQ _ Hc), (IH Hs).
Qed.

Lemma all_chars_rev_app (P : ascii → bool) (cur acc : string) :
  all_chars P cur = true → all_chars P acc = true →
  all_chars P (String.rev_app cur acc) = true.
Proof.
  revert acc. induction cur as [|c cur IH]; intros acc; [done|].
  rewrite all_chars_cons. intros [Hc Hcur]%andb_true_iff Hacc.
  cbn [String.rev_app]. apply IH; [done|].
  by rewrite all_chars_cons, Hc, Hacc.
Qed.

Lemma unreserved_ascii (c : ascii) :
  Uri.unreserved c = true → is_ascii c = true.
Proof.
  destruct c as [[] [] [] [] [] [] [] []]; vm_compute; congruence.
Qed.

Lemma unreserved_not_percent (c : ascii) :
  Uri.unreserved c = true → Ascii.eqb c "%" = false.
Proof.
  destruct (Ascii.eqb_spec c "%") as [->|]; [|done]. vm_compute. congruence.
Qed.

Lemma unreserved_not_slash (c : ascii) :
  Uri.unreserved c = true → Ascii.eqb c "/" = false.
Proof.
  destruct (Ascii.eqb_spec c "/") as [->|]; [|done]. vm_compute. congruence.
Qed.

(** a string without the character is not cut by it *)
Lemma includes_char_absent (c : ascii) (s : string) :
  all_chars (fun x => negb (Ascii.eqb x c)) s = true →
  Str.includes (String c "") s = false.
Proof.
  induction s as [|x s IH]; [reflexivity|].
  rewrite all_chars_cons. intros [Hx Hs]%andb_true_iff.
  cbn [Str.includes String.prefix]. rewrite (IH Hs), orb_false_r.
  destruct (ascii_dec c x) as [->|]; [|reflexivity].
  by rewrite Ascii.eqb_refl in Hx.
Qed.

(** the pieces of a split at one character carry the other characters of
    the string *)
Lemma split_go_pieces (P : ascii → bool) (c : ascii) (cur s : string) :
  all_chars P cur = true →
  all_chars (fun x => P x || Ascii.eqb x c) s = true →
  P c = false →
  Forall (fun p => all_chars P p = true)
    (Str.split_go (String c "") 0 cur s).
Proof.
  intros Hcur Hs Hc. revert cur Hcur Hs.
  induction s as [|x s IH]; intros cur Hcur Hs.
  - cbn [Str.split_go]. constructor; [|constructor].
    by apply all_chars_rev_app.
  - rewrite all_chars_cons in Hs. apply andb_true_iff in Hs as [Hx Hs].
    cbn [Str.split_go String.prefix]. rewrite prefix_nil.
    destruct (ascii_dec c x) as [<-|Hne].
    + constructor; [by apply all_chars_rev_app|].
      cbn [String.length Nat.sub]. by apply IH.
    + apply IH; [|done]. rewrite all_chars_cons, Hcur, andb_true_r.
      apply orb_true_iff in Hx as [Hx|Hx]; [done|].
      apply Ascii.eqb_eq in Hx. by subst.
Qed.

Lemma lex_plain (s : string) :
  all_chars (fun c => negb (Ascii.eqb c "%")) s = true →
  Uri.lex s = Some (Uri.Lit <$> list_ascii_of_string s).
Proof.
  induction s as [|c s IH]; [reflexivity|].
  rewrite all_chars_cons. intros [Hc Hs]%andb_true_iff.
  apply negb_true_iff in Hc. cbn [Uri.lex list_ascii_of_string fmap list_fmap].
  by rewrite Hc, (IH Hs).
Qed.

Lemma assemble_lits (cs : list ascii) :
  Uri.assemble (Uri.Lit <$> cs) = Some cs.
Proof.
  induction cs as [|c cs IH]; [reflexivity|].
  cbn [fmap list_fmap Uri.assemble]. fold (fmap Uri.Lit cs).
  by rewrite IH.
Qed.

Lemma encode_unreserved (s : string) :
  all_chars Uri.unreserved s = true → Uri.encodeURIComponent s = s.
Proof.
  induction s as [|c s IH]; [reflexivity|].
  rewrite all_chars_cons. intros [Hc Hs]%andb_true_iff.
  cbn [Uri.encodeURIComponent]. by rewrite Hc, (IH Hs).
Qed.

(** a segment of unreserved characters is its own encoding *)
Lemma reencode_unreserved (s : string) :
  all_chars Uri.unreserved s = true → reencode s = Ok s.
Proof.
  intros Hs. unfold reencode, Uri.decodeURIComponent.
  rewrite lex_plain, assemble_lits, string_of_list_ascii_of_string.
  - cbn [obind]. by rewrite encode_unreserved.
  - apply (all_chars_impl Uri.unreserved); [|done].
    intros c Hc. by rewrite (unreserved_not_percent c Hc).
Qed.

Lemma try_map_fixed {A} (f : A → outcome A) (l : list A) :
  Forall (fun x => f x = Ok x) l → try_map f l = Ok l.
Proof.
  induction 1 as [|x l Hx _ IH]; [reflexivity|].
  cbn [try_map]. by rewrite Hx, IH.
Qed.

Lemma includes_nonempty (needle s : string) :
  needle ≠ "" → Str.includes needle s = true → s ≠ "".
Proof. intros Hn Hi ->. by destruct needle. Qed.

(** the transform of a URL whose bucket and path need no escaping *)
Lemma transform_plain (url base bucket path : string) (more : list string)
    (options : ImageTransformOptions) :
  Str.startsWith "data:" url = false →
  Str.includes supabase_marker url = true →
  Str.split object_segment url = base :: (bucket +:+ "/" +:+ path) :: more →
  all_chars Uri.unreserved bucket = true →
  all_chars path_char path = true →
  getOptimizedImageUrl (Some url) options
  = Ok (with_query (base +:+ render_segment +:+ bucket +:+ "/" +:+ path)
          (Uri.toString (build_params options))).
Proof.
  intros Hdata Hmarker Hsplit Hbucket Hpath. unfold getOptimizedImageUrl.
  destruct (String.eqb_spec url "") as [->|_]; [discriminate|].
  rewrite Hdata, Hmarker, Hsplit. cbn [negb length Nat.ltb Nat.leb nth].
  assert (Str.split "/" (bucket +:+ "/" +:+ path)
          = bucket :: Str.split "/" path) as ->.
  { unfold Str.split. change ("/" +:+ path) with (String "/" path).
    rewrite split_go_first; [reflexivity|].
    apply includes_char_absent, (all_chars_impl Uri.unreserved); [|done].
    intros c Hc. by rewrite (unreserved_not_slash c Hc). }
  rewrite (reencode_unreserved _ Hbucket). cbn [obind].
  rewrite try_map_fixed.
  - cbn [obind]. by rewrite join_split.
  - eapply Forall_impl;
      [apply (split_go_pieces Uri.unreserved "/" "" path); done|].
    intros p Hp. by apply reencode_unreserved.
Qed.

(** X23: a storage URL whose bucket and path hold only unreserved
    characters is rewritten in place: the object segment becomes the
    render segment, the rest of the URL is kept as it is, and the query
    of the options is appended; what follows a second object segment is
    dropped.  The numbers among the options are safe integers, which
    [toString()] prints digit by digit. *)
Theorem getOptimizedImageUrl_plain (url base bucket path : string)
    (more : list string) (options : ImageTransformOptions) :
  plain_numbers options = true →
  Str.startsWith "data:" url = false →
  Str.includes supabase_marker url = true →
  Str.split object_segment url = base :: (bucket +:+ "/" +:+ path) :: more →
  all_chars Uri.unreserved bucket = true →
  all_chars path_char path = true →
  getOptimizedImageUrl (Some url) options
  = Ok (with_query (base +:+ render_segment +:+ bucket +:+ "/" +:+ path)
          (Uri.toString (build_params options))).
Proof. intros _. apply transform_plain. Qed.

Lemma getOptimizedImageUrl_plain_witness :
  getOptimizedImageUrl
    (Some "https://X.supabase.co/storage/v1/object/public/events/2024/easter.jpg")
    no_options
  = Ok "https://X.supabase.co/storage/v1/render/image/public/events/2024/easter.jpg".
Proof.
  apply (getOptimizedImageUrl_plain
           "https://X.supabase.co/storage/v1/object/public/events/2024/easter.jpg"
           "https://X.supabase.co" "events" "2024/easter.jpg" [] no_options);
    vm_compute; reflexivity.
Defined.

(** X24: for such a URL [getImageSrcSet] lists the render URL three
    times, at widths 640, 1024 and 1920, each as webp. *)
Theorem getImageSrcSet_plain (url base bucket path : string)
    (more : list string) :
  Str.startsWith "data:" url = false →
  Str.includes supabase_marker url = true →
  Str.split object_segment url = base :: (bucket +:+ "/" +:+ path) :: more →
  all_chars Uri.unreserved bucket = true →
  all_chars path_char path = true →
  let t := base +:+ render_segment +:+ bucket +:+ "/" +:+ path in
  getImageSrcSet (Some url)
  = Ok ((t +:+ "?width=640&quality=80&format=webp") +:+ " 640w, "
        +:+ (t +:+ "?width=1024&quality=85&format=webp") +:+ " 1024w, "
        +:+ (t +:+ "?width=1920&quality=85&format=webp") +:+ " 1920w").
Proof.
  intros Hdata Hmarker Hsplit Hbucket Hpath t.
  unfold getImageSrcSet, getResponsiveImageUrls, missing_url.
  destruct (String.eqb_spec url "") as [->|_]; [discriminate|].
  rewrite Hdata, Hmarker. cbn [negb orb].
  rewrite !(transform_plain url base bucket path more) by done.
  reflexivity.
Qed.

Lemma getImageSrcSet_plain_witness :
  getImageSrcSet
    (Some "https://X.supabase.co/storage/v1/object/public/events/easter.jpg")
  = Ok "https://X.supabase.co/storage/v1/render/image/public/events/easter.jpg?width=640&quality=80&format=webp 640w, https://X.supabase.co/storage/v1/render/image/public/events/easter.jpg?width=1024&quality=85&format=webp 1024w, https://X.supabase.co/storage/v1/render/image/public/events/easter.jpg?width=1920&quality=85&format=webp 1920w".
Proof.
  apply (getImageSrcSet_plain
           "https://X.supabase.co/storage/v1/object/public/events/easter.jpg"
           "https://X.supabase.co" "events" "easter.jpg" []);
    vm_compute; reflexivity.
Defined.

(** ** Decoding what [encodeURIComponent] wrote *)

Lemma hex_pair (c : ascii) :
  Uri.hexval (Uri.hexdigit (Uri.byte_of c / 16)) = Some (Uri.byte_of c / 16)%N
  ∧ Uri.hexval (Uri.hexdigit (Uri.byte_of c mod 16))
    = Some (Uri.byte_of c mod 16)%N.
Proof.
  destruct c as [[] [] [] [] [] [] [] []]; vm_compute; split; reflexivity.
Qed.

Lemma lex_percent (c : ascii) (s : string) :
  Uri.lex (Uri.percent c +:+ s)
  = cons (Uri.Esc (Uri.byte_of c)) <$> Uri.lex s.
Proof.
  unfold Uri.percent. rewrite !app_cons, app_nil_l. cbn [Uri.lex].
  destruct (hex_pair c) as [-> ->].
  change (Ascii.eqb "%" "%") with true. cbn match.
  rewrite <- (N.div_mod (Uri.byte_of c) 16) by lia.
  by destruct (Uri.lex s).
Qed.

Lemma lex_encode (s : string) :
  Uri.lex (Uri.encodeURIComponent s)
  = Some (enc_token <$> list_ascii_of_string s).
Proof.
  induction s as [|c s IH]; [reflexivity|].
  cbn [Uri.encodeURIComponent list_ascii_of_string fmap list_fmap].
  fold (fmap enc_token (list_ascii_of_string s)).
  unfold enc_token at 1. destruct (Uri.unreserved c) eqn:Hc.
  - rewrite app_cons, app_nil_l. cbn [Uri.lex].
    by rewrite (unreserved_not_percent c Hc), IH.
  - by rewrite lex_percent, IH.
Qed.

Lemma byte_of_ascii_of_N (b : N) :
  (b < 256)%N → Uri.byte_of (ascii_of_N b) = b.
Proof. apply N_ascii_embedding. Qed.

(** a byte from 0x80 up is always written as an escape *)
Lemma enc_token_high (b : N) :
  (128 <= b)%N → (b < 256)%N → enc_token (ascii_of_N b) = Uri.Esc b.
Proof.
  intros Hlo Hhi. unfold enc_token.
  destruct (Uri.unreserved (ascii_of_N b)) eqn:Hu.
  - apply unreserved_ascii in Hu. unfold is_ascii in Hu.
    rewrite (byte_of_ascii_of_N b Hhi) in Hu. apply N.ltb_lt in Hu. lia.
  - by rewrite (byte_of_ascii_of_N b Hhi).
Qed.

Lemma in_range_bounds (lo hi b : N) :
  Uri.in_range lo hi b = true → (lo <= b)%N ∧ (b <= hi)%N.
Proof.
  unfold Uri.in_range. intros [H1 H2]%andb_true_iff.
  by apply N.leb_le in H1; apply N.leb_le in H2.
Qed.

Lemma second_ok_cont (b c : N) : Uri.second_ok b c = true → Uri.cont c = true.
Proof.
  unfold Uri.second_ok, Uri.cont.
  repeat (match goal with |- context [(?x =? ?y)%N] => destruct (x =? y)%N end);
    try done;
    intros [H1 H2]%in_range_bounds; unfold Uri.in_range;
    apply andb_true_iff; split; apply N.leb_le; lia.
Qed.

(** one ASCII character in front *)
Lemma assemble_enc_ascii (c : ascii) (cs : list ascii) :
  is_ascii c = true →
  Uri.assemble (enc_token <$> cs) = Some cs →
  Uri.assemble (enc_token <$> (c :: cs)) = Some (c :: cs).
Proof.
  intros Hc Hcs. cbn [fmap list_fmap]. fold (fmap enc_token cs).
  unfold enc_token at 1. destruct (Uri.unreserved c); cbn [Uri.assemble].
  - by rewrite Hcs.
  - unfold is_ascii in Hc. rewrite Hc, Hcs. cbn [fmap option_fmap option_map].
    unfold Uri.byte_of. by rewrite ascii_N_embedding.
Qed.

(** the decoded bytes, encoded again, decode to themselves *)
Lemma assemble_enc (n : nat) (ts : list Uri.token) (cs : list ascii) :
  (length ts <= n)%nat →
  forallb token_ok ts = true →
  Uri.assemble ts = Some cs →
  Uri.assemble (enc_token <$> cs) = Some cs.
Proof.
  revert ts cs. induction n as [|n IH]; intros ts cs Hn Hok Has.
  { destruct ts; [|cbn in Hn; lia]. by injection Has as <-. }
  destruct ts as [|[c|b] r]; [by injection Has as <-| |].
  - cbn [Uri.assemble] in Has. cbn [forallb token_ok] in Hok.
    apply andb_true_iff in Hok as [Hc Hok].
    destruct (Uri.assemble r) as [cs'|] eqn:Hr; [|discriminate].
    injection Has as <-. apply assemble_enc_ascii; [done|].
    apply (IH r); [cbn in Hn; lia|done|done].
  - cbn [forallb token_ok andb] in Hok. cbn [Uri.assemble] in Has.
    destruct (b <? 128)%N eqn:Hb.
    { destruct (Uri.assemble r) as [cs'|] eqn:Hr; [|discriminate].
      injection Has as <-. apply assemble_enc_ascii.
      - unfold is_ascii. apply N.ltb_lt in Hb.
        rewrite byte_of_ascii_of_N by lia. by apply N.ltb_lt.
      - apply (IH r); [cbn in Hn; lia|done|done]. }
    apply N.ltb_ge in Hb.
    destruct (Uri.in_range 194 223 b) eqn:H2.
    { destruct r as [|[c1|c1] r1]; try discriminate.
      destruct (Uri.cont c1) eqn:Hc1; [|discriminate].
      destruct (Uri.assemble r1) as [cs'|] eqn:Hr; [|discriminate].
      injection Has as <-.
      pose proof (in_range_bounds _ _ _ H2) as [? ?].
      pose proof (in_range_bounds _ _ _ Hc1) as [? ?].
      cbn [fmap list_fmap]. fold (fmap enc_token cs').
      rewrite !enc_token_high by lia. cbn [Uri.assemble].
      apply N.ltb_ge in Hb. rewrite Hb, H2, Hc1.
      assert (Uri.assemble (enc_token <$> cs') = Some cs') as ->
        by (apply (IH r1); [cbn in Hn; lia|exact Hok|done]).
      reflexivity. }
    destruct (Uri.in_range 224 239 b) eqn:H3.
    { destruct r as [|[c1|c1] [|[c2|c2] r2]]; try discriminate.
      destruct (Uri.second_ok b c1 && Uri.cont c2) eqn:Hc; [|discriminate].
      destruct (Uri.assemble r2) as [cs'|] eqn:Hr; [|discriminate].
      injection Has as <-.
      pose proof Hc as [Hc1 Hc2]%andb_true_iff.
      pose proof (in_range_bounds _ _ _ H3) as [? ?].
      pose proof (in_range_bounds _ _ _ (second_ok_cont _ _ Hc1)) as [? ?].
      pose proof (in_range_bounds _ _ _ Hc2) as [? ?].
      cbn [fmap list_fmap]. fold (fmap enc_token cs').
      rewrite !enc_token_high by lia. cbn [Uri.assemble].
      apply N.ltb_ge in Hb. rewrite Hb, H2, H3, Hc.
      assert (Uri.assemble (enc_token <$> cs') = Some cs') as ->
        by (apply (IH r2); [cbn in Hn; lia|exact Hok|done]).
      reflexivity. }
    destruct (Uri.in_range 240 244 b) eqn:H4; [|discriminate].
    destruct r as [|[c1|c1] [|[c2|c2] [|[c3|c3] r3]]]; try discriminate.
    destruct (Uri.second_ok b c1 && Uri.cont c2 && Uri.cont c3) eqn:Hc;
      [|discriminate].
    destruct (Uri.assemble r3) as [cs'|] eqn:Hr; [|discriminate].
    injection Has as <-.
    pose proof Hc as [[Hc1 Hc2]%andb_true_iff Hc3]%andb_true_iff.
    pose proof (in_range_bounds _ _ _ H4) as [? ?].
    pose proof (in_range_bounds _ _ _ (second_ok_cont _ _ Hc1)) as [? ?].
    pose proof (in_range_bounds _ _ _ Hc2) as [? ?].
    pose proof (in_range_bounds _ _ _ Hc3) as [? ?].
    cbn [fmap list_fmap]. fold (fmap enc_token cs').
    rewrite !enc_token_high by lia. cbn [Uri.assemble].
    apply N.ltb_ge in Hb. rewrite Hb, H2, H3, H4, Hc.
    assert (Uri.assemble (enc_token <$> cs') = Some cs') as ->
        by (apply (IH r3); [cbn in Hn; lia|exact Hok|done]).
      reflexivity.
Qed.

(** the literal tokens of an ASCII string are ASCII *)
Lemma lex_ascii (n : nat) (s : string) (ts : list Uri.token) :
  (String.length s <= n)%nat →
  all_chars is_ascii s = true →
  Uri.lex s = Some ts →
  forallb token_ok ts = true.
Proof.
  revert s ts. induction n as [|n IH]; intros s ts Hn Hs Hlex.
  { destruct s; [|cbn in Hn; lia]. by injection Hlex as <-. }
  destruct s as [|c s]; [by injection Hlex as <-|].
  rewrite all_chars_cons in Hs. apply andb_true_iff in Hs as [Hc Hs].
  cbn [Uri.lex] in Hlex. destruct (Ascii.eqb c "%").
  - destruct s as [|h [|l s3]]; try discriminate.
    destruct (Uri.hexval h), (Uri.hexval l); try discriminate.
    destruct (Uri.lex s3) as [ts'|] eqn:H3; [|discriminate].
    injection Hlex as <-. cbn [forallb token_ok andb].
    rewrite !all_chars_cons in Hs.
    apply andb_true_iff in Hs as [_ [_ Hs]%andb_true_iff].
    apply (IH s3); [cbn in Hn; lia|done|done].
  - destruct (Uri.lex s) as [ts'|] eqn:H1; [|discriminate].
    injection Hlex as <-. cbn [forallb token_ok]. rewrite Hc.
    apply (IH s); [cbn in Hn; lia|done|done].
Qed.

(** X25: decoding and encoding a segment a second time changes nothing:
    whatever [decodeURIComponent] followed by [encodeURIComponent] makes
    of an ASCII segment is a segment that the same two steps return as it
    is, so a path that went through the helper is never encoded twice. *)
Theorem reencode_idempotent (segment t : string) :
  all_chars is_ascii segment = true →
  reencode segment = Ok t →
  reencode t = Ok t.
Proof.
  intros Hascii. unfold reencode at 1, Uri.decodeURIComponent.
  destruct (Uri.lex segment) as [ts|] eqn:Hlex; [|discriminate].
  destruct (Uri.assemble ts) as [cs|] eqn:Has; [|discriminate].
  cbn [obind]. intros [= <-].
  unfold reencode, Uri.decodeURIComponent.
  rewrite lex_encode, list_ascii_of_string_of_list_ascii.
  rewrite (assemble_enc (length ts) ts cs); [reflexivity|lia| |done].
  by apply (lex_ascii (String.length segment) segment).
Qed.

Lemma reencode_idempotent_witness :
  reencode "a b%2Fc%20d%C3%A9" = Ok "a%20b%2Fc%20d%C3%A9"
  ∧ reencode "a%20b%2Fc%20d%C3%A9" = Ok "a%20b%2Fc%20d%C3%A9".
Proof.
  split; [vm_compute; reflexivity|].
  apply (reencode_idempotent "a b%2Fc%20d%C3%A9");
    vm_compute; reflexivity.
Defined.

(** ** The admin page's handlers *)

Lemma fetchEvents_healthy (st : browser) :
  healthy st → fetchEvents st = (Ok tt, with_db true st).
Proof.
  intros Hst. unfold fetchEvents, try_catch, bind.
  by rewrite (getAllEvents_healthy st Hst).
Qed.

Lemma storable_key (v : value) :
  storable v = true → is_Some (IDB.key_of v).
Proof.
  unfold storable. destruct (IDB.key_of v); [by eexists | discriminate].
Qed.

Lemma put_all_absent (xs : list value) (m : gmap idb_key value)
    (k : idb_key) :
  (∀ e, e ∈ xs → IDB.key_of e ≠ Some k) →
  (put_all xs m).2 !! k = m !! k.
Proof.
  revert m. induction xs as [|x xs IH]; intros m Hxs; [reflexivity|].
  cbn [put_all]. destruct (IDB.key_of x) as [kx|] eqn:Hkx; [|reflexivity].
  rewrite IH.
  - apply lookup_insert_ne. intros ->. apply (Hxs x); [by left | done].
  - intros e He. apply Hxs. by right.
Qed.

(** a save never brings in a key that none of its records carries *)
Lemma saveAllEvents_absent (xs : list value) (st : browser) (k : idb_key) :
  healthy st →
  (∀ e, e ∈ xs → IDB.key_of e ≠ Some k) →
  store (saveAllEvents (VArr xs) st).2 !! k = None.
Proof.
  intros Hst Hxs.
  rewrite saveAllEvents_operational by (unfold operational; by rewrite Hst).
  pose proof (put_all_absent xs ∅ k Hxs) as Hm. rewrite lookup_empty in Hm.
  unfold save_cleared. cbn [Js.iterate Js.array_map].
  destruct (put_all xs ∅) as [[u|err] m]; cbn [snd] in Hm; [|exact Hm].
  destruct (try_map lightweight xs); [|exact Hm].
  destruct (quota_exceeded (with_db true st)); exact Hm.
Qed.

Lemma without_id_records (id : string) (xs : list value) :
  Forall (fun e => is_Some (IDB.key_of e)) xs →
  without_id id (VArr xs)
  = Ok (List.filter
          (fun e => negb (bool_decide (IDB.key_of e = Some (KStr id)))) xs).
Proof.
  unfold without_id. induction 1 as [|x xs [k Hk] _ IH]; [reflexivity|].
  cbn [Js.filter List.filter]. unfold other_id at 1.
  rewrite (has_id_key id x k Hk), IH. cbn [obind]. rewrite Hk.
  rewrite (bool_decide_ext (Some k = Some (KStr id)) (k = KStr id))
    by (split; congruence).
  reflexivity.
Qed.

Lemma latest_filter (k : idb_key) (P : value → bool) (xs : list value)
    (d : option value) :
  (∀ e, e ∈ xs → IDB.key_of e = Some k → P e = true) →
  latest k (List.filter P xs) d = latest k xs d.
Proof.
  revert d. induction xs as [|x xs IH]; intros d Hxs; [reflexivity|].
  assert (∀ e, e ∈ xs → IDB.key_of e = Some k → P e = true) as Hxs'
    by (intros e He; apply Hxs; by right).
  cbn [List.filter]. destruct (P x) eqn:HP.
  - unfold latest. cbn [foldl]. apply (IH _ Hxs').
  - unfold latest at 2. cbn [foldl]. rewrite bool_decide_eq_false_2.
    + apply (IH _ Hxs').
    + intros Hk. rewrite (Hxs x) in HP; [discriminate | by left | done].
Qed.

Lemma filter_Forall {A} (Q : A → Prop) (P : A → bool) (xs : list A) :
  Forall Q xs → Forall Q (List.filter P xs).
Proof.
  induction 1 as [|x xs Hx _ IH]; [constructor|].
  cbn [List.filter]. destruct (P x); [by constructor | done].
Qed.

(** the keys of the stripped copies are the keys of the records *)
Lemma lightweight_keys_absent (xs lw : list value) (k : idb_key) :
  Forall (fun v => NoDup (Js.own_props v).*1) xs →
  Forall (fun e => is_Some (IDB.key_of e)) xs →
  (∀ e, e ∈ xs → IDB.key_of e ≠ Some k) →
  try_map lightweight xs = Ok lw →
  ∀ e, e ∈ map json_elem lw → IDB.key_of e ≠ Some k.
Proof.
  intros Hobjs Hkeys Hxs Hlw%try_map_Forall2.
  induction Hlw as [|x y xs lw Hxy _ IH]; intros e He.
  - by apply elem_of_nil in He.
  - apply Forall_cons in Hobjs as [Hx Hobjs].
    apply Forall_cons in Hkeys as [[kx Hkx] Hkeys].
    cbn [map] in He. apply elem_of_cons in He as [->|He].
    + rewrite (lightweight_key x y kx Hx Hkx Hxy), <- Hkx.
      apply Hxs. by left.
    + apply IH; [done | done | | done]. intros e' He'. apply Hxs. by right.
Qed.

(** X26: on a working store the admin page's delete removes the record
    from the store and rewrites the legacy cache without it, so the record
    stays away when [migrateFromLocalStorage] runs next; every other
    record stays. *)
Theorem handleDeleteEvent_lasting (id : string) (st : browser) :
  healthy st →
  quota_exceeded st = false →
  store_wf (store st) →
  Forall (fun v => storable v = true) (IDB.records (store st)) →
  Forall (fun v => NoDup (Js.own_props v).*1) (IDB.records (store st)) →
  ∃ st', handleDeleteEvent true id st = (Ok tt, st')
         ∧ store st' = delete (KStr id) (store st)
         ∧ store (migrateFromLocalStorage st').2 !! KStr id = None.
Proof.
  intros Hst Hq Hwf Hstorable Hobjs.
  set (P := fun e => negb (bool_decide (IDB.key_of e = Some (KStr id)))).
  set (ys := List.filter P (IDB.records (store st))).
  assert (∀ e, e ∈ ys → IDB.key_of e ≠ Some (KStr id)) as Hys.
  { intros e [_ HP]%list_elem_of_In%filter_In Hk. unfold P in HP.
    by rewrite bool_decide_eq_true_2 in HP. }
  destruct (saveAllEvents_succeeds ys (with_db true st))
    as (m & lw & Hput & Hlw & Hsave);
    [by destruct st | by destruct st | by apply filter_Forall |].
  assert (m = delete (KStr id) (store st)) as ->.
  { apply map_eq. intros k.
    rewrite (put_all_lookup _ _ _ k Hput), lookup_empty.
    destruct (decide (k = KStr id)) as [->|Hne].
    - rewrite lookup_delete_eq. by apply latest_absent.
    - rewrite lookup_delete_ne by done. unfold ys.
      rewrite latest_filter, (latest_records _ k Hwf); [reflexivity|].
      intros e _ Hk. unfold P. rewrite bool_decide_eq_false_2; [done|].
      rewrite Hk. congruence. }
  unfold handleDeleteEvent. cbn [negb]. unfold try_catch, bind, lift.
  rewrite (getAllEvents_healthy st Hst).
  rewrite without_id_records by (by apply records_have_keys).
  fold P. fold ys. rewrite Hsave.
  rewrite fetchEvents_healthy by (by destruct st).
  eexists. split; [reflexivity|]. split; [by destruct st|].
  rewrite migrateFromLocalStorage_run.
  destruct st as [d f m0 t q]. unfold healthy in Hst. cbn in Hst, Hq.
  subst f q.
  cbn [with_db with_store with_churchEvents churchEvents db fault store
       quota_exceeded snd].
  unfold JSON_stringify. rewrite to_json_arr.
  apply saveAllEvents_absent; [reflexivity|].
  apply (lightweight_keys_absent ys lw); [| |exact Hys|exact Hlw].
  - by apply filter_Forall.
  - by apply put_all_Ok_keys in Hput.
Qed.

Lemma handleDeleteEvent_lasting_witness :
  ∃ st', handleDeleteEvent true "event-1" populated_browser = (Ok tt, st')
         ∧ store st' = delete (KStr "event-1") (store populated_browser)
         ∧ store (migrateFromLocalStorage st').2 !! KStr "event-1" = None.
Proof.
  apply (handleDeleteEvent_lasting "event-1" populated_browser).
  - reflexivity.
  - reflexivity.
  - change (map_Forall (fun k e => IDB.key_of e = Some k)
              (store populated_browser)).
    refine (bool_decide_unpack _ _). vm_compute. exact I.
  - refine (bool_decide_unpack _ _). vm_compute. exact I.
  - refine (bool_decide_unpack _ _). vm_compute. exact I.
Defined.

(** *** [clearAllMedia] *)

Lemma filter_keep_media_kept (items kept : list value) :
  Js.filter keep_media items = Ok kept →
  Js.filter keep_media kept = Ok kept
  ∧ Forall (fun m => embedded_url m = false) kept.
Proof.
  revert kept. induction items as [|x items IH]; intros kept.
  - intros [= <-]. by split.
  - cbn [Js.filter].
    destruct (keep_media x) as [b|] eqn:Hx; cbn [obind]; [|discriminate].
    destruct (Js.filter keep_media items) as [ys|]; cbn [obind];
      [|discriminate].
    intros [= <-]. destruct (IH ys eq_refl) as [Hys Hclean].
    destruct b; [|by split].
    destruct (keep_media_spec x true Hx) as [Hb _].
    split.
    + cbn [Js.filter]. by rewrite Hx, Hys.
    + constructor; [|done]. by destruct (embedded_url x).
Qed.

(** the shape of a stripped copy *)
Lemma lightweight_inv (e e' : value) :
  lightweight e = Ok e' →
  ∃ kept image,
    e' = VObj (Js.set "image" image
                 (Js.set "media" (VArr kept) (Js.spread [] e)))
    ∧ Js.filter keep_media kept = Ok kept
    ∧ Forall (fun m => embedded_url m = false) kept
    ∧ match image with
      | VUndef | VNull => True
      | VStr s => Str.startsWith "data:" s = false
      | _ => False
      end.
Proof.
  unfold lightweight.
  destruct (Js.get e "media") as [media0|]; cbn [obind]; [|discriminate].
  match goal with
  | |- obind ?m _ = _ → _ => destruct m as [media|] eqn:Hmedia
  end; cbn [obind]; [|discriminate].
  destruct (Js.get e "image") as [image0|]; cbn [obind]; [|discriminate].
  match goal with
  | |- obind ?m _ = _ → _ => destruct m as [image|] eqn:Himage
  end; cbn [obind]; [|discriminate].
  intros [= <-].
  assert (∃ kept, media = VArr kept
                  ∧ Js.filter keep_media kept = Ok kept
                  ∧ Forall (fun m => embedded_url m = false) kept)
    as (kept & -> & Hkept & Hclean).
  { destruct media0 as [| | | | |items|]; try discriminate;
      try (injection Hmedia as <-; exists []; by repeat split).
    destruct (Js.filter keep_media items) as [kept|] eqn:Hf;
      cbn [obind] in Hmedia; [|discriminate].
    injection Hmedia as <-. exists kept. split; [reflexivity|].
    by apply (filter_keep_media_kept items). }
  exists kept, image. repeat split; try done.
  destruct image0 as [| | | |s| |]; try discriminate;
    injection Himage as <-; try done.
  by destruct (Str.startsWith "data:" s) eqn:Hs.
Qed.

Lemma lightweight_props_NoDup (kept : list value) (image e : value) :
  NoDup (Js.set "image" image
           (Js.set "media" (VArr kept) (Js.spread [] e))).*1.
Proof. apply set_NoDup, set_NoDup, spread_NoDup. constructor. Qed.

(** stripping a stripped copy again gives the same record *)
Lemma lightweight_again (e e' : value) :
  lightweight e = Ok e' → lightweight e' = Ok e'.
Proof.
  intros (kept & image & -> & Hkept & _ & Himage)%lightweight_inv.
  pose proof (lightweight_props_NoDup kept image e) as Hnodup.
  set (ps := Js.set "image" image
               (Js.set "media" (VArr kept) (Js.spread [] e))) in *.
  assert (Js.lookup "media" ps = Some (VArr kept)) as Hmedia.
  { unfold ps. rewrite lookup_set_ne by done. apply lookup_set_eq. }
  assert (Js.lookup "image" ps = Some image) as Himg
    by apply lookup_set_eq.
  unfold lightweight. cbn [Js.get]. rewrite Hmedia, Himg.
  cbn [default from_option id obind]. rewrite Hkept. cbn [obind].
  destruct image as [| | | |s| |]; try done; cbn [obind];
    rewrite ?Himage, (spread_object ps Hnodup), (set_same _ _ _ Hmedia),
      (set_same _ _ _ Himg); reflexivity.
Qed.

(** a stripped copy carries nothing embedded *)
Lemma lightweight_clean (e e' : value) :
  lightweight e = Ok e' →
  embedded_cover e' = false ∧ embedded_media e' = false.
Proof.
  intros (kept & image & -> & _ & Hclean & Himage)%lightweight_inv.
  unfold embedded_cover, embedded_media. cbn [Js.get].
  rewrite lookup_set_eq, lookup_set_ne, lookup_set_eq by done.
  cbn [default from_option id]. split.
  - by destruct image.
  - clear -Hclean. induction Hclean as [|m kept Hm _ IH]; [reflexivity|].
    cbn [existsb]. by rewrite Hm, IH.
Qed.

Lemma lightweight_same_key (e e' : value) (k : idb_key) :
  NoDup (Js.own_props e).*1 →
  IDB.key_of e = Some k →
  lightweight e = Ok e' →
  IDB.key_of e' = Some k.
Proof.
  intros Hwf Hk (kept & image & -> & _)%lightweight_inv.
  cbn [IDB.key_of]. rewrite !lookup_set_ne by done.
  rewrite (spread_lookup _ _ _ Hwf).
  unfold IDB.key_of in Hk. destruct e as [| | | | | |ps]; try discriminate.
  cbn [Js.own_props Js.lookup].
  by destruct (Js.lookup "id" ps) as [[]|].
Qed.

Lemma try_map_all_ok {A} (f : A → outcome A) (xs : list A) :
  Forall (fun x => is_ok (f x) = true) xs →
  try_map f xs
  = Ok (map (fun x => match f x with Ok y => y | Throw _ => x end) xs).
Proof.
  induction 1 as [|x xs Hx _ IH]; [reflexivity|].
  cbn [try_map map]. rewrite IH. by destruct (f x).
Qed.

(** saving the records of the store, each one changed without touching its
    key *)
Lemma save_mapped (g : value → value) (st : browser) :
  healthy st →
  quota_exceeded st = false →
  store_wf (store st) →
  (∀ e, e ∈ IDB.records (store st) → IDB.key_of (g e) = IDB.key_of e) →
  Forall (fun v => storable v = true) (map g (IDB.records (store st))) →
  ∃ st', saveAllEvents (VArr (map g (IDB.records (store st))))
           (with_db true st) = (Ok tt, st')
         ∧ store st' = g <$> store st
         ∧ healthy st'.
Proof.
  intros Hst Hq Hwf Hg Hys.
  destruct (saveAllEvents_succeeds (map g (IDB.records (store st)))
              (with_db true st))
    as (m & lw & Hput & _ & Hsave);
    [by destruct st | by destruct st | exact Hys |].
  rewrite Hsave. eexists. split; [reflexivity|]. split.
  - replace (store _) with m by (by destruct st).
    apply map_eq. intros k.
    rewrite (put_all_lookup _ _ _ k Hput), lookup_empty, lookup_fmap.
    etrans; [apply (latest_map k g _ None Hg)|].
    by rewrite (latest_records _ k Hwf).
  - by destruct st.
Qed.

(** X27: on a working store [clearAllMedia] replaces every record by its
    stripped copy, under the same id: afterwards no record carries an
    embedded cover or an embedded media item, and no record is added or
    lost. *)
Theorem clearAllMedia_strips (st : browser) :
  healthy st →
  quota_exceeded st = false →
  store_wf (store st) →
  Forall (fun v => storable v = true) (IDB.records (store st)) →
  Forall (fun v => NoDup (Js.own_props v).*1) (IDB.records (store st)) →
  ∃ st', clearAllMedia true st = (Ok tt, st')
         ∧ ∀ k, match store st !! k with
                | Some e =>
                    ∃ e', lightweight e = Ok e'
                          ∧ store st' !! k = Some e'
                          ∧ embedded_cover e' = false
                          ∧ embedded_media e' = false
                | None => store st' !! k = None
                end.
Proof.
  intros Hst Hq Hwf Hstorable Hobjs.
  set (g := fun e => match lightweight e with Ok e' => e' | Throw _ => e end).
  assert (∀ e, e ∈ IDB.records (store st) →
               ∃ e', lightweight e = Ok e' ∧ g e = e'
                     ∧ IDB.key_of e' = IDB.key_of e) as Hrec.
  { intros e He.
    pose proof (proj1 (Forall_forall _ _) Hstorable e He) as Hs.
    pose proof (proj1 (Forall_forall _ _) Hobjs e He) as Hn.
    unfold storable in Hs. destruct (IDB.key_of e) as [k|] eqn:Hk;
      [|discriminate].
    destruct (lightweight e) as [e'|] eqn:He'; [|discriminate].
    exists e'. split; [reflexivity|]. split; [unfold g; by rewrite He'|].
    by apply (lightweight_same_key e). }
  destruct (save_mapped g st Hst Hq Hwf) as (st1 & Hsave & Hstore & Hst1).
  { intros e He. by destruct (Hrec e He) as (e' & _ & -> & ?). }
  { apply Forall_forall. intros y Hy%list_elem_of_In%in_map_iff.
    destruct Hy as (e & <- & He%list_elem_of_In).
    destruct (Hrec e He) as (e' & He' & -> & Hk).
    pose proof (proj1 (Forall_forall _ _) Hstorable e He) as Hs.
    unfold storable in *. rewrite Hk.
    destruct (IDB.key_of e); [|discriminate].
    by rewrite (lightweight_again e e' He'). }
  unfold clearAllMedia. cbn [negb]. unfold try_catch, bind, lift.
  rewrite (getAllEvents_healthy st Hst). cbn [Js.array_map].
  rewrite try_map_all_ok.
  2:{ eapply Forall_impl; [exact Hstorable|]. intros v Hv.
      unfold storable in Hv. by destruct (IDB.key_of v). }
  fold g. rewrite Hsave, (fetchEvents_healthy st1 Hst1).
  eexists. split; [reflexivity|]. intros k.
  replace (store (with_db true st1)) with (store st1) by (by destruct st1).
  rewrite Hstore, lookup_fmap.
  destruct (store st !! k) as [e|] eqn:Hk; [|reflexivity].
  destruct (Hrec e) as (e' & He' & Hg & _);
    [apply records_elem; by exists k|].
  exists e'. cbn. rewrite Hg.
  destruct (lightweight_clean e e' He'). by repeat split.
Qed.

Lemma clearAllMedia_strips_witness :
  ∃ st', clearAllMedia true populated_browser = (Ok tt, st')
         ∧ ∀ k, match store populated_browser !! k with
                | Some e =>
                    ∃ e', lightweight e = Ok e'
                          ∧ store st' !! k = Some e'
                          ∧ embedded_cover e' = false
                          ∧ embedded_media e' = false
                | None => store st' !! k = None
                end.
Proof.
  apply (clearAllMedia_strips populated_browser).
  - reflexivity.
  - reflexivity.
  - change (map_Forall (fun k e => IDB.key_of e = Some k)
              (store populated_browser)).
    refine (bool_decide_unpack _ _). vm_compute. exact I.
  - refine (bool_decide_unpack _ _). vm_compute. exact I.
  - refine (bool_decide_unpack _ _). vm_compute. exact I.
Defined.

(** ** The image helpers: URLs left alone, and failure *)

Lemma external_unchanged (u : string) (options : ImageTransformOptions) :
  Str.startsWith "data:" u = true ∨ Str.includes supabase_marker u = false →
  getOptimizedImageUrl (Some u) options = Ok u.
Proof.
  intros H. unfold getOptimizedImageUrl.
  destruct (String.eqb_spec u "") as [->|_]; [reflexivity|].
  destruct (Str.startsWith "data:" u); [reflexivity|].
  destruct H as [H|Hm]; [discriminate | by rewrite Hm].
Qed.

(** X28: for an image that is not in Supabase storage, and for a [data:]
    image, nothing is resized: the thumbnail, mobile, tablet and desktop
    URLs of [getResponsiveImageUrls] are all the URL itself, and
    [getImageSrcSet] is empty. *)
Theorem getResponsiveImageUrls_external (u : string) :
  u ≠ "" →
  Str.startsWith "data:" u = true ∨ Str.includes supabase_marker u = false →
  getResponsiveImageUrls (Some u)
  = Ok {| thumbnail := u; mobile := u; tablet := u; desktop := u;
          original := Some u |}
  ∧ getImageSrcSet (Some u) = Ok "".
Proof.
  intros Hu H. unfold getResponsiveImageUrls, getImageSrcSet, missing_url.
  destruct (String.eqb_spec u "") as [->|_]; [done|].
  rewrite !(external_unchanged u _ H). split; [reflexivity|].
  destruct H as [Hd|Hm]; [by rewrite Hd, orb_true_r | by rewrite Hm].
Qed.

Lemma getResponsiveImageUrls_external_witness :
  getResponsiveImageUrls (Some "https://images.example.org/nave.jpg")
  = Ok {| thumbnail := "https://images.example.org/nave.jpg";
          mobile := "https://images.example.org/nave.jpg";
          tablet := "https://images.example.org/nave.jpg";
          desktop := "https://images.example.org/nave.jpg";
          original := Some "https://images.example.org/nave.jpg" |}
  ∧ getImageSrcSet (Some "https://images.example.org/nave.jpg") = Ok "".
Proof.
  apply (getResponsiveImageUrls_external "https://images.example.org/nave.jpg").
  - discriminate.
  - right. vm_compute. reflexivity.
Defined.

Lemma reencode_throws (s : string) (e : error) :
  reencode s = Throw e → e = URIError.
Proof.
  unfold reencode, Uri.decodeURIComponent.
  destruct (Uri.lex s) as [ts|]; [|by intros [= <-]].
  destruct (Uri.assemble ts); [discriminate | by intros [= <-]].
Qed.

Lemma try_map_reencode_throws (l : list string) (e : error) :
  try_map reencode l = Throw e → e = URIError.
Proof.
  induction l as [|s l IH]; [discriminate|]. cbn [try_map].
  destruct (reencode s) eqn:Hs; cbn [obind].
  - destruct (try_map reencode l); cbn [obind]; [discriminate|].
    intros [= <-]. by apply IH.
  - intros [= <-]. by apply (reencode_throws s).
Qed.

(** when the transform throws, the options play no part *)
Lemma transform_throws (url : option string) (options : ImageTransformOptions)
    (e : error) :
  getOptimizedImageUrl url options = Throw e →
  e = URIError
  ∧ (∀ options', getOptimizedImageUrl url options' = Throw URIError)
  ∧ ∃ u, url = Some u ∧ String.eqb u "" = false
         ∧ Str.startsWith "data:" u = false
         ∧ Str.includes supabase_marker u = true.
Proof.
  unfold getOptimizedImageUrl. destruct url as [u|]; [|discriminate].
  destruct (String.eqb u "") eqn:Hu; [discriminate|].
  destruct (Str.startsWith "data:" u) eqn:Hdata; [discriminate|].
  destruct (Str.includes supabase_marker u) eqn:Hm; cbn [negb];
    [|discriminate].
  destruct (length (Str.split object_segment u) <? 2)%nat; [discriminate|].
  destruct (Str.split "/" (nth 1 (Str.split object_segment u) ""))
    as [|bucketRaw pathPartsRaw]; [discriminate|].
  destruct (reencode bucketRaw) as [bucket|e1] eqn:Hb; cbn [obind].
  - destruct (try_map reencode pathPartsRaw) as [parts|e2] eqn:Hp;
      cbn [obind]; [discriminate|].
    intros [= <-]. pose proof (try_map_reencode_throws _ _ Hp) as ->.
    split; [reflexivity|]. split; [reflexivity|]. by exists u.
  - intros [= <-]. pose proof (reencode_throws _ _ Hb) as ->.
    split; [reflexivity|]. split; [reflexivity|]. by exists u.
Qed.

(** X29: the image helpers fail together.  The only error of
    [getOptimizedImageUrl] is the URIError of a malformed escape in the
    bucket or the path; it does not depend on the options, and
    [getResponsiveImageUrls] and [getImageSrcSet] then throw it as well. *)
Theorem image_helpers_throw_alike (url : option string)
    (options : ImageTransformOptions) (e : error) :
  getOptimizedImageUrl url options = Throw e →
  e = URIError
  ∧ (∀ options', getOptimizedImageUrl url options' = Throw URIError)
  ∧ getResponsiveImageUrls url = Throw URIError
  ∧ getImageSrcSet url = Throw URIError.
Proof.
  intros (-> & Hall & u & -> & Hu & Hdata & Hm)%transform_throws.
  split; [reflexivity|]. split; [exact Hall|].
  assert (getResponsiveImageUrls (Some u) = Throw URIError) as Hr.
  { unfold getResponsiveImageUrls, missing_url. by rewrite Hu, Hall. }
  split; [exact Hr|].
  unfold getImageSrcSet. by rewrite Hu, Hm, Hdata, Hr.
Qed.

Lemma image_helpers_throw_alike_witness :
  URIError = URIError
  ∧ (∀ options',
       getOptimizedImageUrl
         (Some "https://X.supabase.co/storage/v1/object/public/b/100%.jpg")
         options' = Throw URIError)
  ∧ getResponsiveImageUrls
      (Some "https://X.supabase.co/storage/v1/object/public/b/100%.jpg")
    = Throw URIError
  ∧ getImageSrcSet
      (Some "https://X.supabase.co/storage/v1/object/public/b/100%.jpg")
    = Throw URIError.
Proof.
  apply (image_helpers_throw_alike
           (Some "https://X.supabase.co/storage/v1/object/public/b/100%.jpg")
           no_options URIError).
  vm_compute. reflexivity.
Defined.

(** X30: the length guard of [getOptimizedImageUrl] is dead code: a URL
    that has passed the marker test splits into at least two parts around
    the object segment, so the test [urlParts.length < 2] is false. *)
Theorem length_guard_never_fires (url : string) :
  Str.includes supabase_marker url = true →
  (length (Str.split object_segment url) <? 2)%nat = false.
Proof.
  intros Hm. apply Nat.ltb_ge. by apply marker_splits.
Qed.

Lemma length_guard_never_fires_witness :
  (length (Str.split object_segment
             "https://X.supabase.co/storage/v1/object/public/b/p.jpg") <? 2)%nat
  = false.
Proof.
  apply length_guard_never_fires. vm_compute. reflexivity.
Defined.

(** ** The transform leaves a URL alone only outside Supabase storage *)





